(** * Hierarchical state machines: [transitions/extensions/nesting.py]

    A shallow embedding of the nesting extension of [transitions] and the
    properties of its specification.  Python objects live in a store and are
    named by references; exceptions and loops that need not terminate are
    explicit in the result type. *)

From Stdlib Require Import Ascii String ZArith Lia.
From stdpp Require Import gmap strings list.

(** ** Python values shared by all classes *)

(** Exceptions the embedded code can raise. *)
Inductive exn :=
  | AttributeError
  | KeyError
  | TypeError
  | IndexError
  | ValueError
  | MachineError (msg : string).

(** The outcome of running a piece of code with a bound on the number of
    nested calls and loop iterations: a value, an exception, or the bound
    was reached. *)
Inductive result (A : Type) :=
  | Ok (a : A)
  | Raise (e : exn)
  | OutOfFuel.
Arguments Ok {A} a.
Arguments Raise {A} e.
Arguments OutOfFuel {A}.

#[global] Instance result_ret : MRet result := λ A a, Ok a.
#[global] Instance result_bind : MBind result := λ A B k r,
  match r with
  | Ok a => k a
  | Raise e => Raise e
  | OutOfFuel => OutOfFuel
  end.

(** [name[0]]: [IndexError] on the empty string. *)
Definition head_char (s : string) : result ascii :=
  match s with
  | EmptyString => Raise IndexError
  | String c _ => Ok c
  end.

(** [s.startswith(p)] *)
Definition startswith (p s : string) : bool := String.prefix p s.

(** [s[n:]] *)
Fixpoint str_drop (n : nat) (s : string) : string :=
  match n, s with
  | O, _ => s
  | S n', String _ s' => str_drop n' s'
  | S _, EmptyString => EmptyString
  end.

(** [s.split(sep)] for a one-character separator; [cur] holds the
    characters of the current segment, last one first. *)
Fixpoint rev_string (acc : list ascii) (s : string) : string :=
  match acc with
  | [] => s
  | c :: acc' => rev_string acc' (String c s)
  end.

Fixpoint split_aux (sep : ascii) (cur : list ascii) (s : string) : list string :=
  match s with
  | EmptyString => [rev_string cur EmptyString]
  | String c s' =>
      if Ascii.eqb c sep then rev_string cur EmptyString :: split_aux sep [] s'
      else split_aux sep (c :: cur) s'
  end.

Definition split (sep : ascii) (s : string) : list string := split_aux sep [] s.

(** [sep.join(l)] *)
Definition join (sep : string) (l : list string) : string := String.concat sep l.

(** ** FunctionWrapper *)

Module FunctionWrapper.

(** The callables stored in a wrapper are the bound [trigger] methods of
    events; an event is identified by its trigger name. *)
Definition callable := string.

(** What an attribute of a wrapper instance can hold: [None], a callable
    ([_func]), or another wrapper.  The instance is its attribute
    dictionary; [_func] is an entry of it like the others. *)
Inductive value :=
  | VNone
  | VFunc (f : callable)
  | VObj (w : t)
with t := Obj (attrs : gmap string value).

Definition attrs (w : t) : gmap string value := let 'Obj d := w in d.

(** A fresh instance, before [__init__] has assigned anything. *)
Definition fresh : t := Obj ∅.

Definition setattr (w : t) (name : string) (v : value) : t :=
  Obj (<[name := v]> (attrs w)).

Section WithClass.

(** Names that resolve on the class rather than on the instance: [add],
    [__init__], [__call__] and what [object] provides. *)
Variable class_attr : string → bool.

(** [name[0].isdigit()] for a non-empty [name]: whether the first character
    of the string is a digit.  A string is a sequence of Unicode characters,
    kept here as the bytes of its encoding; its first character may take
    several of these bytes, and [str.isdigit] holds of the digits of every
    script, not of the ASCII digits alone. *)
Variable isdigit : string → bool.

Definition hasattr (w : t) (name : string) : bool :=
  bool_decide (is_Some (attrs w !! name)) || class_attr name.

(** The name a path segment is stored under. *)
Definition mangle (name : string) : result string :=
  _ ← head_char name;
  Ok (if isdigit name then "_" +:+ name else name).

(** [add], with [FunctionWrapper(func, path[1:])] written out in the
    [else] branch: [__init__] runs [add] on the fresh instance and then
    assigns [_func].  Every assignment follows the calls that can raise,
    so an exception leaves the receiver as it was.  [getattr] of a name
    held by the class, or of an attribute that is no wrapper, gives an
    object without an [add] method taking these arguments. *)
Fixpoint add (func : callable) (path : list string) (self : t) : result t :=
  match path with
  | name0 :: rest =>
      name ← mangle name0;
      if hasattr self name then
        match attrs self !! name with
        | Some (VObj w) =>
            w' ← add func rest w;
            Ok (setattr self name (VObj w'))
        | Some _ => Raise AttributeError
        | None => Raise AttributeError
        end
      else
        x ← match rest with
            | _ :: _ =>
                x0 ← add func rest fresh;
                Ok (setattr x0 "_func" VNone)
            | [] => Ok (setattr fresh "_func" (VFunc func))
            end;
        Ok (setattr self name (VObj x))
  | [] => Ok (setattr self "_func" (VFunc func))
  end.

(** [FunctionWrapper(func, path)] *)
Definition init (func : callable) (path : list string) : result t :=
  match path with
  | _ :: _ =>
      x0 ← add func path fresh;
      Ok (setattr x0 "_func" VNone)
  | [] => Ok (setattr fresh "_func" (VFunc func))
  end.

(** [self.k1.k2. ... .kn] by attribute access on instances. *)
Fixpoint find (w : t) (q : list string) : option value :=
  match q with
  | [] => Some (VObj w)
  | k :: q' =>
      match attrs w !! k with
      | Some (VObj w') => find w' q'
      | Some v => match q' with [] => Some v | _ => None end
      | None => None
      end
  end.

(** The stored names of a path. *)
Fixpoint mangled (path : list string) : result (list string) :=
  match path with
  | [] => Ok []
  | name0 :: rest =>
      name ← mangle name0;
      l ← mangled rest;
      Ok (name :: l)
  end.

(** [q] leaves the path [p] at some position: a sibling of a node on
    [p], or something below such a sibling. *)
Fixpoint branches_off (q p : list string) : Prop :=
  match q, p with
  | k :: q', n :: p' => k ≠ n ∨ (k = n ∧ branches_off q' p')
  | _, _ => False
  end.

(** The walk of [add] along the stored names [q] meets nothing that stops
    it: an attribute on the way is a wrapper, and where the instances end
    no remaining name resolves on the class. *)
Fixpoint walkable (self : t) (q : list string) : Prop :=
  match q with
  | [] => True
  | k :: q' =>
      match attrs self !! k with
      | Some (VObj w) => walkable w q'
      | Some _ => False
      | None => Forall (λ n, class_attr n = false) (k :: q')
      end
  end.

End WithClass.

(** [__call__]: the call of [self._func], up to the callable that is
    run.  The class has no attribute [_func], so the lookup fails on an
    instance without one; [None] is not callable; a wrapper held in [_func]
    is called in turn. *)
Fixpoint call (fuel : nat) (self : t) : result callable :=
  match fuel with
  | O => OutOfFuel
  | S fuel' =>
      match attrs self !! "_func" with
      | Some (VFunc f) => Ok f
      | Some VNone => Raise TypeError
      | Some (VObj w) => call fuel' w
      | None => Raise AttributeError
      end
  end.

(** A part of [str.isdigit] on the first character of a string in UTF-8,
    enough for the examples: the ASCII digits and the Arabic-Indic digits
    U+0660 to U+0669 (the bytes 217 and 160 to 169). *)
Definition sample_isdigit (s : string) : bool :=
  match s with
  | EmptyString => false
  | String c rest =>
      let n := nat_of_ascii c in
      ((48 <=? n)%nat && (n <=? 57)%nat)
      || ((n =? 217)%nat &&
          match rest with
          | EmptyString => false
          | String d _ =>
              let m := nat_of_ascii d in (160 <=? m)%nat && (m <=? 169)%nat
          end)
  end.

(** The wrapper of [to_A.B], extended by the trigger [to_A.1.x]. *)
Definition wrapper_AB : t :=
  setattr (setattr fresh "B" (VObj (setattr fresh "_func" (VFunc "to_A.B"))))
          "_func" (VFunc "to_A").

Definition wrapper_AB1x : t :=
  setattr wrapper_AB "_1"
    (VObj (setattr (setattr fresh "x" (VObj (setattr fresh "_func" (VFunc "to_A.1.x"))))
                   "_func" VNone)).

(** A wrapper holding the trigger [to_A._1] under the segment [_1]. *)
Definition wrapper_under1 : t :=
  setattr fresh "_1" (VObj (setattr fresh "_func" (VFunc "to_A._1"))).

End FunctionWrapper.

(** ** The store *)

(** A reference names an object of the store (its position there). *)
Abbreviation ref := nat (only parsing).

(** Callbacks are given by name. *)
Definition callbacks := list string.

(** [NestedState]: the fields its constructor assigns.  [level] and [name]
    are properties computed from the parent chain. *)
Record NestedState := mkNestedState {
  _name : string;
  parent : option ref;
  on_enter : callbacks;
  on_exit : callbacks;
  ignore_invalid_triggers : option bool;
  children : option (list ref) }.

(** A transition of the base engine: what [_create_transition] is given. *)
Record Transition := mkTransition {
  source : string;
  dest : string;
  conditions : callbacks;
  unless : callbacks;
  before : callbacks;
  after : callbacks }.

(** The [transitions] mapping of an event, from source names to transition
    lists, in insertion order.  [default_factory] tells whether indexing an
    absent name yields (and registers) an empty list, as a
    [defaultdict(list)] does, or raises [KeyError], as a plain [dict]. *)
Record Table := mkTable {
  items : list (string * list Transition);
  default_factory : bool }.

Record NestedEvent := mkNestedEvent {
  event_name : string;
  transitions : Table }.

(** An entry of [_buffered_transitions]. *)
Record Buffered := mkBuffered {
  b_trigger : string;
  b_source : string;
  b_dest : string;
  b_conditions : callbacks;
  b_before : callbacks;
  b_after : callbacks }.

(** What the machine binds on its model: the [trigger] method of an event
    or a [FunctionWrapper]. *)
Inductive ModelAttr :=
  | MTrigger (trigger_name : string)
  | MWrapper (w : FunctionWrapper.t).

(** [HierarchicalMachine]: the state registry (an ordered dictionary), the
    event registry, the active state, the machine-wide default of
    [ignore_invalid_triggers], the buffer and the attributes bound on the
    model. *)
Record Machine := mkMachine {
  states : list (string * ref);
  events : list (string * NestedEvent);
  current_state : ref;
  machine_ignore_invalid_triggers : bool;
  _buffered_transitions : list Buffered;
  model : gmap string ModelAttr }.

(** A state specification: a name, a dictionary, a machine instance, a node,
    or a value of another type. *)
Inductive spec :=
  | SStr (s : string)
  | SDict (d : ref)
  | SMachine (m : ref)
  | SNode (n : ref)
  | SOther.

(** The [states] argument before [listify]. *)
Inductive states_arg :=
  | One (s : spec)
  | Many (l : list spec).

(** A dictionary specification; [None] is an absent key. *)
Record StateDict := mkStateDict {
  d_name : option string;
  d_on_enter : option callbacks;
  d_on_exit : option callbacks;
  d_ignore_invalid_triggers : option (option bool);
  d_children : option states_arg;
  d_remap : option (gmap string string);
  d_parent : option (option ref) }.

(** What the hooks and the logger leave behind. *)
Inductive Effect :=
  | Exited (r : ref)
  | Entered (r : ref)
  | Warning (msg : string).

Record World := mkWorld {
  nodes : list NestedState;
  machines : list Machine;
  dicts : list StateDict;
  effects : list Effect }.

(** Code that reads and updates the store. *)
Definition M (A : Type) : Type := World → result A * World.

#[global] Instance M_ret : MRet M := λ A a w, (Ok a, w).
#[global] Instance M_bind : MBind M := λ A B k m w,
  match m w with
  | (Ok a, w') => k a w'
  | (Raise e, w') => (Raise e, w')
  | (OutOfFuel, w') => (OutOfFuel, w')
  end.

Definition raise {A} (e : exn) : M A := λ w, (Raise e, w).
Definition out_of_fuel {A} : M A := λ w, (OutOfFuel, w).

(** A computation that only reads the store. *)
Definition query {A} (q : World → result A) : M A := λ w, (q w, w).

(** Following a reference.  Every Python reference names an object; the
    error case is there for references made up outside the code. *)
Definition get_node (w : World) (r : ref) : result NestedState :=
  match nodes w !! r with
  | Some s => Ok s
  | None => Raise ValueError
  end.

Definition get_machine (w : World) (m : ref) : result Machine :=
  match machines w !! m with
  | Some x => Ok x
  | None => Raise ValueError
  end.

Definition get_dict (w : World) (d : ref) : result StateDict :=
  match dicts w !! d with
  | Some x => Ok x
  | None => Raise ValueError
  end.

Definition set_nodes (f : list NestedState → list NestedState) : M unit :=
  λ w, (Ok (), mkWorld (f (nodes w)) (machines w) (dicts w) (effects w)).

Definition set_machines (f : list Machine → list Machine) : M unit :=
  λ w, (Ok (), mkWorld (nodes w) (f (machines w)) (dicts w) (effects w)).

Definition set_dicts (f : list StateDict → list StateDict) : M unit :=
  λ w, (Ok (), mkWorld (nodes w) (machines w) (f (dicts w)) (effects w)).

Definition emit (e : Effect) : M unit :=
  λ w, (Ok (), mkWorld (nodes w) (machines w) (dicts w) (effects w ++ [e])).

(** ** NestedState *)

Definition separator : string := ".".

(** [level]: 0 without a parent, else the parent's level + 1. *)
Fixpoint level (fuel : nat) (w : World) (self : ref) : result nat :=
  match fuel with
  | O => OutOfFuel
  | S fuel' =>
      s ← get_node w self;
      match parent s with
      | Some p => l ← level fuel' w p; Ok (l + 1)
      | None => Ok 0
      end
  end.

(** [name]: the qualified name. *)
Fixpoint name (fuel : nat) (w : World) (self : ref) : result string :=
  match fuel with
  | O => OutOfFuel
  | S fuel' =>
      s ← get_node w self;
      match parent s with
      | Some p => n ← name fuel' w p; Ok (n +:+ separator +:+ _name s)
      | None => Ok (_name s)
      end
  end.

(** [self.parent] *)
Definition get_parent (w : World) (self : ref) : result (option ref) :=
  s ← get_node w self; Ok (parent s).

(** [x.parent] where the code goes on to use it as an object: on [None]
    the attribute access that follows raises. *)
Definition parent_object (w : World) (self : ref) : result ref :=
  p ← get_parent w self;
  match p with
  | Some r => Ok r
  | None => Raise AttributeError
  end.

(** The hooks of the base [State]. *)
Definition exit (self : ref) : M unit := emit (Exited self).
Definition enter (self : ref) : M unit := emit (Entered self).

(** The first loop of [exit_nested]:
    [while self.level != tmp_state.level: tmp_state = target_state.parent]. *)
Fixpoint align (fuel : nat) (w : World) (self target_state tmp_state : ref)
    : result ref :=
  match fuel with
  | O => OutOfFuel
  | S fuel' =>
      ls ← level fuel' w self;
      lt ← level fuel' w tmp_state;
      if bool_decide (ls ≠ lt) then
        p ← parent_object w target_state;
        align fuel' w self target_state p
      else Ok tmp_state
  end.

(** The second loop of [exit_nested], up to the [tmp_self] it ends with. *)
Fixpoint climb (fuel : nat) (tmp_self tmp_state : ref) : M ref :=
  match fuel with
  | O => out_of_fuel
  | S fuel' =>
      l ← query (λ w, level fuel' w tmp_self);
      again ← (if (0 <? l)%nat then
                 query (λ w,
                   sp ← parent_object w tmp_state;
                   n1 ← name fuel' w sp;
                   pp ← parent_object w tmp_self;
                   n2 ← name fuel' w pp;
                   Ok (bool_decide (n1 ≠ n2)))
               else mret false);
      if (again : bool) then
        exit tmp_self;;
        p ← query (λ w, parent_object w tmp_self);
        q ← query (λ w, parent_object w tmp_state);
        climb fuel' p q
      else mret tmp_self
  end.

Fixpoint exit_nested (fuel : nat) (self : ref) (target_state : option ref)
    : M nat :=
  match fuel with
  | O => out_of_fuel
  | S fuel' =>
      let otherwise : M nat :=
        exit self;;
        p ← query (λ w, get_parent w self);
        match p with
        | Some p' => exit_nested fuel' p' None
        | None => mret 0
        end in
      match target_state with
      | Some target =>
          lt ← query (λ w, level fuel' w target);
          ls ← (if (0 <? lt)%nat then query (λ w, level fuel' w self)
                else mret 0);
          if (0 <? lt)%nat && (0 <? ls)%nat then
            if (lt <? ls)%nat then
              exit self;;
              p ← query (λ w, parent_object w self);
              exit_nested fuel' p target_state
            else
              tmp_state ← query (λ w, align fuel' w self target target);
              tmp_self ← climb fuel' self tmp_state;
              exit tmp_self;;
              query (λ w, level fuel' w tmp_self)
          else otherwise
      | None => otherwise
      end
  end.

(** The stop level is whatever integer the caller passes. *)
Fixpoint enter_nested (fuel : nat) (self : ref) (level_ : option Z) : M unit :=
  match fuel with
  | O => out_of_fuel
  | S fuel' =>
      match level_ with
      | Some lv =>
          l ← query (λ w, level fuel' w self);
          if bool_decide (lv ≠ Z.of_nat l) then
            p ← query (λ w, parent_object w self);
            enter_nested fuel' p level_
          else mret ()
      | None => mret ()
      end;;
      enter self
  end.

(** ** Dictionaries kept in insertion order *)

Fixpoint dict_get {V} (k : string) (d : list (string * V)) : option V :=
  match d with
  | [] => None
  | (k', v) :: d' => if decide (k = k') then Some v else dict_get k d'
  end.

(** [d[k] = v]: an existing key keeps its place. *)
Fixpoint dict_set {V} (k : string) (v : V) (d : list (string * V))
    : list (string * V) :=
  match d with
  | [] => [(k, v)]
  | (k', v') :: d' =>
      if decide (k = k') then (k, v) :: d' else (k', v') :: dict_set k v d'
  end.

Definition dict_in {V} (k : string) (d : list (string * V)) : bool :=
  bool_decide (is_Some (dict_get k d)).

Definition dict_values {V} (d : list (string * V)) : list V := d.*2.

(** [k in table] *)
Definition table_in (k : string) (t : Table) : bool := dict_in k (items t).

(** [table[k]]: the value and the table afterwards. *)
Definition table_getitem (k : string) (t : Table)
    : result (list Transition * Table) :=
  match dict_get k (items t) with
  | Some ts => Ok (ts, t)
  | None =>
      if default_factory t
      then Ok ([], mkTable (dict_set k [] (items t)) (default_factory t))
      else Raise KeyError
  end.

(** ** NestedTransition and NestedEvent *)

Definition update_machine (m : ref) (f : Machine → Machine) : M unit :=
  set_machines (λ ms, match ms !! m with
                      | Some x => <[m := f x]> ms
                      | None => ms
                      end).

(** Modelled from the spec: [get_state] of the base machine, not in
    [nesting.py]; it resolves a name through the state registry and fails
    on a name that is not registered. *)
Definition get_state (w : World) (m : ref) (state : string) : result ref :=
  x ← get_machine w m;
  match dict_get state (states x) with
  | Some r => Ok r
  | None => Raise ValueError
  end.

(** Modelled from the spec: [set_state] of the base machine, not in
    [nesting.py]; it moves the active pointer to the named state. *)
Definition set_state (m : ref) (state : string) : M unit :=
  r ← query (λ w, get_state w m state);
  update_machine m (λ x, mkMachine (states x) (events x) r
    (machine_ignore_invalid_triggers x) (_buffered_transitions x) (model x)).

Section Engine.

(** The base engine's evaluation of a guard callback on the model. *)
Variable holds : World → string → bool.

(** [event_data.update()] belongs to the base engine and touches nothing
    modelled here. *)
Definition _change_state (fuel : nat) (machine : ref) (self : Transition)
    : M unit :=
  dest_state ← query (λ w, get_state w machine (dest self));
  x ← query (λ w, get_machine w machine);
  let source_state := current_state x in
  lvl ← exit_nested fuel source_state (Some dest_state);
  set_state machine (dest self);;
  enter_nested fuel dest_state (Some (Z.of_nat lvl)).

(** Modelled from the spec: [execute] of the base transition, not in
    [nesting.py]; it evaluates the guards and, when they pass, performs the
    state change and reports that it fired. *)
Definition execute (fuel : nat) (machine : ref) (self : Transition) : M bool :=
  ok ← query (λ w, Ok (forallb (holds w) (conditions self)
                        && forallb (λ c, negb (holds w c)) (unless self)));
  if (ok : bool) then _change_state fuel machine self;; mret true
  else mret false.

(** The [while] loop of [trigger]. *)
Fixpoint bubble (fuel : nat) (w : World) (tmp : ref) (t : Table) : result ref :=
  match fuel with
  | O => OutOfFuel
  | S fuel' =>
      p ← get_parent w tmp;
      match p with
      | Some p' =>
          n ← name fuel' w tmp;
          if negb (table_in n t) then bubble fuel' w p' t else Ok tmp
      | None => Ok tmp
      end
  end.

(** The [for] loop of [trigger]. *)
Fixpoint try_transitions (fuel : nat) (machine : ref) (ts : list Transition)
    : M bool :=
  match ts with
  | [] => mret false
  | t :: ts' =>
      fired ← execute fuel machine t;
      if (fired : bool) then mret true else try_transitions fuel machine ts'
  end.

Definition set_event (machine : ref) (trigger_name : string) (e : NestedEvent)
    : M unit :=
  update_machine machine (λ x, mkMachine (states x)
    (dict_set trigger_name e (events x)) (current_state x)
    (machine_ignore_invalid_triggers x) (_buffered_transitions x) (model x)).

(** [NestedEvent.trigger] of the event registered under [trigger_name]. *)
Definition trigger (fuel : nat) (machine : ref) (trigger_name : string)
    : M bool :=
  x ← query (λ w, get_machine w machine);
  match dict_get trigger_name (events x) with
  | None => raise KeyError
  | Some self =>
      tmp ← query (λ w, bubble fuel w (current_state x) (transitions self));
      tmp_name ← query (λ w, name fuel w tmp);
      (if negb (table_in tmp_name (transitions self)) then
         cur_name ← query (λ w, name fuel w (current_state x));
         cur ← query (λ w, get_node w (current_state x));
         let msg := "Can't trigger event " +:+ event_name self
                    +:+ " from state " +:+ cur_name +:+ "!" in
         match ignore_invalid_triggers cur with
         | Some true => emit (Warning msg)
         | _ => raise (MachineError msg)
         end
       else mret ());;
      '(ts, table') ← query (λ w, table_getitem tmp_name (transitions self));
      set_event machine trigger_name (mkNestedEvent (event_name self) table');;
      try_transitions fuel machine ts
  end.

End Engine.

(** ** HierarchicalMachine.traverse *)

(** Modelled from the spec: [listify] of the base engine, not in
    [nesting.py]; a list is taken as it is, another value becomes a list of
    one element. *)
Definition listify (a : states_arg) : list spec :=
  match a with
  | One s => [s]
  | Many l => l
  end.

(** [copy.deepcopy]: every object reachable from the argument is copied,
    with the references between the copies following those between the
    originals.  The copy is made of the whole store, at the positions after
    the existing ones; copies that no copied object refers to are referred
    to by nothing at all.  Strings and callbacks are not copied. *)
Definition copy_spec (kn km kd : nat) (s : spec) : spec :=
  match s with
  | SStr x => SStr x
  | SDict d => SDict (d + kd)
  | SMachine m => SMachine (m + km)
  | SNode n => SNode (n + kn)
  | SOther => SOther
  end.

Definition copy_arg (kn km kd : nat) (a : states_arg) : states_arg :=
  match a with
  | One s => One (copy_spec kn km kd s)
  | Many l => Many (copy_spec kn km kd <$> l)
  end.

Definition copy_node (kn : nat) (s : NestedState) : NestedState :=
  mkNestedState (_name s) ((λ p, p + kn) <$> parent s) (on_enter s)
    (on_exit s) (ignore_invalid_triggers s)
    (fmap (M := list) (λ c, c + kn) <$> children s).

Definition copy_machine (kn : nat) (x : Machine) : Machine :=
  mkMachine (prod_map id (λ r, r + kn) <$> states x) (events x)
    (current_state x + kn) (machine_ignore_invalid_triggers x)
    (_buffered_transitions x) (model x).

Definition copy_dict (kn km kd : nat) (d : StateDict) : StateDict :=
  mkStateDict (d_name d) (d_on_enter d) (d_on_exit d)
    (d_ignore_invalid_triggers d) (copy_arg kn km kd <$> d_children d)
    (d_remap d) (fmap (M := option) (λ p, p + kn) <$> d_parent d).

Definition deepcopy (d : ref) : M ref := λ w,
  let kn := length (nodes w) in
  let km := length (machines w) in
  let kd := length (dicts w) in
  (Ok (d + kd),
   mkWorld (nodes w ++ (copy_node kn <$> nodes w))
           (machines w ++ (copy_machine kn <$> machines w))
           (dicts w ++ (copy_dict kn km kd <$> dicts w))
           (effects w)).

(** [NestedState(...)]: a new object. *)
Definition new_NestedState (s : NestedState) : M ref := λ w,
  (Ok (length (nodes w)),
   mkWorld (nodes w ++ [s]) (machines w) (dicts w) (effects w)).

Definition update_node (r : ref) (f : NestedState → NestedState) : M unit :=
  set_nodes (λ ns, match ns !! r with
                   | Some s => <[r := f s]> ns
                   | None => ns
                   end).

(** [s.parent = parent] *)
Definition set_parent (parent' : option ref) (s : ref) : M unit :=
  update_node s (λ x, mkNestedState (_name x) parent' (on_enter x) (on_exit x)
                        (ignore_invalid_triggers x) (children x)).

(** [p.children = l] *)
Definition set_children (l : list ref) (p : ref) : M unit :=
  update_node p (λ x, mkNestedState (_name x) (parent x) (on_enter x)
                        (on_exit x) (ignore_invalid_triggers x) (Some l)).

(** [s.name = value]: the setter of [name] assigns the node's own segment. *)
Definition set_name (value : string) (s : ref) : M unit :=
  update_node s (λ x, mkNestedState value (parent x) (on_enter x) (on_exit x)
                        (ignore_invalid_triggers x) (children x)).

(** [for x in l: f(x)] *)
Fixpoint for_each {A} (l : list A) (f : A → M unit) : M unit :=
  match l with
  | [] => mret ()
  | x :: l' => f x;; for_each l' f
  end.

(** [[s for s in l if s.level == 0 and s.name not in remap]] *)
Fixpoint root_states (fuel : nat) (w : World) (remap : gmap string string)
    (l : list ref) : result (list ref) :=
  match l with
  | [] => Ok []
  | s :: l' =>
      lv ← level fuel w s;
      keep ← (if (lv =? 0)%nat then
                n ← name fuel w s;
                Ok (negb (bool_decide (is_Some (remap !! n))))
              else Ok false);
      rest ← root_states fuel w remap l';
      Ok (if (keep : bool) then s :: rest else rest)
  end.

(** [parent.name]; [parent] may be [None]. *)
Definition parent_name (fuel : nat) (w : World) (parent' : option ref)
    : result string :=
  match parent' with
  | Some p => name fuel w p
  | None => Raise AttributeError
  end.

(** The trigger name of an embedded event. *)
Definition embedded_trigger (fuel : nat) (w : World) (parent' : option ref)
    (trigger_name : string) : result string :=
  if startswith "to_" trigger_name then
    let path := split "." (str_drop 3 trigger_name) in
    pn ← parent_name fuel w parent';
    let ppath := split "." pn in
    Ok (join "." (("to_" +:+ hd "" ppath) :: tl ppath ++ path))
  else Ok trigger_name.

(** The record buffered for one transition of an embedded event. *)
Definition embedded_transition (fuel : nat) (w : World) (parent' : option ref)
    (remap : gmap string string) (trigger_name : string) (t : Transition)
    : result Buffered :=
  let src := source t in
  dst ← match remap !! dest t with
        | None => pn ← parent_name fuel w parent';
                  Ok (pn +:+ separator +:+ dest t)
        | Some external => Ok external
        end;
  pn ← parent_name fuel w parent';
  Ok (mkBuffered trigger_name (pn +:+ separator +:+ src) dst
        (conditions t) (before t) (after t)).

Definition buffer (self : ref) (b : Buffered) : M unit :=
  update_machine self (λ x, mkMachine (states x) (events x) (current_state x)
    (machine_ignore_invalid_triggers x) (_buffered_transitions x ++ [b])
    (model x)).

(** The loop over the events of an embedded machine. *)
Definition embed_events (fuel : nat) (self : ref) (parent' : option ref)
    (remap : gmap string string) (evs : list (string * NestedEvent)) : M unit :=
  for_each evs (λ '(trigger_name, event),
    trigger' ← query (λ w, embedded_trigger fuel w parent' trigger_name);
    for_each (dict_values (items (transitions event))) (λ ts,
      for_each ts (λ t,
        b ← query (λ w, embedded_transition fuel w parent' remap trigger' t);
        buffer self b))).

Section Traverse.

(** The call [self.traverse(...)] inside the loop. *)
Variable rec : states_arg → callbacks → callbacks → option bool → option ref →
  gmap string string → M (list ref).

Variables (fuel : nat) (self : ref) (on_enter' on_exit' : callbacks).
Variables (ignore : option bool) (parent' : option ref).
Variable remap : gmap string string.

(** The body of the loop [for state in states]: from [new_states] to the
    [new_states] and [tmp_states] the turn ends with.  The machine branch
    assigns [new_states] anew. *)
Definition traverse_state (state : spec) (new_states : list ref)
    : M (list ref * list ref) :=
  match state with
  | SStr s =>
      if bool_decide (is_Some (remap !! s)) then mret (new_states, [])
      else
        r ← new_NestedState
               (mkNestedState s parent' on_enter' on_exit' ignore None);
        mret (new_states, [r])
  | SDict d =>
      state' ← deepcopy d;
      sd ← query (λ w, get_dict w state');
      let sd := mkStateDict (d_name sd) (d_on_enter sd) (d_on_exit sd)
                  (Some (default ignore (d_ignore_invalid_triggers sd)))
                  (d_children sd) (d_remap sd) (Some parent') in
      set_dicts (λ ds, <[state' := sd]> ds);;
      match d_children sd with
      | Some kids =>
          match d_name sd with
          | None => raise KeyError
          | Some nm =>
              p ← new_NestedState
                     (mkNestedState nm parent' on_enter' on_exit' ignore None);
              kids' ← rec kids on_enter' on_exit' ignore (Some p)
                          (default ∅ (d_remap sd));
              set_children kids' p;;
              mret (new_states, p :: kids')
          end
      | None =>
          match d_name sd, d_remap sd with
          | Some nm, None =>
              r ← new_NestedState
                     (mkNestedState nm parent' (default [] (d_on_enter sd))
                        (default [] (d_on_exit sd))
                        (default ignore (d_ignore_invalid_triggers sd)) None);
              mret (new_states, [r])
          | _, _ => raise TypeError
          end
      end
  | SMachine m =>
      x ← query (λ w, get_machine w m);
      new_states' ← query (λ w,
        root_states fuel w remap (dict_values (states x)));
      for_each new_states' (set_parent parent');;
      embed_events fuel self parent' remap (events x);;
      mret (new_states', new_states')
  | SNode n => mret (new_states, [n])
  | SOther => mret (new_states, [])
  end.

(** The loop, with [new_states.extend(tmp_states)] at the end of a turn. *)
Fixpoint traverse_states (l : list spec) (new_states : list ref)
    : M (list ref) :=
  match l with
  | [] => mret new_states
  | state :: l' =>
      '(new_states', tmp_states) ← traverse_state state new_states;
      traverse_states l' (new_states' ++ tmp_states)
  end.

End Traverse.

Fixpoint traverse (fuel : nat) (self : ref) (states' : states_arg)
    (on_enter' on_exit' : callbacks) (ignore_invalid_triggers' : option bool)
    (parent' : option ref) (remap : gmap string string) : M (list ref) :=
  match fuel with
  | O => out_of_fuel
  | S fuel' =>
      x ← query (λ w, get_machine w self);
      let ignore :=
        match ignore_invalid_triggers' with
        | None => Some (machine_ignore_invalid_triggers x)
        | Some b => Some b
        end in
      traverse_states (traverse fuel' self) fuel' self on_enter' on_exit'
        ignore parent' remap (listify states') []
  end.

(** ** HierarchicalMachine.add_states and add_transition *)

(** The [source] argument: a string or a list of names. *)
Inductive source_arg :=
  | SourceStr (s : string)
  | SourceList (l : list string).

(** [[x.name for x in l]] *)
Fixpoint names (fuel : nat) (w : World) (l : list ref) : result (list string) :=
  match l with
  | [] => Ok []
  | x :: l' =>
      n ← name fuel w x;
      ns ← names fuel w l';
      Ok (n :: ns)
  end.

(** Modelled from the spec: the constructor of the base event, not in
    [nesting.py]; the event starts without transitions, and its mapping
    gives an unregistered source name the empty list. *)
Definition new_NestedEvent (trigger_name : string) : NestedEvent :=
  mkNestedEvent trigger_name (mkTable [] true).

(** [table[k].append(t)] *)
Definition table_append (k : string) (t : Transition) (tb : Table)
    : result Table :=
  '(ts, tb') ← table_getitem k tb;
  Ok (mkTable (dict_set k (ts ++ [t]) (items tb')) (default_factory tb')).

(** Modelled from the spec: [add_transition] of the base machine, not in
    [nesting.py]; for every source name it stores one transition to [dest]
    in the event of the trigger. *)
Definition base_add_transition (self : ref) (trigger_name : string)
    (sources : list string) (dest' : string)
    (conditions' unless' before' after' : callbacks) : M unit :=
  for_each sources (λ s,
    x ← query (λ w, get_machine w self);
    match dict_get trigger_name (events x) with
    | None => raise KeyError
    | Some e =>
        tb ← query (λ _, table_append s
                 (mkTransition s dest' conditions' unless' before' after')
                 (transitions e));
        set_event self trigger_name (mkNestedEvent (event_name e) tb)
    end).

(** Modelled from the spec: [add_states] of the base machine, not in
    [nesting.py]; it enters every node into the state registry under its
    qualified name. *)
Definition base_add_states (fuel : nat) (self : ref) (new_states : list ref)
    : M unit :=
  for_each new_states (λ s,
    n ← query (λ w, name fuel w s);
    update_machine self (λ x, mkMachine (dict_set n s (states x)) (events x)
      (current_state x) (machine_ignore_invalid_triggers x)
      (_buffered_transitions x) (model x))).

Definition set_model (self : ref) (attr : string) (v : ModelAttr) : M unit :=
  update_machine self (λ x, mkMachine (states x) (events x) (current_state x)
    (machine_ignore_invalid_triggers x) (_buffered_transitions x)
    (<[attr := v]> (model x))).

Section Orchestrator.

(** Names that resolve on the class of a wrapper, and on the class of the
    model. *)
Variable class_attr : string → bool.
Variable model_class_attr : string → bool.

(** [str.isdigit] on the first character of a segment of a trigger. *)
Variable isdigit : string → bool.

Definition add_transition (fuel : nat) (self : ref) (trigger_name : string)
    (source' : source_arg) (dest' : string)
    (conditions' unless' before' after' : callbacks) : M unit :=
  x ← query (λ w, get_machine w self);
  sources ← match source' with
            | SourceStr s =>
                if bool_decide (s = "*")
                then query (λ w, names fuel w (dict_values (states x)))
                else mret [s]
            | SourceList l => mret l
            end;
  (if negb (dict_in trigger_name (events x)) then
     set_event self trigger_name (new_NestedEvent trigger_name);;
     if startswith "to_" trigger_name then
       let path := split "." (str_drop 3 trigger_name) in
       let attr := "to_" +:+ hd "" path in
       x ← query (λ w, get_machine w self);
       if bool_decide (is_Some (model x !! attr)) || model_class_attr attr then
         match model x !! attr with
         | Some (MWrapper t) =>
             t' ← query (λ _,
                    FunctionWrapper.add class_attr isdigit trigger_name (tl path) t);
             set_model self attr (MWrapper t')
         | _ => raise AttributeError
         end
       else
         t ← query (λ _,
                FunctionWrapper.init class_attr isdigit trigger_name (tl path));
         set_model self attr (MWrapper t)
     else set_model self trigger_name (MTrigger trigger_name)
   else mret ());;
  base_add_transition self trigger_name sources dest'
    conditions' unless' before' after'.

(** The loop [while len(self._buffered_transitions) > 0] of [add_states]. *)
Fixpoint flush (fuel : nat) (self : ref) : M unit :=
  match fuel with
  | O => out_of_fuel
  | S fuel' =>
      x ← query (λ w, get_machine w self);
      match reverse (_buffered_transitions x) with
      | [] => mret ()
      | args :: rest =>
          update_machine self (λ x, mkMachine (states x) (events x)
            (current_state x) (machine_ignore_invalid_triggers x)
            (reverse rest) (model x));;
          add_transition fuel' self (b_trigger args) (SourceStr (b_source args))
            (b_dest args) (b_conditions args) [] (b_before args) (b_after args);;
          flush fuel' self
      end
  end.

Definition add_states (fuel : nat) (self : ref) (states' : states_arg)
    (on_enter' on_exit' : callbacks) (ignore_invalid_triggers' : option bool)
    : M unit :=
  new_states ← traverse fuel self states' on_enter' on_exit'
                 ignore_invalid_triggers' None ∅;
  base_add_states fuel self new_states;;
  flush fuel self.

End Orchestrator.

(** ** Definitions of the statements *)

(** *** Parent chains and the effects of a run *)

(** [chain w r l]: [l] lists [r], its parent, and so on up to a node without
    parent; the parent chain of [r] is finite and acyclic. *)
Inductive chain (w : World) : ref → list ref → Prop :=
  | chain_root r s :
      nodes w !! r = Some s → parent s = None → chain w r [r]
  | chain_step r s p l :
      nodes w !! r = Some s → parent s = Some p → chain w p l →
      chain w r (r :: l).

(** The world after some more hooks and log records. *)
Definition add_effects (w : World) (es : list Effect) : World :=
  mkWorld (nodes w) (machines w) (dicts w) (effects w ++ es).

(** Code that changes nothing in the store but the record of the hooks and
    of the log. *)
Definition only_effects {A} (m : M A) : Prop :=
  ∀ w r w', m w = (r, w') → ∃ es, w' = add_effects w es.

(** The qualified name along a chain. *)
Fixpoint chain_name (w : World) (l : list ref) : string :=
  match l with
  | [] => ""
  | r :: l' =>
      let n := from_option _name "" (nodes w !! r) in
      match l' with
      | [] => n
      | _ :: _ => chain_name w l' +:+ separator +:+ n
      end
  end.

(** The nodes' own segments along a list of references. *)
Definition segments (w : World) (l : list ref) : list string :=
  (λ r, from_option _name "" (nodes w !! r)) <$> l.

(** The parent links of the nodes of [l] lead from each one to the next
    and from the last one back to the first. *)
Definition cycle (w : World) (l : list ref) : Prop :=
  ∀ i r, l !! i = Some r →
    ∃ s p, nodes w !! r = Some s ∧ parent s = Some p ∧
           l !! ((i + 1) `mod` length l) = Some p.

(** The machine [m] with its active pointer on [t]. *)
Definition with_current (w : World) (m : ref) (t : ref) : World :=
  mkWorld (nodes w)
    (match machines w !! m with
     | Some x => <[m := mkMachine (states x) (events x) t
                          (machine_ignore_invalid_triggers x)
                          (_buffered_transitions x) (model x)]> (machines w)
     | None => machines w
     end)
    (dicts w) (effects w).

(** The world in which the event [e] is stored under [trigger_name] in the
    machine [m]. *)
Definition with_event (w : World) (m : ref) (trigger_name : string)
    (e : NestedEvent) : World :=
  mkWorld (nodes w)
    (match machines w !! m with
     | Some x => <[m := mkMachine (states x)
                          (dict_set trigger_name e (events x))
                          (current_state x) (machine_ignore_invalid_triggers x)
                          (_buffered_transitions x) (model x)]> (machines w)
     | None => machines w
     end)
    (dicts w) (effects w).

(** The world in which the buffer of the machine [self] has grown by [bs]. *)
Definition with_buffered (w : World) (self : ref) (bs : list Buffered) : World :=
  mkWorld (nodes w)
    (match machines w !! self with
     | Some x => <[self := mkMachine (states x) (events x) (current_state x)
                             (machine_ignore_invalid_triggers x)
                             (_buffered_transitions x ++ bs) (model x)]>
                   (machines w)
     | None => machines w
     end)
    (dicts w) (effects w).

(** The message of an invalid trigger. *)
Definition invalid_trigger_msg (e : NestedEvent) (state_name : string) : string :=
  "Can't trigger event " +:+ event_name e +:+ " from state " +:+ state_name +:+ "!".

(** The guards of a transition pass in [w]: what [execute] evaluates before
    the state change. *)
Definition enabled (holds : World → string → bool) (w : World) (t : Transition)
    : bool :=
  forallb (holds w) (conditions t) && forallb (λ c, negb (holds w c)) (unless t).

(** The world in which the machine [self] is [x']. *)
Definition with_machine (w : World) (self : ref) (x' : Machine) : World :=
  mkWorld (nodes w) (<[self := x']> (machines w)) (dicts w) (effects w).

(** The transition that [add_states] registers for a buffered record. *)
Definition record_transition (b : Buffered) : Transition :=
  mkTransition (b_source b) (b_dest b) (b_conditions b) [] (b_before b)
    (b_after b).

(** The names that [add_transition] registers the transition for. *)
Definition sources_of (fuel : nat) (w : World) (x : Machine)
    (source' : source_arg) : result (list string) :=
  match source' with
  | SourceStr s =>
      if bool_decide (s = "*") then names fuel w (dict_values (states x))
      else Ok [s]
  | SourceList l => Ok l
  end.

(** A state that [traverse] takes from a machine instance: it has no parent
    and its name is no key of [remap]. *)
Definition embeddable (w : World) (remap : gmap string string) (r : ref) : bool :=
  match nodes w !! r with
  | Some s => bool_decide (parent s = None)
              && bool_decide (remap !! _name s = None)
  | None => false
  end.

(** An event of a machine instance that makes [traverse] use the name of
    the parent: its trigger starts with [to_], or it has a transition. *)
Definition uses_parent_name (ev : string * NestedEvent) : bool :=
  startswith "to_" ev.1
  || negb (forallb (λ ts : list Transition, bool_decide (ts = []))
             (dict_values (items (transitions ev.2)))).

(** A node with its parent link set to [q]. *)
Definition reparented (q : option ref) (s : NestedState) : NestedState :=
  mkNestedState (_name s) q (on_enter s) (on_exit s)
    (ignore_invalid_triggers s) (children s).

(** The transitions a table lists for a source name. *)
Definition table_list (k : string) (t : Table) : list Transition :=
  default [] (dict_get k (items t)).

(** The transitions registered in the machine [self] for a trigger and a
    source name. *)
Definition registered (w : World) (self : ref) (trigger_name k : string)
    : list Transition :=
  match machines w !! self with
  | Some x =>
      match dict_get trigger_name (events x) with
      | Some e => table_list k (transitions e)
      | None => []
      end
  | None => []
  end.

(** *** Embedded transitions *)

(** The record that the specification's words give for a transition of an
    embedded machine: source and destination alike are replaced by their
    entry in [remap] when there is one, and prefixed with the parent's name
    otherwise. *)
Definition spec_embedded_transition (parent_name' : string)
    (remap : gmap string string) (trigger_name : string) (t : Transition)
    : Buffered :=
  let rename n := default (parent_name' +:+ separator +:+ n) (remap !! n) in
  mkBuffered trigger_name (rename (source t)) (rename (dest t))
    (conditions t) (before t) (after t).

(** The record the code builds: the destination is replaced by its entry in
    [remap] when there is one; the source is prefixed in every case. *)
Definition code_embedded_transition (parent_name' : string)
    (remap : gmap string string) (trigger_name : string) (t : Transition)
    : Buffered :=
  mkBuffered trigger_name (parent_name' +:+ separator +:+ source t)
    (default (parent_name' +:+ separator +:+ dest t) (remap !! dest t))
    (conditions t) (before t) (after t).

(** The trigger name of an embedded event, given the parent's name. *)
Definition code_embedded_trigger (parent_name' : string) (trigger_name : string)
    : string :=
  if startswith "to_" trigger_name then
    let ppath := split "." parent_name' in
    join "." (("to_" +:+ hd "" ppath) :: tl ppath
              ++ split "." (str_drop 3 trigger_name))
  else trigger_name.

(** The records of all transitions of the events [evs], in the order of the
    loops. *)
Definition code_embedded_records (parent_name' : string)
    (remap : gmap string string) (evs : list (string * NestedEvent))
    : list Buffered :=
  '(trigger_name, event) ← evs;
  ts ← dict_values (items (transitions event));
  code_embedded_transition parent_name' remap
    (code_embedded_trigger parent_name' trigger_name) <$> ts.

(** *** What [traverse] writes to *)

(** A specification names no machine instance below [km]. *)
Definition spec_above (km : nat) (s : spec) : Prop :=
  match s with
  | SMachine m => km ≤ m
  | _ => True
  end.

Definition arg_above (km : nat) (a : states_arg) : Prop :=
  Forall (spec_above km) (listify a).

Section FrameDefinitions.

(** The sizes of the store when the call starts, and the machine that
    runs [traverse]. *)
Variables (kn km kd : nat) (self : ref).

(** The objects that existed when the call started are as they were, but
    for the buffer of the machine itself. *)
Definition frame (w w' : World) : Prop :=
  (∀ i, i < kn → nodes w' !! i = nodes w !! i) ∧
  (∀ i, i < kd → dicts w' !! i = dicts w !! i) ∧
  (∀ i, i < km → i ≠ self → machines w' !! i = machines w !! i) ∧
  (∀ x, machines w !! self = Some x →
     ∃ x', machines w' !! self = Some x' ∧ states x' = states x ∧
           events x' = events x ∧ current_state x' = current_state x ∧
           machine_ignore_invalid_triggers x' = machine_ignore_invalid_triggers x ∧
           model x' = model x).

(** The objects made since the call started refer to objects made since
    the call started: the states of a machine, the machines among the
    children of a dictionary. *)
Definition copies_closed (w : World) : Prop :=
  kn ≤ length (nodes w) ∧ km ≤ length (machines w) ∧ kd ≤ length (dicts w) ∧
  (∀ i x, km ≤ i → machines w !! i = Some x →
     Forall (λ r, kn ≤ r) (dict_values (states x))) ∧
  (∀ i d a, kd ≤ i → dicts w !! i = Some d → d_children d = Some a →
     arg_above km a).

(** Running [m] from [w] keeps the frame. *)
Definition keeps {A} (m : M A) (w : World) : Prop :=
  ∀ r w', m w = (r, w') → frame w w' ∧ copies_closed w'.

End FrameDefinitions.

(** Code that leaves the nodes alone. *)
Definition same_nodes {A} (m : M A) : Prop :=
  ∀ w r w', m w = (r, w') → nodes w' = nodes w.

(** The frame of a call that starts in [w], for the sizes of [w]. *)
Definition untouched (self : ref) (w w' : World) : Prop :=
  frame (length (nodes w)) (length (machines w)) (length (dicts w)) self w w'.

(** ** The scenarios of the specification and the inputs of the claims *)

Definition state (n : string) (p : option ref) : NestedState :=
  mkNestedState n p [] [] None None.

Definition lenient_state (n : string) (p : option ref) : NestedState :=
  mkNestedState n p [] [] (Some true) None.

Definition go_to (s d : string) : Transition := mkTransition s d [] [] [] [].

Definition event_on (n s d : string) : NestedEvent :=
  mkNestedEvent n (mkTable [(s, [go_to s d])] true).

(** Tree [A{B{D,E}, C}] with [go]: D → C, the active state being [A.B.D]. *)
Definition scenario_machine : Machine :=
  mkMachine [("A", 0); ("A.B", 1); ("A.B.D", 2); ("A.B.E", 3); ("A.C", 4)]
    [("go", event_on "go" "A.B.D" "A.C")] 2 false [] ∅.

Definition scenario_world : World :=
  mkWorld [state "A" None; state "B" (Some 0); state "D" (Some 1);
           state "E" (Some 1); state "C" (Some 0)]
    [scenario_machine] [] [].

(** Tree [A{B, C{D{E}}}] with [dive]: B → E, the active state being [A.B]. *)
Definition deep_machine : Machine :=
  mkMachine [("A", 0); ("A.B", 1); ("A.C", 2); ("A.C.D", 3); ("A.C.D.E", 4)]
    [("dive", event_on "dive" "A.B" "A.C.D.E")] 1 false [] ∅.

Definition deep_world : World :=
  mkWorld [state "A" None; state "B" (Some 0); state "C" (Some 0);
           state "D" (Some 2); state "E" (Some 3)]
    [deep_machine] [] [].

(** Tree [A{B{D}}] whose leaf ignores invalid triggers; [go] is registered
    on [A] and on [A.B], [stop] on nothing. *)
Definition lenient_machine : Machine :=
  mkMachine [("A", 0); ("A.B", 1); ("A.B.D", 2)]
    [("go", mkNestedEvent "go"
              (mkTable [("A", [go_to "A" "A.B.D"]); ("A.B", [go_to "A.B" "A"])]
                       true));
     ("stop", mkNestedEvent "stop" (mkTable [] true))]
    2 false [] ∅.

Definition lenient_world : World :=
  mkWorld [state "A" None; state "B" (Some 0); lenient_state "D" (Some 1)]
    [lenient_machine] [] [].

(** A machine [X] with the states [P], [Q] and [R] and the triggers
    [go]: P → Q, [stop]: Q → R and [back]: R → P, to be embedded under [N];
    the dictionary [{name: N, children: X, remap: {R: Z}}] and the
    dictionary [{name: N, children: [A, X]}]. *)
Definition donor_machine : Machine :=
  mkMachine [("P", 0); ("Q", 1); ("R", 2)]
    [("go", event_on "go" "P" "Q"); ("stop", event_on "stop" "Q" "R");
     ("back", event_on "back" "R" "P")] 0 false [] ∅.

Definition host_machine : Machine := mkMachine [] [] 0 false [] ∅.

Definition remap_R : gmap string string := {["R" := "Z"]}.

Definition embedding_world : World :=
  mkWorld [state "P" None; state "Q" None; state "R" None; state "N" None]
    [host_machine; donor_machine]
    [mkStateDict (Some "N") None None None (Some (One (SMachine 1)))
       (Some remap_R) None;
     mkStateDict (Some "N") None None None
       (Some (Many [SStr "A"; SMachine 1])) None None]
    [].

(** The records the specification's words give for the events [evs]. *)
Definition spec_embedded_records (parent_name' : string)
    (remap : gmap string string) (evs : list (string * NestedEvent))
    : list Buffered :=
  '(trigger_name, event) ← evs;
  ts ← dict_values (items (transitions event));
  spec_embedded_transition parent_name' remap
    (code_embedded_trigger parent_name' trigger_name) <$> ts.

(** [lenient_world] after [stop] has been fired once. *)
Definition lenient_world_after : World :=
  add_effects
    (with_event lenient_world 0 "stop"
       (mkNestedEvent "stop" (mkTable [("A", [])] true)))
    [Warning "Can't trigger event stop from state A.B.D!"].

(** Embedding [X] under the node [N], the machine instance being the
    [states] argument itself. *)
Definition direct_embedding : result (list ref) * World :=
  traverse 5 0 (One (SMachine 1)) [] [] None (Some 3) remap_R embedding_world.

(** Embedding [X] by the dictionary [{name: N, children: X, remap: {R: Z}}]. *)
Definition dict_embedding : result (list ref) * World :=
  traverse 5 0 (One (SDict 0)) [] [] None None ∅ embedding_world.

(** The list [[A, X]] under the node [N]. *)
Definition mixed_embedding : result (list ref) * World :=
  traverse 5 0 (Many [SStr "A"; SMachine 1]) [] [] None (Some 3) ∅
    embedding_world.

(** The same list under the node [N], with [remap = {R: Z}]. *)
Definition remapped_list_embedding : result (list ref) * World :=
  traverse 5 0 (Many [SStr "A"; SMachine 1]) [] [] None (Some 3) remap_R
    embedding_world.

(** A machine without states, a node [N], and three dictionaries:
    [{name: L, on_enter: [ring]}], [{name: F, children: [a, b],
    remap: {b: Z}}] and [{children: [a]}]. *)
Definition leaf_dict : StateDict :=
  mkStateDict (Some "L") (Some ["ring"]) None None None None None.

Definition family_dict : StateDict :=
  mkStateDict (Some "F") None None None (Some (Many [SStr "a"; SStr "b"]))
    (Some {["b" := "Z"]}) None.

Definition nameless_dict : StateDict :=
  mkStateDict None None None None (Some (Many [SStr "a"])) None None.

Definition spec_world : World :=
  mkWorld [state "N" None] [host_machine]
    [leaf_dict; family_dict; nameless_dict] [].

(** Two nodes, each the parent of the other. *)
Definition looping_world : World :=
  mkWorld [state "A" (Some 1); state "B" (Some 0)] [] [] [].

(** Every guard passes. *)
Definition no_guard (w : World) (c : string) : bool := true.

(** No name resolves on a class. *)
Definition no_class_attr (n : string) : bool := false.

(** [add_transition('to_A.B', 'A', 'A.B')] and
    [add_transition('leave', ['A', '*'], 'A.C')] on the machine of the
    scenario. *)
Definition path_run : result unit * World :=
  add_transition no_class_attr no_class_attr FunctionWrapper.sample_isdigit 10 0 "to_A.B" (SourceStr "A")
    "A.B" [] [] [] [] scenario_world.

Definition list_run : result unit * World :=
  add_transition no_class_attr no_class_attr FunctionWrapper.sample_isdigit 10 0 "leave"
    (SourceList ["A"; "*"]) "A.C" [] [] [] [] scenario_world.

(** [add_states({name: N, children: X, remap: {R: Z}})] on the host. *)
Definition embedding_run : result unit * World :=
  add_states no_class_attr no_class_attr FunctionWrapper.sample_isdigit 10 0 (One (SDict 0)) [] [] None
    embedding_world.

(** A machine whose buffer holds two records for one trigger and one
    source name. *)
Definition first_record : Buffered := mkBuffered "go" "N.P" "N.Q" [] [] [].
Definition second_record : Buffered := mkBuffered "go" "N.P" "N.R" [] [] [].

Definition buffered_machine : Machine :=
  mkMachine [] [] 0 false [first_record; second_record] ∅.

Definition buffered_world : World := mkWorld [] [buffered_machine] [] [].

Definition flush_run : result unit * World :=
  flush no_class_attr no_class_attr FunctionWrapper.sample_isdigit 10 0 buffered_world.

(** [add_transition('reset', '*', 'A')] on the machine of the scenario. *)
Definition wildcard_run : result unit * World :=
  add_transition no_class_attr no_class_attr FunctionWrapper.sample_isdigit 10 0 "reset" (SourceStr "*") "A"
    [] [] [] [] scenario_world.


Module FunctionWrapperFacts.
Import FunctionWrapper.

Section Facts.

Variable class_attr : string → bool.
Variable isdigit : string → bool.
Variable func : callable.

(** The character ["_"] is no digit. *)
Hypothesis isdigit_underscore : ∀ s, isdigit ("_" +:+ s) = false.

Lemma mangle_no_digit n0 n : mangle isdigit n0 = Ok n → isdigit n = false.
Proof.
  unfold mangle. destruct n0 as [|c s]; simpl; [done|].
  destruct (isdigit (String c s)) eqn:Hc; intros [= <-]; [|exact Hc].
  apply isdigit_underscore.
Qed.

Lemma mangled_length path : ∀ stored,
  mangled isdigit path = Ok stored → length stored = length path.
Proof.
  induction path as [|n0 rest IH]; intros stored; simpl; [by intros [= <-]|].
  destruct (mangle isdigit n0) as [n| |]; simpl; [|done..].
  destruct (mangled isdigit rest) as [l| |]; simpl; [|done..].
  intros [= <-]. simpl. by rewrite (IH l).
Qed.

Lemma attrs_setattr w k v : attrs (setattr w k v) = <[k := v]> (attrs w).
Proof. done. Qed.

Lemma add_cons_inv n0 rest self self' :
  add class_attr isdigit func (n0 :: rest) self = Ok self' →
  ∃ n, mangle isdigit n0 = Ok n ∧
    ((∃ w w', attrs self !! n = Some (VObj w) ∧
              add class_attr isdigit func rest w = Ok w' ∧
              self' = setattr self n (VObj w')) ∨
     (∃ x, attrs self !! n = None ∧ init class_attr isdigit func rest = Ok x ∧
           self' = setattr self n (VObj x))).
Proof.
  simpl. destruct (mangle isdigit n0) as [n| |] eqn:Hn; simpl; [|done..].
  intros H. exists n. split; [done|].
  unfold hasattr in H.
  destruct (attrs self !! n) as [[| |w]|] eqn:Hl; simpl in H.
  - done.
  - done.
  - 
    destruct (add class_attr isdigit func rest w) as [w'| |] eqn:Hw; simpl in H; [|done..].
    injection H as <-. left. eauto.
  - destruct (class_attr n); [done|].
    right. unfold init.
    destruct rest as [|r rest'].
    + simpl in H. injection H as <-. eauto.
    + destruct (add class_attr isdigit func (r :: rest') fresh) as [x0| |] eqn:Hx;
        simpl in H; [|done..].
      injection H as <-. eexists. split; [done|]. split; [|done].
      reflexivity.
Qed.

Lemma init_inv rest x :
  init class_attr isdigit func rest = Ok x →
  (rest = [] ∧ x = setattr fresh "_func" (VFunc func)) ∨
  (∃ x0, rest ≠ [] ∧ add class_attr isdigit func rest fresh = Ok x0 ∧
         x = setattr x0 "_func" VNone).
Proof.
  unfold init. destruct rest as [|r rest'].
  - intros [= <-]. by left.
  - destruct (add class_attr isdigit func (r :: rest') fresh) as [x0| |]; simpl; [|done..].
    intros [= <-]. right. by exists x0.
Qed.

Lemma add_mangled path : ∀ self self',
  add class_attr isdigit func path self = Ok self' → ∃ stored, mangled isdigit path = Ok stored.
Proof.
  induction path as [|n0 rest IH]; intros self self' H.
  - by exists [].
  - apply add_cons_inv in H as (n & Hn & [(w & w' & _ & Hw & _)|(x & _ & Hx & _)]).
    + destruct (IH _ _ Hw) as [l Hl]. exists (n :: l). simpl. by rewrite Hn, Hl.
    + apply init_inv in Hx as [[-> _]|(x0 & _ & Hx0 & _)].
      * exists [n]. simpl. by rewrite Hn.
      * destruct (IH _ _ Hx0) as [l Hl]. exists (n :: l). simpl. by rewrite Hn, Hl.
Qed.

Lemma find_setattr_ne w n v k q :
  k ≠ n → find (setattr w n v) (k :: q) = find w (k :: q).
Proof. intros Hne. simpl. by rewrite lookup_insert_ne. Qed.

Lemma find_setattr_obj w n x q :
  find (setattr w n (VObj x)) (n :: q) = find x q.
Proof. simpl. by rewrite lookup_insert_eq. Qed.

Lemma find_fresh q : q ≠ [] → find fresh q = None.
Proof. by destruct q. Qed.

Lemma add_siblings path : ∀ self self' stored,
  add class_attr isdigit func path self = Ok self' →
  mangled isdigit path = Ok stored →
  ∀ q v, branches_off q stored → find self q = Some v → find self' q = Some v.
Proof.
  induction path as [|n0 rest IH]; intros self self' stored H Hs q v Hq Hf.
  - injection Hs as <-. by destruct q.
  - apply add_cons_inv in H as (n & Hn & Hcase).
    simpl in Hs. rewrite Hn in Hs. simpl in Hs.
    destruct (mangled isdigit rest) as [l| |] eqn:Hl; simpl in Hs; [|done..].
    injection Hs as <-.
    destruct q as [|k q']; [done|]. simpl in Hq.
    destruct Hq as [Hne|[-> Hq]].
    + destruct Hcase as [(w & w' & _ & _ & ->)|(x & _ & _ & ->)];
        by rewrite find_setattr_ne.
    + destruct Hcase as [(w & w' & Hw & Hadd & ->)|(x & Hnone & _ & ->)].
      * rewrite find_setattr_obj. simpl in Hf. rewrite Hw in Hf. eauto.
      * simpl in Hf. by rewrite Hnone in Hf.
Qed.

Lemma add_descends path : ∀ self self' stored,
  add class_attr isdigit func path self = Ok self' →
  mangled isdigit path = Ok stored →
  ∀ q w, q `prefix_of` stored → find self q = Some (VObj w) →
    ∃ w', find self' q = Some (VObj w') ∧
          add class_attr isdigit func (drop (length q) path) w = Ok w'.
Proof.
  induction path as [|n0 rest IH]; intros self self' stored H Hs q w Hq Hf.
  - injection Hs as <-. apply prefix_nil_inv in Hq as ->.
    injection Hf as <-. exists self'. by split.
  - destruct q as [|k q'].
    { injection Hf as <-. exists self'. by split. }
    apply add_cons_inv in H as (n & Hn & Hcase).
    simpl in Hs. rewrite Hn in Hs. simpl in Hs.
    destruct (mangled isdigit rest) as [l| |] eqn:Hl; simpl in Hs; [|done..].
    injection Hs as <-.
    apply prefix_cons_inv_1 in Hq as Hk. subst k.
    apply prefix_cons_inv_2 in Hq.
    simpl in Hf.
    destruct Hcase as [(w0 & w0' & Hw & Hadd & ->)|(x & Hnone & _ & ->)].
    + rewrite Hw in Hf. rewrite find_setattr_obj. simpl. eauto.
    + by rewrite Hnone in Hf.
Qed.

Lemma find_set_func w v q k :
  (∀ x, v ≠ VObj x) →
  is_Some (find (setattr w "_func" v) (q ++ [k])) →
  is_Some (find w (q ++ [k])) ∨ isdigit k = false.
Proof.
  intros Hv H. destruct q as [|k0 q]; simpl in *.
  - destruct (decide (k = "_func")) as [->|Hne];
      [right; apply (isdigit_underscore "func")|].
    rewrite lookup_insert_ne in H by done. by left.
  - destruct (decide (k0 = "_func")) as [->|Hne].
    + rewrite lookup_insert_eq in H.
      destruct v; [| |by destruct (Hv w0)];
        destruct (q ++ [k]) eqn:E; try (by destruct q); by destruct H.
    + rewrite lookup_insert_ne in H by done. by left.
Qed.

Lemma add_new_names path : ∀ self self',
  add class_attr isdigit func path self = Ok self' →
  ∀ q k, is_Some (find self' (q ++ [k])) →
    is_Some (find self (q ++ [k])) ∨ isdigit k = false.
Proof.
  induction path as [|n0 rest IH]; intros self self' H q k Hf.
  - injection H as <-. by apply find_set_func in Hf.
  - apply add_cons_inv in H as (n & Hn & Hcase).
    apply mangle_no_digit in Hn.
    destruct q as [|k0 q1].
    + destruct (decide (k = n)) as [->|Hk]; [by right|]. left.
      destruct Hcase as [(w & w' & _ & _ & ->)|(x & _ & _ & ->)];
        simpl in *; by rewrite lookup_insert_ne in Hf.
    + destruct (decide (k0 = n)) as [->|Hk].
      * destruct Hcase as [(w & w' & Hw & Hadd & ->)|(x & Hnone & Hx & ->)];
          rewrite <- app_comm_cons, find_setattr_obj in Hf.
        -- simpl. rewrite Hw. eauto.
        -- right. apply init_inv in Hx as [[-> ->]|(x0 & _ & Hx0 & ->)];
             apply find_set_func in Hf as [Hf|?]; try done.
           ++ rewrite find_fresh in Hf by (by destruct q1). by destruct Hf.
           ++ destruct (IH _ _ Hx0 q1 k Hf) as [Hx1|?]; try done.
              rewrite find_fresh in Hx1 by (by destruct q1). by destruct Hx1.
      * left. destruct Hcase as [(w & w' & _ & _ & ->)|(x & _ & _ & ->)];
          rewrite <- app_comm_cons in *; by rewrite find_setattr_ne in Hf.
Qed.

Lemma add_stores path : ∀ self self' stored,
  add class_attr isdigit func path self = Ok self' →
  mangled isdigit path = Ok stored →
  "_func" ∉ stored →
  ∃ w, find self' stored = Some (VObj w) ∧
       attrs w !! "_func" = Some (VFunc func).
Proof.
  induction path as [|n0 rest IH]; intros self self' stored H Hs Hnot.
  - injection Hs as <-. injection H as <-. eexists. split; [done|].
    by rewrite attrs_setattr, lookup_insert_eq.
  - apply add_cons_inv in H as (n & Hn & Hcase).
    simpl in Hs. rewrite Hn in Hs. simpl in Hs.
    destruct (mangled isdigit rest) as [l| |] eqn:Hl; simpl in Hs; [|done..].
    injection Hs as <-.
    apply not_elem_of_cons in Hnot as [Hn' Hnot].
    destruct Hcase as [(w & w' & Hw & Hadd & ->)|(x & Hnone & Hx & ->)];
      rewrite find_setattr_obj.
    + eauto.
    + apply init_inv in Hx as [[-> ->]|(x0 & Hrest & Hx0 & ->)].
      * injection Hl as <-. eexists. split; [done|].
        by rewrite attrs_setattr, lookup_insert_eq.
      * destruct (IH _ _ _ Hx0 eq_refl Hnot) as (w & Hw & Hfunc).
        destruct l as [|n1 l'].
        { destruct rest; [done|]. simpl in Hl.
          destruct (mangle isdigit s); simpl in Hl; [|done..].
          by destruct (mangled isdigit rest). }
        apply not_elem_of_cons in Hnot as [Hn1 _].
        rewrite find_setattr_ne by done. eauto.
Qed.

Lemma mangled_lookup path : ∀ stored i seg,
  mangled isdigit path = Ok stored → path !! i = Some seg →
  stored !! i = Some (if isdigit seg then "_" +:+ seg else seg).
Proof.
  induction path as [|n0 rest IH]; intros stored i seg Hs Hi; [done|].
  simpl in Hs. destruct (mangle isdigit n0) as [n| |] eqn:Hn; simpl in Hs; [|done..].
  destruct (mangled isdigit rest) as [l| |] eqn:Hl; simpl in Hs; [|done..].
  injection Hs as <-. destruct i as [|i]; simpl in *.
  - injection Hi as ->. unfold mangle in Hn.
    destruct seg; simpl in *; [done|]. by injection Hn as <-.
  - eauto.
Qed.

(** C8, as the code has it: a segment is stored under ["_"] followed by
    the segment when its first character is a digit, and under itself
    otherwise, so two segments can have one stored name.  A successful
    [add] keeps every attribute that branches off the path of stored names,
    at any depth, with the value it had; a node of that path that existed
    before is the node after, with the rest of the path added to it; the
    node at the end of the path, when it existed, keeps its attributes but
    for [_func], which is the callable added, whatever it was and under
    whichever segment it had been added; every attribute name that is new
    in the tree starts with a character that is no digit; and the path of
    stored names, when none of them is [_func], leads to a node holding the
    callable. *)
Theorem add_keeps_siblings path self self' :
  add class_attr isdigit func path self = Ok self' →
  ∃ stored, mangled isdigit path = Ok stored ∧
    (∀ i seg, path !! i = Some seg →
       stored !! i = Some (if isdigit seg then "_" +:+ seg else seg)) ∧
    (∀ q v, branches_off q stored →
       find self q = Some v → find self' q = Some v) ∧
    (∀ q w, q `prefix_of` stored → find self q = Some (VObj w) →
       ∃ w', find self' q = Some (VObj w') ∧
             add class_attr isdigit func (drop (length q) path) w = Ok w') ∧
    (∀ w, find self stored = Some (VObj w) →
       find self' stored = Some (VObj (setattr w "_func" (VFunc func)))) ∧
    (∀ q k, is_Some (find self' (q ++ [k])) →
       is_Some (find self (q ++ [k])) ∨ isdigit k = false) ∧
    ("_func" ∉ stored →
       ∃ w, find self' stored = Some (VObj w) ∧
            attrs w !! "_func" = Some (VFunc func)).
Proof.
  intros H. destruct (add_mangled _ _ _ H) as [stored Hs].
  exists stored. split; [done|]. repeat split.
  - eauto using mangled_lookup.
  - eauto using add_siblings.
  - eauto using add_descends.
  - intros w Hw.
    destruct (add_descends _ _ _ _ H Hs stored w (reflexivity _) Hw)
      as (w' & Hw' & Hadd).
    rewrite (mangled_length _ _ Hs), drop_all in Hadd.
    injection Hadd as <-. exact Hw'.
  - eauto using add_new_names.
  - eauto using add_stores.
Qed.

End Facts.

Lemma add_keeps_siblings_witness :
  find wrapper_AB1x ["B"] = find wrapper_AB ["B"] ∧
  find wrapper_AB1x ["_1"; "x"; "_func"] = Some (VFunc "to_A.1.x").
Proof.
  destruct (add_keeps_siblings (λ _, false) sample_isdigit "to_A.1.x"
              (λ s, eq_refl) ["1"; "x"]
              wrapper_AB wrapper_AB1x) as (stored & Hs & _ & H1 & _).
  - vm_compute. reflexivity.
  - split; [|vm_compute; reflexivity].
    injection Hs as <-.
    apply H1; [left; done|vm_compute; reflexivity].
Defined.

(** The claim as the specification words it, siblings being told apart by
    their segments, fails where two segments have one stored name: the
    subtree of the segment ["_1"] is there before ["1"] is added and holds
    another callable afterwards. *)
Lemma stored_name_counterexample :
  "_1" ≠ "1" ∧
  find wrapper_under1 ["_1"; "_func"] = Some (VFunc "to_A._1") ∧
  ∃ self', add (λ _, false) sample_isdigit "to_A.1" ["1"] wrapper_under1
           = Ok self' ∧
           find self' ["_1"; "_func"] = Some (VFunc "to_A.1").
Proof.
  split; [done|]. split; [by vm_compute|].
  eexists. split; by vm_compute.
Qed.

End FunctionWrapperFacts.

(** ** Parent chains *)

Ltac solve_len := simpl in *; rewrite ?length_app in *; simpl in *; lia.

Section NestedStateFacts.

Implicit Types (w : World) (r p : ref) (l : list ref).

Lemma bind_ok_inv {A B} (m : M A) (k : A → M B) (w : World) b w' :
  (m ≫= k) w = (Ok b, w') →
  ∃ a w1, m w = (Ok a, w1) ∧ k a w1 = (Ok b, w').
Proof.
  unfold mbind, M_bind. destruct (m w) as [[a| |] w1]; [eauto|done..].
Qed.

Lemma query_ok_inv {A} (q : World → result A) (w : World) a w' :
  query q w = (Ok a, w') → q w = Ok a ∧ w' = w.
Proof. by intros [= -> ->]. Qed.

Lemma chain_nonempty w r l : chain w r l → ∃ l', l = r :: l'.
Proof. destruct 1; eauto. Qed.

Lemma chain_length w r l : chain w r l → 0 < length l.
Proof. destruct 1; simpl; lia. Qed.

Lemma chain_unique w r l : chain w r l → ∀ l', chain w r l' → l = l'.
Proof.
  induction 1 as [r s Hs Hp|r s p l Hs Hp Hc IH]; intros l' Hl';
    inversion Hl'; simplify_eq; try done.
  f_equal. eauto.
Qed.

Lemma chain_parent w r p l : chain w r (r :: p :: l) → chain w p (p :: l).
Proof.
  inversion 1 as [|? s p' ? Hs Hp Hc]; subst.
  by destruct (chain_nonempty _ _ _ Hc) as [? [= -> ->]].
Qed.

Lemma chain_parent_object w r p l :
  chain w r (r :: p :: l) → parent_object w r = Ok p.
Proof.
  inversion 1 as [|? s p' ? Hs Hp Hc]; subst.
  destruct (chain_nonempty _ _ _ Hc) as [? [= -> ->]].
  unfold parent_object, get_parent, get_node. by rewrite Hs; simpl; rewrite Hp.
Qed.

Lemma chain_get_parent w r l :
  chain w r l → get_parent w r = Ok (head (tail l)).
Proof.
  destruct 1 as [r s Hs Hp|r s p l Hs Hp Hc];
    unfold get_parent, get_node; rewrite Hs; simpl; rewrite Hp; [done|].
  by destruct (chain_nonempty _ _ _ Hc) as [? ->].
Qed.

Lemma chain_root_parent w r : chain w r [r] → parent_object w r = Raise AttributeError.
Proof.
  inversion 1 as [? s Hs Hp|? ? ? ? ? ? Hc]; subst.
  - unfold parent_object, get_parent, get_node. by rewrite Hs; simpl; rewrite Hp.
  - by apply chain_nonempty in Hc as [? ?].
Qed.

Lemma chain_suffix w r l : chain w r l →
  ∀ k x l', drop k l = x :: l' → chain w x (x :: l').
Proof.
  induction 1 as [r s Hs Hp|r s p l Hs Hp Hc IH]; intros k x l' Hd.
  - destruct k; simpl in Hd; [|by rewrite drop_nil in Hd].
    injection Hd as <- <-. by econstructor.
  - destruct k; simpl in Hd.
    + injection Hd as <- <-. by econstructor.
    + eauto.
Qed.

Lemma chain_add_effects w es r l : chain w r l → chain (add_effects w es) r l.
Proof. induction 1; by econstructor. Qed.

(** [level] uses one unit of fuel for every node of the chain. *)
Lemma level_chain w r l : chain w r l → ∀ fuel,
  level fuel w r =
    if decide (length l ≤ fuel) then Ok (pred (length l)) else OutOfFuel.
Proof.
  induction 1 as [r s Hs Hp|r s p l Hs Hp Hc IH]; intros [|fuel]; simpl;
    try done; unfold get_node; rewrite Hs; simpl; rewrite Hp; [done|].
  rewrite IH. apply chain_length in Hc.
  repeat case_decide; try lia; simpl; [|done]. f_equal. lia.
Qed.

Lemma level_enough w r l fuel :
  chain w r l → length l ≤ fuel → level fuel w r = Ok (pred (length l)).
Proof. intros Hc ?. rewrite (level_chain _ _ _ Hc). by case_decide. Qed.

Lemma name_chain w r l : chain w r l → ∀ fuel,
  name fuel w r =
    if decide (length l ≤ fuel) then Ok (chain_name w l) else OutOfFuel.
Proof.
  induction 1 as [r s Hs Hp|r s p l Hs Hp Hc IH]; intros [|fuel];
    cbn [name length]; try done; unfold get_node; rewrite Hs; cbn [mbind result_bind];
    rewrite Hp.
  - cbn [chain_name]. by rewrite Hs.
  - rewrite IH. destruct (chain_nonempty _ _ _ Hc) as [l' ->].
    cbn [chain_name]. rewrite Hs. cbn [length] in *.
    repeat case_decide; try lia; done.
Qed.

Lemma name_enough w r l fuel :
  chain w r l → length l ≤ fuel → name fuel w r = Ok (chain_name w l).
Proof. intros Hc ?. rewrite (name_chain _ _ _ Hc). by case_decide. Qed.

Lemma level_add_effects fuel w es r : level fuel (add_effects w es) r = level fuel w r.
Proof. revert r. induction fuel as [|f IH]; intros r; simpl; [done|].
  unfold get_node. simpl. destruct (nodes w !! r) as [s|]; simpl; [|done].
  destruct (parent s); [|done]. by rewrite IH.
Qed.

Lemma chain_name_add_effects w es l :
  chain_name (add_effects w es) l = chain_name w l.
Proof. induction l as [|r [|r' l] IH]; try done. cbn [chain_name] in *. by rewrite IH. Qed.

Lemma add_effects_app w a b :
  add_effects (add_effects w a) b = add_effects w (a ++ b).
Proof. unfold add_effects; simpl. by rewrite app_assoc. Qed.

Lemma add_effects_nil w : add_effects w [] = w.
Proof. destruct w. unfold add_effects; simpl. by rewrite app_nil_r. Qed.

(** *** enter_nested *)

Lemma enter_nested_S fuel r z w :
  enter_nested (S fuel) r (Some z) w =
    match level fuel w r with
    | Ok n =>
        if bool_decide (z ≠ Z.of_nat n) then
          match parent_object w r with
          | Ok p =>
              match enter_nested fuel p (Some z) w with
              | (Ok _, w') => (Ok (), add_effects w' [Entered r])
              | (Raise e, w') => (Raise e, w')
              | (OutOfFuel, w') => (OutOfFuel, w')
              end
          | Raise e => (Raise e, w)
          | OutOfFuel => (OutOfFuel, w)
          end
        else (Ok (), add_effects w [Entered r])
    | Raise e => (Raise e, w)
    | OutOfFuel => (OutOfFuel, w)
    end.
Proof.
  cbn [enter_nested]. unfold mbind, M_bind, query. 
  destruct (level fuel w r) as [n| |]; try done.
  case_bool_decide; [|done].
  destruct (parent_object w r) as [p| |]; try done.
Qed.

(** A stop level above the node's level is never met: the walk ends with
    the attribute access on the parent of the root. *)
Lemma enter_nested_above w r l : chain w r l → ∀ z fuel,
  (z < 0 ∨ Z.of_nat (pred (length l)) < z)%Z →
  enter_nested fuel r (Some z) w =
    if decide (length l < fuel) then (Raise AttributeError, w) else (OutOfFuel, w).
Proof.
  induction 1 as [r s Hs Hp|r s p l Hs Hp Hc IH]; intros z [|fuel] Hz;
    try done; rewrite enter_nested_S.
  - erewrite (level_chain _ r [r]) by by econstructor.
    cbn [length] in *. repeat case_decide; try lia; try done.
    rewrite bool_decide_eq_true_2 by (simpl in *; lia).
    unfold parent_object, get_parent, get_node. by rewrite Hs; simpl; rewrite Hp.
  - erewrite (level_chain _ r (r :: l)) by by econstructor.
    pose proof (chain_length _ _ _ Hc).
    cbn [length] in *. case_decide; [|by case_decide; try lia].
    rewrite bool_decide_eq_true_2 by (simpl in *; lia).
    unfold parent_object, get_parent, get_node. rewrite Hs; simpl; rewrite Hp; simpl.
    rewrite IH by (simpl in *; lia).
    repeat case_decide; try lia; done.
Qed.

(** A stop level between 0 and the node's level is met at the ancestor of
    that level; the hooks fire from that ancestor down to the node. *)
Lemma enter_nested_upto w r l : chain w r l → ∀ k fuel,
  k ≤ pred (length l) → length l < fuel →
  enter_nested fuel r (Some (Z.of_nat k)) w =
    (Ok (), add_effects w (Entered <$> reverse (take (length l - k) l))).
Proof.
  induction 1 as [r s Hs Hp|r s p l Hs Hp Hc IH]; intros k [|fuel] Hk Hf;
    try (simpl in *; lia); rewrite enter_nested_S.
  - erewrite (level_enough _ r [r]); [|by econstructor|simpl in *; lia].
    simpl in Hk. assert (k = 0) as -> by lia.
    by rewrite bool_decide_eq_false_2 by (simpl; lia).
  - erewrite (level_enough _ r (r :: l)); [|by econstructor|simpl in *; lia].
    pose proof (chain_length _ _ _ Hc).
    cbn [length] in *. case_bool_decide as Hne.
    + unfold parent_object, get_parent, get_node. rewrite Hs; simpl; rewrite Hp; simpl.
      rewrite IH by (simpl in *; lia).
      rewrite add_effects_app. do 2 f_equal.
      replace (S (length l) - k) with (S (length l - k)) by (simpl in *; lia).
      rewrite firstn_cons, reverse_cons, fmap_app. done.
    + assert (k = length l) as -> by (simpl in *; lia).
      replace (S (length l) - length l) with 1 by lia. done.
Qed.

(** C10: on a node with a finite parent chain, [enter_nested] returns only
    for a stop level that is [None] or lies between 0 and the level of the
    node; for a stop level above the level of the node the walk passes the
    root and ends with the attribute access on its missing parent, before any
    hook has fired. *)
Theorem enter_nested_stop_level w r l lv :
  chain w r l →
  (∀ fuel w', enter_nested fuel r lv w = (Ok (), w') →
     lv = None ∨
     ∃ z, lv = Some z ∧ (0 ≤ z ≤ Z.of_nat (pred (length l)))%Z) ∧
  (∀ z, lv = Some z → (Z.of_nat (pred (length l)) < z)%Z →
     ∀ fuel, length l < fuel →
       enter_nested fuel r lv w = (Raise AttributeError, w)).
Proof.
  intros Hc. split.
  - intros fuel w' H. destruct lv as [z|]; [|by left]. right. exists z.
    split; [done|].
    destruct (decide (0 ≤ z ≤ Z.of_nat (pred (length l)))%Z) as [|Hz]; [done|].
    rewrite (enter_nested_above _ _ _ Hc) in H by lia.
    by case_decide.
  - intros z -> Hz fuel Hf.
    rewrite (enter_nested_above _ _ _ Hc) by lia. by case_decide.
Qed.

(** *** exit_nested *)

Lemma align_stuck w self target p ns np :
  (∀ fuel, level fuel w self = OutOfFuel ∨ level fuel w self = Ok ns) →
  (∀ fuel, level fuel w p = OutOfFuel ∨ level fuel w p = Ok np) →
  ns ≠ np → parent_object w target = Ok p →
  ∀ fuel, align fuel w self target p = OutOfFuel.
Proof.
  intros Hs Hp Hne Hpar. induction fuel as [|fuel IH]; [done|].
  cbn [align]. destruct (Hs fuel) as [->| ->]; [done|].
  destruct (Hp fuel) as [->| ->]; [done|]. cbn [mbind result_bind].
  rewrite bool_decide_eq_true_2 by done. by rewrite Hpar.
Qed.

Lemma level_chain_cases w r l : chain w r l →
  ∀ fuel, level fuel w r = OutOfFuel ∨ level fuel w r = Ok (pred (length l)).
Proof. intros Hc fuel. rewrite (level_chain _ _ _ Hc). case_decide; eauto. Qed.

(** The first loop of [exit_nested] assigns the parent of the target over
    and over: with a target two or more levels below [self] its condition
    never changes. *)
Lemma align_diverges w self target ls lt :
  chain w self ls → chain w target lt → length ls + 2 ≤ length lt →
  ∀ fuel, align fuel w self target target = OutOfFuel.
Proof.
  intros Hs Ht Hlen [|fuel]; [done|]. cbn [align].
  destruct (level_chain_cases _ _ _ Hs fuel) as [->| ->]; [done|].
  destruct (level_chain_cases _ _ _ Ht fuel) as [->| ->]; [done|].
  cbn [mbind result_bind].
  rewrite bool_decide_eq_true_2 by lia.
  destruct (chain_nonempty _ _ _ Ht) as [[|p lt'] ->]; [simpl in *; lia|].
  rewrite (chain_parent_object _ _ _ _ Ht). cbn [mbind result_bind].
  eapply align_stuck; eauto using level_chain_cases, chain_parent, chain_parent_object.
  pose proof (chain_length _ _ _ Hs). simpl in *. lia.
Qed.

Lemma exit_nested_never_returns w self target ls lt :
  chain w self ls → chain w target lt →
  1 < length ls → length ls + 2 ≤ length lt →
  ∀ fuel, exit_nested fuel self (Some target) w = (OutOfFuel, w).
Proof.
  intros Hs Ht H1 Hlen [|fuel]; [done|].
  cbn [exit_nested]. unfold mbind, M_bind, query, mret, M_ret.
  destruct (level_chain_cases _ _ _ Ht fuel) as [->| ->]; [done|].
  replace (0 <? pred (length lt)) with true by (symmetry; apply Nat.ltb_lt; lia).
  destruct (level_chain_cases _ _ _ Hs fuel) as [->| ->]; [done|].
  replace (0 <? pred (length ls)) with true by (symmetry; apply Nat.ltb_lt; lia).
  replace (pred (length lt) <? pred (length ls)) with false
    by (symmetry; apply Nat.ltb_ge; lia).
  cbn [andb]. by rewrite (align_diverges _ _ _ _ _ Hs Ht Hlen).
Qed.

(** C2, on the code as it is: from a node below the root towards a target
    two or more levels deeper, the loop that should walk the target's chain
    up to the level of the node assigns the parent of the target again and
    again, and neither the loop nor [exit_nested] returns, whatever the
    bound on the number of iterations; no exit hook fires. *)
Theorem exit_nested_diverges w self target ls lt :
  chain w self ls → chain w target lt →
  1 < length ls → length ls + 2 ≤ length lt →
  ∀ fuel,
    align fuel w self target target = OutOfFuel ∧
    exit_nested fuel self (Some target) w = (OutOfFuel, w).
Proof.
  intros Hs Ht H1 Hlen fuel. split.
  - by eapply align_diverges.
  - by eapply exit_nested_never_returns.
Qed.

Lemma exit_run r w : exit r w = (Ok (), add_effects w [Exited r]).
Proof. done. Qed.

Lemma chain_app_level w r pa common :
  chain w r (pa ++ common) → pa ≠ [] → common ≠ [] →
  ∃ c common', common = c :: common' ∧ chain w c common.
Proof.
  intros Hc Hpa Hcm. destruct common as [|c common']; [done|].
  exists c, common'. split; [done|].
  eapply (chain_suffix _ _ _ Hc (length pa)). by rewrite drop_app_length.
Qed.

(** The second loop of [exit_nested], started on two nodes of one level
    whose chains meet in [common] (empty for two trees): it fires the exit
    hooks below the last node of [pa] and ends on that node. *)
Lemma climb_meet common : ∀ pa pb a b x fuel w,
  chain w a (pa ++ common) → chain w b (pb ++ common) →
  last pa = Some x → length pa = length pb →
  (∀ j, 0 < j < length pa →
     chain_name w (drop j pa ++ common) ≠ chain_name w (drop j pb ++ common)) →
  length (pa ++ common) < fuel →
  climb fuel a b w =
    (Ok x, add_effects w (Exited <$> removelast pa)).
Proof.
  intros pa.
  induction pa as [|a0 pa IH]; intros pb a b x fuel w Ha Hb Hne Hlen Hnames Hf;
    [done|].
  destruct pb as [|b0 pb]; [done|].
  destruct (chain_nonempty _ _ _ Ha) as [? [= -> _]].
  destruct (chain_nonempty _ _ _ Hb) as [? [= -> _]].
  destruct fuel as [|fuel]; [solve_len|].
  cbn [climb]. unfold mbind, M_bind, query, mret, M_ret.
  rewrite (level_enough _ _ _ _ Ha) by solve_len.
  destruct pa as [|a1 pa].
  - destruct pb; [|done]. injection Hne as <-.
    destruct common as [|c common']; [by rewrite add_effects_nil|].
    replace (0 <? pred (length ([a] ++ c :: common'))) with true
      by (symmetry; apply Nat.ltb_lt; solve_len).
    simpl in Ha, Hb |- *.
    rewrite (chain_parent_object _ _ _ _ Ha), (chain_parent_object _ _ _ _ Hb).
    cbn [mbind result_bind].
    rewrite (name_enough _ _ _ _ (chain_parent _ _ _ _ Ha)) by solve_len.
    cbn [mbind result_bind].
    rewrite bool_decide_eq_false_2 by (intros ?; done).
    by rewrite add_effects_nil.
  - destruct pb as [|b1 pb]; [done|].
    replace (0 <? pred (length ((a :: a1 :: pa) ++ common))) with true
      by (symmetry; apply Nat.ltb_lt; solve_len).
    rewrite <- !app_comm_cons in Ha, Hb.
    rewrite (chain_parent_object _ _ _ _ Ha), (chain_parent_object _ _ _ _ Hb).
    cbn [mbind result_bind].
    rewrite (name_enough _ _ _ _ (chain_parent _ _ _ _ Ha)) by solve_len.
    rewrite (name_enough _ _ _ _ (chain_parent _ _ _ _ Hb)) by solve_len.
    cbn [mbind result_bind].
    rewrite bool_decide_eq_true_2; last first.
    { intros Heq. apply (Hnames 1); [simpl; lia|]. by symmetry. }
    rewrite exit_run.
    set (w1 := add_effects w [Exited a]).
    assert (chain w1 a (a :: a1 :: pa ++ common)) as Ha'
      by (by apply chain_add_effects).
    assert (chain w1 b (b :: b1 :: pb ++ common)) as Hb'
      by (by apply chain_add_effects).
    rewrite (chain_parent_object _ _ _ _ Ha'), (chain_parent_object _ _ _ _ Hb').
    rewrite (IH (b1 :: pb) a1 b1 x fuel w1); try done.
    + unfold w1. by rewrite add_effects_app.
    + rewrite <- app_comm_cons. eapply chain_parent, Ha'.
    + rewrite <- app_comm_cons. eapply chain_parent, Hb'.
    + solve_len.
    + intros j Hj. unfold w1. rewrite !chain_name_add_effects.
      apply (Hnames (S j)). solve_len.
    + solve_len.
Qed.

Lemma align_stop w self target tmp ls lt fuel :
  chain w self ls → chain w tmp lt → length ls = length lt →
  length ls < fuel → align fuel w self target tmp = Ok tmp.
Proof.
  intros Hs Ht Hlen Hf. destruct fuel as [|fuel]; [lia|]. cbn [align].
  rewrite (level_enough _ _ _ _ Hs), (level_enough _ _ _ _ Ht) by lia.
  cbn [mbind result_bind]. by rewrite bool_decide_eq_false_2 by (rewrite Hlen; tauto).
Qed.

Lemma align_one w self target p ls lt fuel :
  chain w self ls → chain w target (target :: p :: lt) →
  length ls = S (length lt) → length ls + 2 < fuel →
  align fuel w self target target = Ok p.
Proof.
  intros Hs Ht Hlen Hf. destruct fuel as [|fuel]; [lia|]. cbn [align].
  rewrite (level_enough _ _ _ _ Hs), (level_enough _ _ _ _ Ht) by solve_len.
  cbn [mbind result_bind].
  rewrite bool_decide_eq_true_2 by solve_len.
  rewrite (chain_parent_object _ _ _ _ Ht). cbn [mbind result_bind].
  eapply align_stop; eauto using chain_parent; solve_len.
Qed.

Lemma last_removelast {A} (l : list A) x :
  last l = Some x → removelast l ++ [x] = l.
Proof. intros [l' ->]%last_Some. by rewrite removelast_last. Qed.

(** [exit_nested] from [s] towards [t], both below the root, with chains
    that meet in [common] (empty for two trees) and a target at most one
    level deeper than [s]: the exit hooks of the nodes of [s]'s chain below
    [common] fire, from [s] upwards, and the level returned is that of the
    last of them. *)
Lemma exit_nested_meet common : ∀ ps pt s t x fuel w,
  chain w s (ps ++ common) → chain w t (pt ++ common) →
  last ps = Some x → pt ≠ [] →
  1 < length (ps ++ common) → 1 < length (pt ++ common) →
  length pt ≤ length ps + 1 →
  (∀ i j, i < length ps → j < length pt → length ps - i = length pt - j →
     chain_name w (drop i ps ++ common) ≠ chain_name w (drop j pt ++ common)) →
  length (ps ++ common) + 3 < fuel →
  exit_nested fuel s (Some t) w =
    (Ok (length common), add_effects w (Exited <$> ps)).
Proof.
  intros ps.
  induction ps as [|a ps IH];
    intros pt s t x fuel w Hs Ht Hx Hpt Hls Hlt Hlen Hnames Hf; [done|].
  destruct (chain_nonempty _ _ _ Hs) as [? [= -> _]].
  destruct fuel as [|fuel]; [lia|].
  cbn [exit_nested]. unfold mbind, M_bind, query, mret, M_ret.
  assert (0 < length pt) by (destruct pt; [done|simpl; lia]).
  rewrite (level_enough _ _ _ _ Ht) by solve_len.
  replace (0 <? pred (length (pt ++ common))) with true
    by (symmetry; apply Nat.ltb_lt; solve_len).
  rewrite (level_enough _ _ _ _ Hs) by solve_len.
  replace (0 <? pred (length ((s :: ps) ++ common))) with true
    by (symmetry; apply Nat.ltb_lt; solve_len).
  cbn [andb].
  destruct (decide (length pt < length (s :: ps))) as [Hdeep|Hshallow].
  - replace (pred (length (pt ++ common)) <? pred (length ((s :: ps) ++ common)))
      with true by (symmetry; apply Nat.ltb_lt; solve_len).
    rewrite exit_run.
    destruct ps as [|a1 ps]; [solve_len|].
    set (w1 := add_effects w [Exited s]).
    assert (chain w1 s (s :: a1 :: ps ++ common)) as Hs'
      by (by apply chain_add_effects).
    rewrite (chain_parent_object _ _ _ _ Hs').
    rewrite (IH pt a1 t x fuel w1).
    + unfold w1. by rewrite add_effects_app.
    + eapply chain_parent, Hs'.
    + by apply chain_add_effects.
    + done.
    + done.
    + solve_len.
    + done.
    + solve_len.
    + intros i j Hi Hj Hij. unfold w1. rewrite !chain_name_add_effects.
      apply (Hnames (S i) j); solve_len.
    + solve_len.
  - replace (pred (length (pt ++ common)) <? pred (length ((s :: ps) ++ common)))
      with false by (symmetry; apply Nat.ltb_ge; solve_len).
    assert (∃ pb tmp, align fuel w s t t = Ok tmp ∧
              chain w tmp (pb ++ common) ∧ length (s :: ps) = length pb ∧
              ∀ j, 0 < j < length (s :: ps) →
                chain_name w (drop j (s :: ps) ++ common)
                ≠ chain_name w (drop j pb ++ common))
      as (pb & tmp & -> & Htmp & Hlenb & Hnb).
    { destruct (decide (length pt = length (s :: ps))) as [Heq|Hneq].
      - exists pt, t. split; [|split; [done|split; [done|]]].
        + eapply (align_stop _ _ _ _ ((s :: ps) ++ common) (pt ++ common));
            [exact Hs|exact Ht|solve_len..].
        + intros j Hj. apply Hnames; solve_len.
      - destruct (chain_nonempty _ _ _ Ht) as [lt' Hlt'].
        destruct pt as [|t0 [|p pt]]; [done|solve_len|].
        injection Hlt' as -> _.
        exists (p :: pt), p. split; [|split; [|split]].
        + eapply (align_one _ _ _ _ ((s :: ps) ++ common) (pt ++ common));
            [exact Hs|exact Ht|solve_len..].
        + eapply chain_parent, Ht.
        + solve_len.
        + intros j Hj. apply (Hnames j (S j)); solve_len. }
    rewrite (climb_meet _ _ _ _ _ x _ _ Hs Htmp); try done; [|solve_len].
    rewrite exit_run, add_effects_app, level_add_effects.
    change [Exited x] with (Exited <$> [x]).
    rewrite <- fmap_app, (last_removelast _ _ Hx).
    assert (chain w x (x :: common)) as Hxc.
    { apply last_Some in Hx as [l' Hl']. rewrite Hl' in Hs.
      rewrite <- app_assoc in Hs.
      eapply (chain_suffix _ _ _ Hs (length l')). by rewrite drop_app_length. }
    rewrite (level_enough _ _ _ _ Hxc) by solve_len. done.
Qed.

(** *** NestedTransition *)

Lemma chain_nodes w w' r l : nodes w = nodes w' → chain w r l → chain w' r l.
Proof. intros E. induction 1; econstructor; eauto; by rewrite <- E. Qed.

(** C3, on the code as it is: a transition whose destination lies two or
    more levels below the level of the active state, itself below the root,
    does not return and fires no hook, whatever the bound on the number of
    iterations. *)
Theorem change_state_diverges w m x T t ls lt :
  machines w !! m = Some x → dict_get (dest T) (states x) = Some t →
  chain w (current_state x) ls → chain w t lt →
  1 < length ls → length ls + 2 ≤ length lt →
  ∀ fuel, _change_state fuel m T w = (OutOfFuel, w).
Proof.
  intros Hm Ht Hs Hc H1 H2 fuel.
  unfold _change_state, mbind, M_bind, query, get_state, get_machine.
  rewrite Hm. cbn [mbind result_bind]. rewrite Ht.
  by rewrite (exit_nested_never_returns _ _ _ _ _ Hs Hc H1 H2).
Qed.

(** A transition between two states below the root whose chains meet in
    [common], the destination at most one level deeper than the source:
    the exit hooks fire on the source's chain below [common], upwards, then
    the pointer moves, then the enter hooks fire on the destination's chain
    below [common], downwards. *)
Lemma change_state_hooks w m x T t ps pt common fuel :
  machines w !! m = Some x → dict_get (dest T) (states x) = Some t →
  chain w (current_state x) (ps ++ common) → chain w t (pt ++ common) →
  ps ≠ [] → pt ≠ [] →
  1 < length (ps ++ common) → 1 < length (pt ++ common) →
  length pt ≤ length ps + 1 →
  (∀ i j, i < length ps → j < length pt → length ps - i = length pt - j →
     chain_name w (drop i ps ++ common) ≠ chain_name w (drop j pt ++ common)) →
  length (ps ++ common) + length (pt ++ common) + 3 < fuel →
  _change_state fuel m T w =
    (Ok (), add_effects (with_current w m t)
              ((Exited <$> ps) ++ (Entered <$> reverse pt))).
Proof.
  intros Hm Ht Hs Hc Hps Hpt H1 H2 Hlen Hnames Hf.
  apply last_is_Some in Hps as [xl Hxl].
  assert (0 < length pt) by (destruct pt; [done|simpl; lia]).
  unfold _change_state, mbind, M_bind, query, get_state, get_machine.
  rewrite Hm. cbn [mbind result_bind]. rewrite Ht.
  rewrite (exit_nested_meet _ _ _ _ _ xl _ _ Hs Hc) by (done || solve_len).
  unfold set_state, mbind, M_bind, query, get_state, get_machine.
  cbn [machines add_effects]. rewrite Hm. cbn [mbind result_bind]. rewrite Ht.
  unfold update_machine, set_machines.
  match goal with |- enter_nested _ _ _ ?w1 = _ =>
    change w1 with (with_current (add_effects w (Exited <$> ps)) m t) end.
  set (w1 := with_current (add_effects w (Exited <$> ps)) m t).
  assert (chain w1 t (pt ++ common)) as Hc'
    by (eapply chain_nodes; [|exact Hc]; reflexivity).
  rewrite (enter_nested_upto _ _ _ Hc') by solve_len.
  replace (length (pt ++ common) - length common) with (length pt) by solve_len.
  rewrite take_app_length.
  unfold w1, add_effects, with_current. cbn. by rewrite app_assoc.
Qed.

(** *** What the hooks leave behind *)

Lemma only_effects_ret {A} (a : A) : only_effects (mret a).
Proof. intros w r w' [= <- <-]. exists []. by rewrite add_effects_nil. Qed.

Lemma only_effects_query {A} (q : World → result A) : only_effects (query q).
Proof. intros w r w' [= <- <-]. exists []. by rewrite add_effects_nil. Qed.

Lemma only_effects_emit e : only_effects (emit e).
Proof. intros w r w' [= <- <-]. by exists [e]. Qed.

Lemma only_effects_bind {A B} (m : M A) (k : A → M B) :
  only_effects m → (∀ a, only_effects (k a)) → only_effects (m ≫= k).
Proof.
  intros Hm Hk w r w' Hrun. unfold mbind, M_bind in Hrun.
  destruct (m w) as [[a| |] w1] eqn:E;
    destruct (Hm _ _ _ E) as [es1 ->].
  - destruct (Hk a _ _ _ Hrun) as [es2 ->].
    exists (es1 ++ es2). by rewrite add_effects_app.
  - injection Hrun as <- <-. by exists es1.
  - injection Hrun as <- <-. by exists es1.
Qed.

Lemma only_effects_climb fuel : ∀ a b, only_effects (climb fuel a b).
Proof.
  induction fuel as [|fuel IH]; intros a b.
  - intros w r w' [= <- <-]. exists []. by rewrite add_effects_nil.
  - cbn [climb]. apply only_effects_bind; [apply only_effects_query|].
    intros lv. apply only_effects_bind.
    { destruct (0 <? lv)%nat;
        [apply only_effects_query|apply only_effects_ret]. }
    intros [|]; [|apply only_effects_ret].
    apply only_effects_bind; [apply only_effects_emit|]. intros _.
    apply only_effects_bind; [apply only_effects_query|]. intros p'.
    apply only_effects_bind; [apply only_effects_query|]. intros q'.
    apply IH.
Qed.

Lemma only_effects_exit_nested fuel : ∀ s t, only_effects (exit_nested fuel s t).
Proof.
  induction fuel as [|fuel IH]; intros s t.
  - intros w r w' [= <- <-]. exists []. by rewrite add_effects_nil.
  - cbn [exit_nested].
    assert (only_effects
              (exit s;;
               p ← query (λ w, get_parent w s);
               match p with
               | Some p' => exit_nested fuel p' None
               | None => mret 0
               end)) as Hother.
    { apply only_effects_bind; [apply only_effects_emit|]. intros _.
      apply only_effects_bind; [apply only_effects_query|].
      intros [p'|]; [apply IH|apply only_effects_ret]. }
    destruct t as [t|]; [|exact Hother].
    apply only_effects_bind; [apply only_effects_query|]. intros lt.
    apply only_effects_bind.
    { destruct (0 <? lt)%nat;
        [apply only_effects_query|apply only_effects_ret]. }
    intros ls. destruct (_ && _); [|exact Hother].
    destruct (lt <? ls)%nat.
    + apply only_effects_bind; [apply only_effects_emit|]. intros _.
      apply only_effects_bind; [apply only_effects_query|]. intros p'.
      apply IH.
    + apply only_effects_bind; [apply only_effects_query|]. intros tmp.
      apply only_effects_bind; [apply only_effects_climb|]. intros tmp_self.
      apply only_effects_bind; [apply only_effects_emit|]. intros _.
      apply only_effects_query.
Qed.

Lemma only_effects_enter_nested fuel : ∀ s lv, only_effects (enter_nested fuel s lv).
Proof.
  induction fuel as [|fuel IH]; intros s lv.
  - intros w r w' [= <- <-]. exists []. by rewrite add_effects_nil.
  - cbn [enter_nested]. apply only_effects_bind; [|intros _; apply only_effects_emit].
    destruct lv as [z|]; [|apply only_effects_ret].
    apply only_effects_bind; [apply only_effects_query|]. intros l.
    case_bool_decide; [|apply only_effects_ret].
    apply only_effects_bind; [apply only_effects_query|]. intros p'.
    apply IH.
Qed.

(** A state change that returns has moved the active pointer of the machine
    to the state registered under the destination's name; the nodes and the
    registry are as before, and the hooks that fired are what the store has
    gained. *)
Lemma change_state_moves fuel m T w w' x :
  machines w !! m = Some x →
  _change_state fuel m T w = (Ok (), w') →
  ∃ d es,
    dict_get (dest T) (states x) = Some d ∧
    w' = add_effects (with_current w m d) es.
Proof.
  intros Hm Hrun. unfold _change_state in Hrun.
  apply bind_ok_inv in Hrun as (d & w0 & [Hd ->]%query_ok_inv & Hrun).
  apply bind_ok_inv in Hrun as (x0 & w0 & [Hx ->]%query_ok_inv & Hrun).
  unfold get_state, get_machine in Hd, Hx. rewrite Hm in Hd, Hx.
  cbn [mbind result_bind] in Hd. injection Hx as <-.
  destruct (dict_get (dest T) (states x)) as [d'|] eqn:Hdest; [|done].
  injection Hd as ->.
  apply bind_ok_inv in Hrun as (lvl & w1 & Hexit & Hrun).
  apply only_effects_exit_nested in Hexit as [es1 ->].
  apply bind_ok_inv in Hrun as ([] & w2 & Hset & Hrun).
  unfold set_state in Hset.
  apply bind_ok_inv in Hset as (d' & w0 & [Hd' ->]%query_ok_inv & Hset).
  unfold get_state, get_machine in Hd'. cbn [machines add_effects] in Hd'.
  rewrite Hm in Hd'. cbn [mbind result_bind] in Hd'. rewrite Hdest in Hd'.
  injection Hd' as <-.
  unfold update_machine, set_machines in Hset. injection Hset as <-.
  apply only_effects_enter_nested in Hrun as [es2 ->].
  exists d, (es1 ++ es2). split; [done|].
  unfold add_effects, with_current. cbn. rewrite Hm. by rewrite app_assoc.
Qed.

End NestedStateFacts.

(** ** NestedEvent.trigger *)

Section NestedEventFacts.

Variable holds : World → string → bool.

Lemma dict_set_same {V} k (v : V) d : dict_get k d = Some v → dict_set k v d = d.
Proof.
  induction d as [|[k' v'] d IH]; simpl; [done|].
  case_decide; [by intros [= ->]; subst|]. intros Hd. by rewrite IH.
Qed.

Lemma dict_get_set {V} k (v : V) d : dict_get k (dict_set k v d) = Some v.
Proof.
  induction d as [|[k' v'] d IH]; simpl; [by rewrite decide_True|].
  case_decide; simpl; [by rewrite decide_True|by rewrite decide_False].
Qed.

Lemma dict_get_set_ne {V} k k' (v : V) d :
  k ≠ k' → dict_get k' (dict_set k v d) = dict_get k' d.
Proof.
  intros Hne. induction d as [|[k0 v0] d IH]; simpl.
  - by rewrite decide_False.
  - case_decide; simpl; subst.
    + by rewrite !decide_False.
    + case_decide; [done|]. apply IH.
Qed.

Lemma with_event_same w m x trigger_name e :
  machines w !! m = Some x → dict_get trigger_name (events x) = Some e →
  with_event w m trigger_name e = w.
Proof.
  intros Hm He. unfold with_event. rewrite Hm, (dict_set_same _ _ _ He).
  destruct w as [ns ms ds es]; simpl in *. f_equal.
  destruct x. by apply list_insert_id.
Qed.

(** The loop of [trigger] stops at the first node of the chain whose name
    is in the table, or at the root. *)
Lemma bubble_stops w t : ∀ pre s l r post fuel,
  chain w s l → l = pre ++ r :: post →
  (∀ i, i < length pre → table_in (chain_name w (drop i l)) t = false) →
  post = [] ∨ table_in (chain_name w (r :: post)) t = true →
  length l < fuel →
  bubble fuel w s t = Ok r.
Proof.
  induction pre as [|a pre IH]; intros s l r post fuel Hc -> Hpre Hr Hf;
    (destruct fuel as [|fuel]; [solve_len|]); cbn [bubble];
    rewrite (chain_get_parent _ _ _ Hc);
    destruct (chain_nonempty _ _ _ Hc) as [? [= -> _]];
    cbn [mbind result_bind app tail].
  - destruct post as [|p post]; [done|]. cbn [head].
    rewrite (name_enough _ _ _ _ Hc) by solve_len. cbn [mbind result_bind].
    destruct Hr as [?|Hr]; [done|]. cbn [app]. by rewrite Hr.
  - assert (head (pre ++ r :: post) = Some (default r (head pre))) as ->
      by (by destruct pre).
    rewrite (name_enough _ _ _ _ Hc) by solve_len. cbn [mbind result_bind].
    pose proof (Hpre 0 ltac:(solve_len)) as H0. rewrite drop_0 in H0.
    rewrite H0. cbn [negb].
    eapply (IH _ (pre ++ r :: post)); try done.
    + destruct pre; eapply (chain_suffix _ _ _ Hc 1); done.
    + intros i Hi. apply (Hpre (S i)). solve_len.
    + solve_len.
Qed.

(** [trigger] with a registration on the chain of the active state. *)
Lemma trigger_found w m x e trigger_name l pre r post ts fuel :
  machines w !! m = Some x →
  dict_get trigger_name (events x) = Some e →
  chain w (current_state x) l → l = pre ++ r :: post →
  (∀ i, i < length pre →
     table_in (chain_name w (drop i l)) (transitions e) = false) →
  dict_get (chain_name w (r :: post)) (items (transitions e)) = Some ts →
  length l < fuel →
  trigger holds fuel m trigger_name w = try_transitions holds fuel m ts w.
Proof.
  intros Hm He Hc Hl Hpre Hr Hf.
  assert (table_in (chain_name w (r :: post)) (transitions e) = true) as Hin.
  { unfold table_in, dict_in. rewrite Hr. by apply bool_decide_eq_true_2. }
  unfold trigger, mbind at 1, M_bind at 1, query at 1, get_machine.
  rewrite Hm, He.
  unfold mbind at 1, M_bind at 1, query at 1.
  rewrite (bubble_stops _ _ _ _ _ _ _ _ Hc Hl Hpre (or_intror Hin)) by done.
  assert (chain w r (r :: post)) as Hcr.
  { eapply (chain_suffix _ _ _ Hc (length pre)). subst l. by rewrite drop_app_length. }
  unfold mbind at 1, M_bind at 1, query at 1.
  rewrite (name_enough _ _ _ _ Hcr) by (subst l; solve_len).
  rewrite Hin. cbn [negb].
  unfold mbind, M_bind, mret, M_ret, query, table_getitem. rewrite Hr.
  unfold set_event, update_machine, set_machines.
  change (mkWorld (nodes w) _ (dicts w) (effects w))
    with (with_event w m trigger_name (mkNestedEvent (event_name e) (transitions e))).
  rewrite with_event_same with (x := x); [done..|]. by destruct e.
Qed.

Lemma execute_disabled fuel m t w :
  enabled holds w t = false → execute holds fuel m t w = (Ok false, w).
Proof.
  intros H. unfold execute, mbind, M_bind, query. fold (enabled holds w t).
  by rewrite H.
Qed.

Lemma try_transitions_skip fuel m pre ts w :
  Forall (λ t, enabled holds w t = false) pre →
  try_transitions holds fuel m (pre ++ ts) w = try_transitions holds fuel m ts w.
Proof.
  induction 1 as [|t pre Ht _ IH]; [done|].
  cbn [app try_transitions]. unfold mbind at 1, M_bind at 1.
  by rewrite execute_disabled.
Qed.

(** C6: the loop of [trigger] ends on the first node, from the active state
    upwards, whose qualified name is in the table of the event, whatever is
    registered for the nodes above it: a registration on an ancestor serves
    every descendant without a nearer one, and a nearer one is preferred.
    The transitions registered under that name are the ones executed: the
    call runs [_change_state] of the first of them whose guards pass and,
    when that returns, returns [True] with the active state on the
    destination of that transition, the store being otherwise as it was but
    for the effects of the hooks; when the guards of none of them pass, the
    call returns [False] and nothing has changed. *)
Theorem trigger_nearest w m x e trigger_name l pre r post ts fuel :
  machines w !! m = Some x →
  dict_get trigger_name (events x) = Some e →
  chain w (current_state x) l → l = pre ++ r :: post →
  (∀ i, i < length pre →
     table_in (chain_name w (drop i l)) (transitions e) = false) →
  dict_get (chain_name w (r :: post)) (items (transitions e)) = Some ts →
  length l < fuel →
  bubble fuel w (current_state x) (transitions e) = Ok r ∧
  name fuel w r = Ok (chain_name w (r :: post)) ∧
  (∀ skipped t later,
     ts = skipped ++ t :: later →
     Forall (λ t, enabled holds w t = false) skipped →
     enabled holds w t = true →
     trigger holds fuel m trigger_name w =
       (_change_state fuel m t;; mret true) w ∧
     ∀ w', _change_state fuel m t w = (Ok (), w') →
       trigger holds fuel m trigger_name w = (Ok true, w') ∧
       ∃ d es, dict_get (dest t) (states x) = Some d ∧
               w' = add_effects (with_current w m d) es) ∧
  (Forall (λ t, enabled holds w t = false) ts →
     trigger holds fuel m trigger_name w = (Ok false, w)).
Proof.
  intros Hm He Hc Hl Hpre Hr Hf. split; [|split; [|split]].
  - eapply bubble_stops; eauto. right.
    unfold table_in, dict_in. rewrite Hr. by apply bool_decide_eq_true_2.
  - apply name_enough; [|subst l; solve_len].
    eapply (chain_suffix _ _ _ Hc (length pre)). subst l. by rewrite drop_app_length.
  - intros skipped t later -> Hskip Ht.
    rewrite (trigger_found w m x e trigger_name l pre r post
               (skipped ++ t :: later) fuel) by done.
    rewrite try_transitions_skip by done.
    assert (try_transitions holds fuel m (t :: later) w
            = (_change_state fuel m t;; mret true) w) as ->.
    { cbn [try_transitions]. unfold execute, mbind, M_bind, query, mret, M_ret.
      fold (enabled holds w t). rewrite Ht.
      by destruct (_change_state fuel m t w) as [[[]| |] w']. }
    split; [done|]. intros w' Hrun. split.
    + unfold mbind, M_bind. by rewrite Hrun.
    + by eapply change_state_moves.
  - intros Hall.
    rewrite (trigger_found w m x e trigger_name l pre r post ts fuel) by done.
    rewrite <- (app_nil_r ts). by rewrite try_transitions_skip.
Qed.

Lemma chain_name_nodes w w' l : nodes w = nodes w' → chain_name w l = chain_name w' l.
Proof.
  intros E. induction l as [|r l IH]; [done|].
  cbn [chain_name]. rewrite E. destruct l; [done|]. by rewrite IH.
Qed.

(** The first time a trigger is fired that no name on the chain of the
    active state is registered for, the active state ignoring invalid
    triggers and the table being a [defaultdict]: the condition is logged
    and the call returns [False]; the lookup that follows the logging has
    registered the name of the root with an empty list. *)
Lemma trigger_unregistered w m x e trigger_name l root cur fuel :
  machines w !! m = Some x →
  dict_get trigger_name (events x) = Some e →
  chain w (current_state x) l → last l = Some root →
  nodes w !! current_state x = Some cur →
  ignore_invalid_triggers cur = Some true →
  (∀ i, i < length l →
     table_in (chain_name w (drop i l)) (transitions e) = false) →
  default_factory (transitions e) = true →
  length l < fuel →
  trigger holds fuel m trigger_name w =
    (Ok false,
     add_effects
       (with_event w m trigger_name
          (mkNestedEvent (event_name e)
             (mkTable (dict_set (chain_name w [root]) [] (items (transitions e)))
                      true)))
       [Warning (invalid_trigger_msg e (chain_name w l))]).
Proof.
  intros Hm He Hc Hroot Hcur Hign Hnone Hdf Hf.
  apply last_Some in Hroot as [pre Hl].
  assert (chain w root [root]) as Hcr.
  { eapply (chain_suffix _ _ _ Hc (length pre)). subst l. by rewrite drop_app_length. }
  assert (table_in (chain_name w [root]) (transitions e) = false) as Hin.
  { specialize (Hnone (length pre)). subst l. rewrite drop_app_length in Hnone.
    apply Hnone. solve_len. }
  unfold trigger, mbind at 1, M_bind at 1, query at 1, get_machine.
  rewrite Hm, He.
  unfold mbind at 1, M_bind at 1, query at 1.
  rewrite (bubble_stops _ _ pre _ _ root [] _ Hc Hl); [|intros i Hi; apply Hnone; subst l; solve_len|by left|done].
  unfold mbind at 1, M_bind at 1, query at 1.
  rewrite (name_enough _ _ _ _ Hcr) by (subst l; solve_len).
  rewrite Hin. cbn [negb].
  unfold mbind, M_bind, mret, M_ret, query, get_node, emit.
  rewrite (name_enough _ _ _ _ Hc) by lia. rewrite Hcur, Hign.
  unfold table_getitem. cbn [effects nodes machines dicts].
  unfold table_in, dict_in in Hin. apply bool_decide_eq_false in Hin.
  destruct (dict_get (chain_name w [root]) (items (transitions e))) eqn:Hg;
    [by destruct Hin|].
  rewrite Hdf. unfold set_event, update_machine, set_machines, with_event, add_effects.
  cbn. by rewrite Hm.
Qed.

(** With a plain [dict] as table the lookup after the logging raises. *)
Lemma trigger_unregistered_dict w m x e trigger_name l root cur fuel :
  machines w !! m = Some x →
  dict_get trigger_name (events x) = Some e →
  chain w (current_state x) l → last l = Some root →
  nodes w !! current_state x = Some cur →
  ignore_invalid_triggers cur = Some true →
  (∀ i, i < length l →
     table_in (chain_name w (drop i l)) (transitions e) = false) →
  default_factory (transitions e) = false →
  length l < fuel →
  trigger holds fuel m trigger_name w =
    (Raise KeyError,
     add_effects w [Warning (invalid_trigger_msg e (chain_name w l))]).
Proof.
  intros Hm He Hc Hroot Hcur Hign Hnone Hdf Hf.
  apply last_Some in Hroot as [pre Hl].
  assert (chain w root [root]) as Hcr.
  { eapply (chain_suffix _ _ _ Hc (length pre)). subst l. by rewrite drop_app_length. }
  assert (table_in (chain_name w [root]) (transitions e) = false) as Hin.
  { specialize (Hnone (length pre)). subst l. rewrite drop_app_length in Hnone.
    apply Hnone. solve_len. }
  unfold trigger, mbind at 1, M_bind at 1, query at 1, get_machine.
  rewrite Hm, He.
  unfold mbind at 1, M_bind at 1, query at 1.
  rewrite (bubble_stops _ _ pre _ _ root [] _ Hc Hl); [|intros i Hi; apply Hnone; subst l; solve_len|by left|done].
  unfold mbind at 1, M_bind at 1, query at 1.
  rewrite (name_enough _ _ _ _ Hcr) by (subst l; solve_len).
  rewrite Hin. cbn [negb].
  unfold mbind, M_bind, mret, M_ret, query, get_node, emit.
  rewrite (name_enough _ _ _ _ Hc) by lia. rewrite Hcur, Hign.
  unfold table_getitem. cbn [effects nodes machines dicts].
  unfold table_in, dict_in in Hin. apply bool_decide_eq_false in Hin.
  destruct (dict_get (chain_name w [root]) (items (transitions e))) eqn:Hg;
    [by destruct Hin|].
  by rewrite Hdf.
Qed.

(** C1, on the code as it is: after the warning is logged the call goes on
    to look the name of the root up in the table of the event.  When the
    table is a [defaultdict] the first call returns [False], but the lookup
    registers the name of the root with an empty list, so when the same
    trigger is fired again, still without any transition registered for a
    node of the chain, the call returns [False] and logs nothing.  When the
    table is a plain [dict] the lookup raises [KeyError] on the first
    call. *)
Theorem trigger_unregistered_again w m x e trigger_name l root cur fuel :
  machines w !! m = Some x →
  dict_get trigger_name (events x) = Some e →
  chain w (current_state x) l → last l = Some root →
  nodes w !! current_state x = Some cur →
  ignore_invalid_triggers cur = Some true →
  (∀ i, i < length l →
     table_in (chain_name w (drop i l)) (transitions e) = false) →
  (∀ i, i < length l - 1 → chain_name w (drop i l) ≠ chain_name w [root]) →
  length l < fuel →
  let e1 := mkNestedEvent (event_name e)
              (mkTable (dict_set (chain_name w [root]) [] (items (transitions e)))
                       true) in
  let w1 := add_effects (with_event w m trigger_name e1)
              [Warning (invalid_trigger_msg e (chain_name w l))] in
  if default_factory (transitions e)
  then
    trigger holds fuel m trigger_name w = (Ok false, w1) ∧
    (∀ i, i < length l →
       default [] (dict_get (chain_name w (drop i l)) (items (transitions e1)))
       = []) ∧
    trigger holds fuel m trigger_name w1 = (Ok false, w1)
  else
    trigger holds fuel m trigger_name w =
      (Raise KeyError,
       add_effects w [Warning (invalid_trigger_msg e (chain_name w l))]).
Proof.
  intros Hm He Hc Hroot Hcur Hign Hnone Hdiff Hf e1 w1.
  destruct (default_factory (transitions e)) eqn:Hdf;
    [|by eapply trigger_unregistered_dict].
  split; [by eapply trigger_unregistered|].
  assert (∀ i, i < length l - 1 →
    dict_get (chain_name w (drop i l)) (items (transitions e1)) = None) as Hpre.
  { intros i Hi. cbn. rewrite dict_get_set_ne by (intros E; by apply (Hdiff i)).
    specialize (Hnone i ltac:(lia)). unfold table_in, dict_in in Hnone.
    apply bool_decide_eq_false in Hnone. by apply eq_None_not_Some. }
  apply last_Some in Hroot as [pre Hl].
  assert (length l - 1 = length pre) as Hlen by (subst l; solve_len).
  split.
  - intros i Hi. destruct (decide (i < length pre)) as [Hlt|Hge].
    + by rewrite Hpre by lia.
    + assert (i = length pre) as -> by lia. subst l.
      rewrite drop_app_length. cbn. by rewrite dict_get_set.
  - assert (m < length (machines w)) as Hmlen by (by eapply lookup_lt_Some).
    erewrite (trigger_found w1 m _ e1 trigger_name l pre root [] []); try done.
    + unfold w1, add_effects, with_event. cbn. rewrite Hm.
      by apply list_lookup_insert_eq.
    + cbn. apply dict_get_set.
    + cbn. eapply chain_nodes; [|exact Hc]. reflexivity.
    + intros i Hi. rewrite <- (chain_name_nodes w) by done.
      unfold table_in, dict_in. rewrite Hpre by lia.
      apply bool_decide_eq_false_2. by intros [? ?].
    + rewrite <- (chain_name_nodes w) by done. cbn. apply dict_get_set.
Qed.

End NestedEventFacts.

(** ** HierarchicalMachine.traverse: embedded transitions *)

Section EmbeddingFacts.

Lemma level_nodes fuel w w' r : nodes w = nodes w' → level fuel w r = level fuel w' r.
Proof.
  intros E. revert r. induction fuel as [|fuel IH]; intros r; [done|].
  cbn [level]. unfold get_node. rewrite E.
  destruct (nodes w' !! r) as [s|]; [|done]. cbn [mbind result_bind].
  destruct (parent s); [|done]. by rewrite IH.
Qed.

Lemma name_nodes fuel w w' r : nodes w = nodes w' → name fuel w r = name fuel w' r.
Proof.
  intros E. revert r. induction fuel as [|fuel IH]; intros r; [done|].
  cbn [name]. unfold get_node. rewrite E.
  destruct (nodes w' !! r) as [s|]; [|done]. cbn [mbind result_bind].
  destruct (parent s); [|done]. by rewrite IH.
Qed.

Lemma with_buffered_nil w self x :
  machines w !! self = Some x → with_buffered w self [] = w.
Proof.
  intros Hm. unfold with_buffered. rewrite Hm, app_nil_r.
  destruct w as [ns ms ds es]; simpl in *. f_equal.
  destruct x. by apply list_insert_id.
Qed.

Lemma with_buffered_lookup w self x bs :
  machines w !! self = Some x →
  machines (with_buffered w self bs) !! self =
    Some (mkMachine (states x) (events x) (current_state x)
            (machine_ignore_invalid_triggers x)
            (_buffered_transitions x ++ bs) (model x)).
Proof.
  intros Hm. unfold with_buffered. cbn. rewrite Hm.
  apply list_lookup_insert_eq. by eapply lookup_lt_Some.
Qed.

Lemma with_buffered_app w self x a b :
  machines w !! self = Some x →
  with_buffered (with_buffered w self a) self b = with_buffered w self (a ++ b).
Proof.
  intros Hm. unfold with_buffered at 1. rewrite (with_buffered_lookup _ _ _ _ Hm).
  unfold with_buffered. cbn. rewrite Hm. cbn.
  by rewrite list_insert_insert_eq, app_assoc.
Qed.

Lemma buffer_run w self x b :
  machines w !! self = Some x →
  buffer self b w = (Ok (), with_buffered w self [b]).
Proof.
  intros Hm. unfold buffer, update_machine, set_machines, with_buffered.
  by rewrite Hm.
Qed.

Lemma embedded_transition_run fuel w p pn remap trigger_name t :
  name fuel w p = Ok pn →
  embedded_transition fuel w (Some p) remap trigger_name t =
    Ok (code_embedded_transition pn remap trigger_name t).
Proof.
  intros Hp. unfold embedded_transition, code_embedded_transition, parent_name.
  rewrite Hp. by destruct (remap !! dest t).
Qed.

Lemma embedded_trigger_run fuel w p pn trigger_name :
  name fuel w p = Ok pn →
  embedded_trigger fuel w (Some p) trigger_name =
    Ok (code_embedded_trigger pn trigger_name).
Proof.
  intros Hp. unfold embedded_trigger, code_embedded_trigger, parent_name.
  rewrite Hp. by destruct (startswith _ _).
Qed.

(** C5, as the code has it: every transition of an embedded machine gives
    one buffered record, in the order of the loops; its destination is the
    entry of [remap] for the destination when there is one and the
    destination prefixed with the parent's qualified name otherwise; its
    source is the source prefixed with the parent's qualified name, whether
    [remap] has an entry for it or not. *)
Theorem embed_events_records fuel self p pn remap evs w x :
  machines w !! self = Some x →
  name fuel w p = Ok pn →
  embed_events fuel self (Some p) remap evs w =
    (Ok (), with_buffered w self (code_embedded_records pn remap evs)).
Proof.
  intros Hm Hp. unfold embed_events, code_embedded_records.
  revert w x Hm Hp. induction evs as [|[trigger_name event] evs IH]; intros w x Hm Hp.
  { cbn. by erewrite with_buffered_nil. }
  cbn [for_each mbind list_bind].
  unfold mbind at 1, M_bind at 1. unfold mbind at 1, M_bind at 1, query at 1.
  rewrite (embedded_trigger_run _ _ _ _ _ Hp).
  set (tg := code_embedded_trigger pn trigger_name).
  assert (∀ tss w x, machines w !! self = Some x → name fuel w p = Ok pn →
    for_each tss (λ ts, for_each ts (λ t,
      b ← query (λ w, embedded_transition fuel w (Some p) remap tg t);
      buffer self b)) w =
    (Ok (), with_buffered w self
       (ts ← tss; code_embedded_transition pn remap tg <$> ts))) as Hinner.
  { clear. induction tss as [|ts tss IHtss]; intros w x Hm Hp.
    { cbn. by erewrite with_buffered_nil. }
    cbn [for_each mbind list_bind]. unfold mbind at 1, M_bind at 1.
    assert (∀ w x, machines w !! self = Some x → name fuel w p = Ok pn →
      for_each ts (λ t,
        b ← query (λ w, embedded_transition fuel w (Some p) remap tg t);
        buffer self b) w =
      (Ok (), with_buffered w self (code_embedded_transition pn remap tg <$> ts)))
      as Hts.
    { clear. induction ts as [|t ts IHts]; intros w x Hm Hp.
      { cbn. by erewrite with_buffered_nil. }
      cbn [for_each fmap list_fmap]. unfold mbind at 1, M_bind at 1.
      unfold mbind at 1, M_bind at 1, query at 1.
      rewrite (embedded_transition_run _ _ _ _ _ _ _ Hp).
      rewrite (buffer_run _ _ _ _ Hm).
      erewrite IHts; [|by apply with_buffered_lookup|by erewrite <- name_nodes].
      by erewrite with_buffered_app. }
    erewrite Hts by done.
    erewrite IHtss; [|by apply with_buffered_lookup|by erewrite <- name_nodes].
    by erewrite with_buffered_app. }
  erewrite Hinner by done.
  erewrite IH; [|by apply with_buffered_lookup|by erewrite <- name_nodes].
  by erewrite with_buffered_app.
Qed.

End EmbeddingFacts.

(** ** HierarchicalMachine.traverse: what it writes to *)

Section Frame.

(** The sizes of the store when the call starts, and the machine that
    runs [traverse]. *)
Variables (kn km kd : nat) (self : ref).

Local Abbreviation frame := (frame kn km kd self).
Local Abbreviation copies_closed := (copies_closed kn km kd).
Local Abbreviation keeps := (keeps kn km kd self).

Lemma frame_refl w : frame w w.
Proof. repeat split; try done. intros x Hx. exists x. by repeat split. Qed.

Lemma frame_trans w1 w2 w3 : frame w1 w2 → frame w2 w3 → frame w1 w3.
Proof.
  intros (N1 & D1 & M1 & S1) (N2 & D2 & M2 & S2). repeat split.
  - intros i Hi. by rewrite N2, N1.
  - intros i Hi. by rewrite D2, D1.
  - intros i Hi Hne. by rewrite M2, M1.
  - intros x Hx. destruct (S1 _ Hx) as (x' & Hx' & E1 & E2 & E3 & E4 & E5).
    destruct (S2 _ Hx') as (x'' & Hx'' & F1 & F2 & F3 & F4 & F5).
    exists x''. repeat split; congruence.
Qed.

Lemma keeps_pure {A} (m : M A) w :
  copies_closed w → (∀ w, (m w).2 = w) → keeps m w.
Proof.
  intros Hc Hm r w' Hrun. specialize (Hm w). rewrite Hrun in Hm. simpl in Hm.
  subst w'. split; [apply frame_refl|done].
Qed.

Lemma keeps_bind {A B} (m : M A) (k : A → M B) w :
  keeps m w →
  (∀ a w1, m w = (Ok a, w1) → copies_closed w1 → keeps (k a) w1) →
  keeps (m ≫= k) w.
Proof.
  intros Hm Hk r w' Hrun. unfold mbind, M_bind in Hrun.
  destruct (m w) as [[a| |] w1] eqn:E.
  - destruct (Hm _ _ E) as [F1 C1].
    destruct (Hk a w1 eq_refl C1 _ _ Hrun) as [F2 C2].
    split; [by eapply frame_trans|done].
  - injection Hrun as <- <-. by apply (Hm _ _ E).
  - injection Hrun as <- <-. by apply (Hm _ _ E).
Qed.

Lemma keeps_for_each {A} (l : list A) (f : A → M unit) w :
  copies_closed w →
  (∀ x w, x ∈ l → copies_closed w → keeps (f x) w) →
  keeps (for_each l f) w.
Proof.
  revert w. induction l as [|x l IH]; intros w Hc Hf.
  - apply keeps_pure; done.
  - cbn [for_each]. apply keeps_bind.
    + apply Hf; [left|done].
    + intros _ w1 _ Hc1. apply IH; [done|]. intros y w2 Hy. apply Hf. by right.
Qed.

Lemma keeps_new_NestedState s w :
  copies_closed w → keeps (new_NestedState s) w.
Proof.
  intros (Hn & Hm & Hd & HM & HD) r w' [= <- <-]. split.
  - repeat split; try done.
    + intros i Hi. cbn. apply lookup_app_l. lia.
    + intros x Hx. exists x. by repeat split.
  - repeat split; cbn; try done. rewrite length_app. lia.
Qed.

Lemma keeps_update_node r f w :
  copies_closed w → kn ≤ r → keeps (update_node r f) w.
Proof.
  intros (Hn & Hm & Hd & HM & HD) Hr res w' [= <- <-]. split.
  - repeat split; try done.
    + intros i Hi. cbn. destruct (nodes w !! r); [|done].
      apply list_lookup_insert_ne. lia.
    + intros x Hx. exists x. by repeat split.
  - repeat split; cbn; try done.
    destruct (nodes w !! r); [|done]. by rewrite length_insert.
Qed.

Lemma keeps_buffer b w : copies_closed w → keeps (buffer self b) w.
Proof.
  intros (Hn & Hm & Hd & HM & HD) res w' [= <- <-]. split.
  - repeat split; try done.
    + intros i Hi Hne. cbn. destruct (machines w !! self); [|done].
      by apply list_lookup_insert_ne.
    + intros x Hx. cbn. rewrite Hx. eexists. split.
      * apply list_lookup_insert_eq. by eapply lookup_lt_Some.
      * by repeat split.
  - repeat split; cbn; try done.
    + destruct (machines w !! self); [|done]. by rewrite length_insert.
    + intros i x Hi Hx. destruct (machines w !! self) as [y|] eqn:Hy; [|by eapply HM].
      destruct (decide (i = self)) as [->|Hne].
      * rewrite list_lookup_insert_eq in Hx by (by eapply lookup_lt_Some).
        injection Hx as <-. cbn. by eapply HM.
      * rewrite list_lookup_insert_ne in Hx by done. by eapply HM.
Qed.

Lemma keeps_embed_events fuel parent' remap evs w :
  copies_closed w → keeps (embed_events fuel self parent' remap evs) w.
Proof.
  intros Hc. unfold embed_events. apply keeps_for_each; [done|].
  intros [trigger_name event] w1 _ Hc1. apply keeps_bind.
  { by apply keeps_pure. }
  intros trigger' w2 _ Hc2. apply keeps_for_each; [done|].
  intros ts w3 _ Hc3. apply keeps_for_each; [done|].
  intros t w4 _ Hc4. apply keeps_bind.
  { by apply keeps_pure. }
  intros b w5 _ Hc5. by apply keeps_buffer.
Qed.

Lemma copy_spec_above a b c s : km ≤ b → spec_above km (copy_spec a b c s).
Proof. destruct s; simpl; try done. lia. Qed.

Lemma keeps_deepcopy d w : copies_closed w → keeps (deepcopy d) w.
Proof.
  intros (Hn & Hm & Hd & HM & HD) res w' [= <- <-]. split.
  - repeat split; try done; cbn.
    + intros i Hi. apply lookup_app_l. lia.
    + intros i Hi. apply lookup_app_l. lia.
    + intros i Hi Hne. apply lookup_app_l. lia.
    + intros x Hx. exists x. split; [|by repeat split].
      rewrite lookup_app_l; [done|]. by eapply lookup_lt_Some.
  - repeat split; cbn; rewrite ?length_app; try lia.
    + intros i x Hi Hx. apply lookup_app_Some in Hx as [Hx|[Hi' Hx]]; [by eapply HM|].
      apply list_lookup_fmap_Some in Hx as (y & -> & Hy).
      unfold copy_machine, dict_values. cbn.
      rewrite <- list_fmap_compose. apply Forall_fmap, Forall_forall.
      intros [k r] _. cbn. lia.
    + intros i sd a Hi Hx Ha.
      apply lookup_app_Some in Hx as [Hx|[Hi' Hx]]; [by eapply HD|].
      apply list_lookup_fmap_Some in Hx as (y & -> & Hy).
      unfold copy_dict in Ha. cbn in Ha.
      destruct (d_children y) as [a0|]; [|done]. injection Ha as <-.
      unfold arg_above. destruct a0 as [s|l]; cbn.
      * constructor; [|done]. by apply copy_spec_above.
      * apply Forall_fmap, Forall_forall. intros s _. by apply copy_spec_above.
Qed.

Lemma keeps_set_dict i sd w :
  copies_closed w → kd ≤ i →
  (∀ a, d_children sd = Some a → arg_above km a) →
  keeps (set_dicts (λ ds, <[i := sd]> ds)) w.
Proof.
  intros (Hn & Hm & Hd & HM & HD) Hi Hsd res w' [= <- <-]. split.
  - repeat split; try done.
    + intros j Hj. cbn. apply list_lookup_insert_ne. lia.
    + intros x Hx. exists x. by repeat split.
  - repeat split; cbn; try done.
    + by rewrite length_insert.
    + intros j d a Hj Hx Ha. destruct (decide (i = j)) as [->|Hne].
      * destruct (decide (j < length (dicts w))).
        -- rewrite list_lookup_insert_eq in Hx by done. injection Hx as <-. eauto.
        -- rewrite list_insert_ge in Hx by lia. by eapply HD.
      * rewrite list_lookup_insert_ne in Hx by done. by eapply HD.
Qed.

Lemma root_states_sub fuel w remap l rs :
  root_states fuel w remap l = Ok rs → rs ⊆ l.
Proof.
  revert rs. induction l as [|s l IH]; intros rs; cbn [root_states].
  - by intros [= <-].
  - destruct (level fuel w s) as [lv| |]; cbn [mbind result_bind]; [|done..].
    destruct (if (lv =? 0)%nat then _ else _) as [keep| |];
      cbn [mbind result_bind]; [|done..].
    destruct (root_states fuel w remap l) as [rest| |];
      cbn [mbind result_bind]; [|done..].
    intros [= <-]. specialize (IH _ eq_refl). intros r Hr.
    destruct keep; [apply elem_of_cons in Hr as [->|Hr]|];
      [left|right; by apply IH|right; by apply IH].
Qed.

(** One turn of the loop keeps the frame when the recursive call does. *)
Lemma keeps_traverse_state rec fuel oe ox ign parent' remap state acc w :
  (∀ a oe ox ign parent' remap w,
     arg_above km a → copies_closed w →
     keeps (rec a oe ox ign parent' remap) w) →
  spec_above km state → copies_closed w →
  keeps (traverse_state rec fuel self oe ox ign parent' remap state acc) w.
Proof.
  intros Hrec Hs Hc. destruct state as [s|d|m|n|]; cbn [traverse_state].
  - case_bool_decide; [by apply keeps_pure|].
    apply keeps_bind; [by apply keeps_new_NestedState|].
    intros r w1 _ Hc1. by apply keeps_pure.
  - apply keeps_bind; [by apply keeps_deepcopy|].
    intros state' w1 Hcp Hc1. injection Hcp as <- _.
    apply keeps_bind; [by apply keeps_pure|].
    intros sd w2 Hq Hc2. unfold query in Hq. injection Hq as Hq <-.
    unfold get_dict in Hq.
    revert Hq.
    destruct (dicts w1 !! (d + length (dicts w))) as [sd0|] eqn:Hsd; [|done].
    intros [= <-].
    assert (kd ≤ d + length (dicts w)) as Hge by (destruct Hc as (_ & _ & ? & _); lia).
    assert (∀ a, d_children sd0 = Some a → arg_above km a) as Hkids.
    { intros a Ha. destruct Hc1 as (_ & _ & _ & _ & HD). by eapply HD. }
    apply keeps_bind; [by apply keeps_set_dict|].
    intros _ w3 _ Hc3. cbn [d_children d_name d_remap d_on_enter d_on_exit
                            d_ignore_invalid_triggers].
    destruct (d_children sd0) as [kids|].
    + destruct (d_name sd0) as [nm|]; [|by apply keeps_pure].
      apply keeps_bind; [by apply keeps_new_NestedState|].
      intros p w4 Hp Hc4. injection Hp as <- _.
      apply keeps_bind; [apply Hrec; eauto|].
      intros kids' w5 _ Hc5.
      apply keeps_bind.
      { apply keeps_update_node; [done|]. destruct Hc3 as (? & _). lia. }
      intros _ w6 _ Hc6. by apply keeps_pure.
    + destruct (d_name sd0) as [nm|], (d_remap sd0); try by apply keeps_pure.
      apply keeps_bind; [by apply keeps_new_NestedState|].
      intros r w4 _ Hc4. by apply keeps_pure.
  - apply keeps_bind; [by apply keeps_pure|].
    intros x w1 Hq Hc1. unfold query in Hq. injection Hq as Hq <-.
    unfold get_machine in Hq. revert Hq.
    destruct (machines w !! m) as [x0|] eqn:Hx; [|done].
    intros [= <-].
    apply keeps_bind; [by apply keeps_pure|].
    intros rs w2 Hq Hc2. unfold query in Hq. injection Hq as Hq <-.
    apply root_states_sub in Hq.
    assert (Forall (λ r, kn ≤ r) rs) as Hrs.
    { destruct Hc as (_ & _ & _ & HM & _). simpl in Hs.
      specialize (HM _ _ Hs Hx). rewrite Forall_forall in HM |- *.
      intros r Hr. apply HM. by apply Hq. }
    apply keeps_bind.
    { apply keeps_for_each; [done|]. intros r w3 Hr Hc3.
      apply keeps_update_node; [done|]. rewrite Forall_forall in Hrs. by apply Hrs. }
    intros _ w3 _ Hc3. apply keeps_bind; [by apply keeps_embed_events|].
    intros _ w4 _ Hc4. by apply keeps_pure.
  - by apply keeps_pure.
  - by apply keeps_pure.
Qed.

Lemma keeps_traverse_states rec fuel oe ox ign parent' remap l : ∀ acc w,
  (∀ a oe ox ign parent' remap w,
     arg_above km a → copies_closed w →
     keeps (rec a oe ox ign parent' remap) w) →
  Forall (spec_above km) l → copies_closed w →
  keeps (traverse_states rec fuel self oe ox ign parent' remap l acc) w.
Proof.
  induction l as [|state l IH]; intros acc w Hrec Hl Hc; cbn [traverse_states].
  - by apply keeps_pure.
  - apply Forall_cons in Hl as [Hs Hl]. apply keeps_bind.
    + by apply keeps_traverse_state.
    + intros [acc' tmp] w1 _ Hc1. by apply IH.
Qed.

(** [traverse], called on specifications that name no machine instance
    made before the call started, writes to no object made before the call
    started, but for the buffer of the machine itself. *)
Lemma keeps_traverse fuel : ∀ a oe ox ign parent' remap w,
  arg_above km a → copies_closed w →
  keeps (traverse fuel self a oe ox ign parent' remap) w.
Proof.
  induction fuel as [|fuel IH]; intros a oe ox ign parent' remap w Ha Hc;
    cbn [traverse].
  - by apply keeps_pure.
  - apply keeps_bind; [by apply keeps_pure|].
    intros x w1 _ Hc1. by apply keeps_traverse_states.
Qed.

End Frame.

(** ** HierarchicalMachine.traverse: embedding a machine *)

Section MachineBranch.

Lemma same_nodes_bind {A B} (m : M A) (k : A → M B) :
  same_nodes m → (∀ a, same_nodes (k a)) → same_nodes (m ≫= k).
Proof.
  intros Hm Hk w r w' Hrun. unfold mbind, M_bind in Hrun.
  destruct (m w) as [[a| |] w1] eqn:E.
  - rewrite (Hk _ _ _ _ Hrun). eauto.
  - injection Hrun as <- <-. eauto.
  - injection Hrun as <- <-. eauto.
Qed.

Lemma same_nodes_for_each {A} (l : list A) (f : A → M unit) :
  (∀ x, same_nodes (f x)) → same_nodes (for_each l f).
Proof.
  intros Hf. induction l as [|x l IH]; cbn [for_each].
  - by intros w r w' [= <- <-].
  - apply same_nodes_bind; [done|]. by intros _.
Qed.

Lemma same_nodes_embed_events fuel self parent' remap evs :
  same_nodes (embed_events fuel self parent' remap evs).
Proof.
  unfold embed_events. apply same_nodes_for_each. intros [trigger_name event].
  apply same_nodes_bind; [by intros w r w' [= <- <-]|]. intros trigger'.
  apply same_nodes_for_each. intros ts. apply same_nodes_for_each. intros t.
  apply same_nodes_bind; [by intros w r w' [= <- <-]|]. intros b.
  by intros w r w' [= <- <-].
Qed.

Lemma reparented_idem q s : reparented q (reparented q s) = reparented q s.
Proof. done. Qed.

(** [for s in new_states: s.parent = parent] *)
Lemma for_each_set_parent q rs : ∀ w, ∃ w1,
  for_each rs (set_parent q) w = (Ok (), w1) ∧
  length (nodes w1) = length (nodes w) ∧
  machines w1 = machines w ∧ dicts w1 = dicts w ∧
  (∀ r s, r ∈ rs → nodes w !! r = Some s →
     nodes w1 !! r = Some (reparented q s)) ∧
  (∀ r, r ∉ rs → nodes w1 !! r = nodes w !! r).
Proof.
  induction rs as [|r0 rs IH]; intros w.
  - exists w. repeat split; try done. intros r s Hr. by apply elem_of_nil in Hr.
  - cbn [for_each]. unfold mbind at 1, M_bind at 1.
    unfold set_parent at 1, update_node, set_nodes.
    match goal with |- context [for_each rs _ ?w0] =>
      destruct (IH w0) as (w1 & Hrun & Hlen & Hms & Hds & Hin & Hout) end.
    exists w1. rewrite Hrun. cbn [nodes machines dicts] in *.
    split; [done|]. split.
    { rewrite Hlen. destruct (nodes w !! r0); [|done]. by rewrite length_insert. }
    split; [done|]. split; [done|]. split.
    + intros r s Hr Hs. destruct (decide (r ∈ rs)) as [Hrs|Hrs].
      * destruct (decide (r = r0)) as [->|Hne].
        -- rewrite Hs in Hin. erewrite Hin; [|done|].
           2:{ apply list_lookup_insert_eq. by eapply lookup_lt_Some. }
           done.
        -- apply Hin; [done|]. destruct (nodes w !! r0); [|done].
           by rewrite list_lookup_insert_ne.
      * apply elem_of_cons in Hr as [->|?]; [|done].
        rewrite Hout by done. rewrite Hs.
        apply list_lookup_insert_eq. by eapply lookup_lt_Some.
    + intros r Hr. apply not_elem_of_cons in Hr as [Hne Hr].
      rewrite Hout by done. destruct (nodes w !! r0); [|done].
      by rewrite list_lookup_insert_ne.
Qed.

Lemma level_zero_root fuel w r :
  level fuel w r = Ok 0 → ∃ s, nodes w !! r = Some s ∧ parent s = None.
Proof.
  destruct fuel as [|fuel]; [done|]. cbn [level]. unfold get_node.
  destruct (nodes w !! r) as [s|]; [|done]. cbn [mbind result_bind].
  destruct (parent s) as [p|] eqn:Hp; [|eauto].
  destruct (level fuel w p); cbn [mbind result_bind]; [|done..].
  intros [= ?]. lia.
Qed.

Lemma root_states_roots fuel w remap l rs :
  root_states fuel w remap l = Ok rs →
  ∀ r, r ∈ rs → ∃ s, nodes w !! r = Some s ∧ parent s = None.
Proof.
  revert rs. induction l as [|s l IH]; intros rs; cbn [root_states].
  - intros [= <-] r Hr. by apply elem_of_nil in Hr.
  - destruct (level fuel w s) as [lv| |] eqn:Hlv; cbn [mbind result_bind]; [|done..].
    destruct (if (lv =? 0)%nat then _ else _) as [keep| |] eqn:Hk;
      cbn [mbind result_bind]; [|done..].
    destruct (root_states fuel w remap l) as [rest| |];
      cbn [mbind result_bind]; [|done..].
    intros [= <-] r Hr. destruct keep; [|by eapply IH].
    apply elem_of_cons in Hr as [->|Hr]; [|by eapply IH].
    destruct (lv =? 0)%nat eqn:E; [|done]. apply Nat.eqb_eq in E. subst lv.
    by eapply level_zero_root.
Qed.

(** The turn of the loop for a machine instance. *)
Lemma traverse_state_machine rec fuel self oe ox ign parent' remap m acc w
    ns tmp w' :
  traverse_state rec fuel self oe ox ign parent' remap (SMachine m) acc w
    = (Ok (ns, tmp), w') →
  ∃ x, machines w !! m = Some x ∧
    root_states fuel w remap (dict_values (states x)) = Ok ns ∧ tmp = ns ∧
    length (nodes w') = length (nodes w) ∧
    (∀ r, r ∈ ns → ∃ s, nodes w !! r = Some s ∧ parent s = None ∧
                        nodes w' !! r = Some (reparented parent' s)) ∧
    (∀ r, r ∉ ns → nodes w' !! r = nodes w !! r).
Proof.
  cbn [traverse_state]. intros Hrun.
  apply bind_ok_inv in Hrun as (x & w1 & [Hx ->]%query_ok_inv & Hrun).
  apply bind_ok_inv in Hrun as (rs & w1 & [Hrs ->]%query_ok_inv & Hrun).
  apply bind_ok_inv in Hrun as ([] & w1 & Hset & Hrun).
  apply bind_ok_inv in Hrun as ([] & w2 & Hev & Hrun).
  injection Hrun as <- <- <-.
  unfold get_machine in Hx. destruct (machines w !! m) as [x0|] eqn:Hm; [|done].
  injection Hx as <-. exists x0. split; [done|]. split; [done|]. split; [done|].
  destruct (for_each_set_parent parent' rs w)
    as (w1' & Hset' & Hlen & _ & _ & Hin & Hout).
  rewrite Hset in Hset'. injection Hset' as <-.
  apply same_nodes_embed_events in Hev. rewrite Hev. split; [done|]. split; [|done].
  intros r Hr. destruct (root_states_roots _ _ _ _ _ Hrs r Hr) as (s & Hs & Hp).
  exists s. eauto.
Qed.

(** C4, on the code as it is: the turn for a machine instance assigns
    [new_states] anew, so the node made for a name that comes before the
    machine instance is not in the list returned, and the list returned
    holds every embedded root state twice. *)
Theorem traverse_forgets_earlier_states fuel self a m oe ox ign parent'
    remap w l w' :
  remap !! a = None →
  (∀ x, machines w !! m = Some x →
     Forall (λ r, r < length (nodes w)) (dict_values (states x))) →
  traverse (S fuel) self (Many [SStr a; SMachine m]) oe ox ign parent' remap w
    = (Ok l, w') →
  (∃ s, nodes w' !! length (nodes w) = Some s ∧ _name s = a) ∧
  (length (nodes w) ∉ l) ∧
  (∃ rs, l = rs ++ rs).
Proof.
  intros Ha Hvalid Hrun. cbn [traverse listify traverse_states] in Hrun.
  apply bind_ok_inv in Hrun as (x & w1 & [Hx ->]%query_ok_inv & Hrun).
  apply bind_ok_inv in Hrun as ([ns1 tmp1] & w1 & H1 & Hrun).
  apply bind_ok_inv in Hrun as ([ns2 tmp2] & w2 & H2 & Hrun).
  injection Hrun as <- <-.
  cbn [traverse_state] in H1. rewrite Ha in H1.
  rewrite bool_decide_eq_false_2 in H1 by (by intros [? ?]).
  apply bind_ok_inv in H1 as (r & w0 & Hnew & H1).
  injection H1 as <- <- <-. injection Hnew as <- <-.
  apply traverse_state_machine in H2
    as (y & Hy & Hrs & -> & Hlen & Hin & Hout).
  cbn [machines nodes] in *.
  assert (length (nodes w) ∉ ns2) as Hfresh.
  { intros Hr. apply root_states_sub in Hrs.
    specialize (Hvalid _ Hy). rewrite Forall_forall in Hvalid.
    specialize (Hvalid _ (Hrs _ Hr)). lia. }
  split; [|split].
  - rewrite Hout by done. rewrite lookup_app_r, Nat.sub_diag by done. eauto.
  - rewrite elem_of_app. tauto.
  - by exists ns2.
Qed.

Lemma level_cases fuel w r lv :
  level fuel w r = Ok lv →
  ∃ s, nodes w !! r = Some s ∧
    (if (lv =? 0)%nat then parent s = None else parent s ≠ None).
Proof.
  destruct fuel as [|fuel]; [done|]. cbn [level]. unfold get_node.
  destruct (nodes w !! r) as [s|]; [|done]. cbn [mbind result_bind].
  destruct (parent s) as [q|] eqn:Hq.
  - destruct (level fuel w q) as [lq| |]; cbn [mbind result_bind]; [|done..].
    intros [= <-]. exists s. split; [done|].
    replace (lq + 1 =? 0)%nat with false by (symmetry; apply Nat.eqb_neq; lia).
    by rewrite Hq.
  - intros [= <-]. exists s. by split.
Qed.

Lemma name_root fuel w r s n :
  nodes w !! r = Some s → parent s = None → name fuel w r = Ok n → n = _name s.
Proof.
  intros Hs Hp. destruct fuel as [|fuel]; [done|]. cbn [name]. unfold get_node.
  rewrite Hs. cbn [mbind result_bind]. rewrite Hp. by intros [= <-].
Qed.

(** The states that [traverse] takes from a machine instance are, in the
    order of its registry, those without parent whose name is no key of
    [remap]. *)
Lemma root_states_filter fuel w remap l : ∀ rs,
  root_states fuel w remap l = Ok rs →
  rs = filter (λ r, embeddable w remap r = true) l.
Proof.
  induction l as [|r l IH]; intros rs; cbn [root_states].
  - by intros [= <-].
  - destruct (level fuel w r) as [lv| |] eqn:Hlv; cbn [mbind result_bind];
      [|done..].
    destruct (level_cases _ _ _ _ Hlv) as (s & Hs & Hp).
    destruct (lv =? 0)%nat.
    + destruct (name fuel w r) as [n| |] eqn:Hn; cbn [mbind result_bind];
        [|done..].
      apply (name_root _ _ _ _ _ Hs Hp) in Hn as ->.
      destruct (root_states fuel w remap l) as [rest| |];
        cbn [mbind result_bind]; [|done..].
      intros [= <-]. rewrite (IH _ eq_refl), filter_cons.
      assert (embeddable w remap r
              = negb (bool_decide (is_Some (remap !! _name s)))) as ->.
      { unfold embeddable. rewrite Hs, bool_decide_eq_true_2 by done.
        cbn [andb]. destruct (remap !! _name s) as [ext|].
        - rewrite bool_decide_eq_false_2 by done.
          by rewrite bool_decide_eq_true_2 by eauto.
        - rewrite bool_decide_eq_true_2 by done.
          by rewrite bool_decide_eq_false_2 by (by intros [? ?]). }
      by destruct (negb _).
    + cbn [mbind result_bind].
      destruct (root_states fuel w remap l) as [rest| |];
        cbn [mbind result_bind]; [|done..].
      intros [= <-]. rewrite (IH _ eq_refl), filter_cons.
      assert (embeddable w remap r = false) as ->.
      { unfold embeddable. by rewrite Hs, bool_decide_eq_false_2 by done. }
      done.
Qed.

Lemma filter_embeddable_frame w w1 remap (l : list ref) :
  Forall (λ r, nodes w1 !! r = nodes w !! r) l →
  filter (λ r, embeddable w1 remap r = true) l
  = filter (λ r, embeddable w remap r = true) l.
Proof.
  induction 1 as [|r l Hr _ IH]; [done|].
  assert (embeddable w1 remap r = embeddable w remap r) as E.
  { unfold embeddable. by rewrite Hr. }
  rewrite !filter_cons, IH.
  destruct (decide (embeddable w1 remap r = true)) as [H1|H1];
    destruct (decide (embeddable w remap r = true)) as [H2|H2];
    congruence.
Qed.

Lemma traverse_states_app rec fuel self oe ox ign parent' remap l1 l2 :
  ∀ acc w,
  traverse_states rec fuel self oe ox ign parent' remap (l1 ++ l2) acc w =
    (acc1 ← traverse_states rec fuel self oe ox ign parent' remap l1 acc;
     traverse_states rec fuel self oe ox ign parent' remap l2 acc1) w.
Proof.
  induction l1 as [|s l1 IH]; intros acc w; [done|].
  cbn [app traverse_states]. unfold mbind, M_bind.
  destruct (traverse_state _ _ _ _ _ _ _ _ _ _ w) as [[[ns tmp]| |] w1];
    [|done..].
  apply IH.
Qed.

(** The nodes that existed before a call of [traverse] whose [states] holds
    one machine instance directly, anywhere in the list: the states taken
    from the instance have the parent of the call, the others are as they
    were. *)
Lemma traverse_reparents fuel self a before m after y oe ox ign p remap w l w' :
  listify a = before ++ SMachine m :: after →
  Forall (λ s, ∀ m', s ≠ SMachine m') (before ++ after) →
  machines w !! m = Some y →
  Forall (λ r, r < length (nodes w)) (dict_values (states y)) →
  traverse (S fuel) self a oe ox ign (Some p) remap w = (Ok l, w') →
  ∀ r, r < length (nodes w) →
    nodes w' !! r =
      if decide (r ∈ filter (λ r, embeddable w remap r = true)
                        (dict_values (states y)))
      then reparented (Some p) <$> nodes w !! r
      else nodes w !! r.
Proof.
  intros Ha Hno Hy Hvalid Hrun.
  set (kn := length (nodes w)). set (km := length (machines w)).
  set (kd := length (dicts w)).
  assert (copies_closed kn km kd w) as Hc0.
  { repeat split; try done.
    - intros i x Hi Hx. apply lookup_lt_Some in Hx. unfold km in Hi. lia.
    - intros i d b Hi Hx. apply lookup_lt_Some in Hx. unfold kd in Hi. lia. }
  assert (∀ l0, Forall (λ s, ∀ m', s ≠ SMachine m') l0 →
                Forall (spec_above km) l0) as Habove.
  { intros l0 H0. eapply Forall_impl; [exact H0|].
    intros [] Hs; try done. by destruct (Hs m0). }
  apply Forall_app in Hno as [Hbefore Hafter].
  cbn [traverse] in Hrun.
  apply bind_ok_inv in Hrun as (x & w0 & [Hx ->]%query_ok_inv & Hrun).
  rewrite Ha, traverse_states_app in Hrun.
  apply bind_ok_inv in Hrun as (acc1 & w1 & Hrun1 & Hrun).
  destruct (keeps_traverse_states kn km kd self (traverse fuel self) fuel
              _ _ _ _ _ before [] w
              ltac:(intros; by apply keeps_traverse) (Habove _ Hbefore) Hc0
              _ _ Hrun1) as [F1 C1].
  cbn [traverse_states traverse_state] in Hrun.
  apply bind_ok_inv in Hrun as ([ns tmp] & w2 & Hturn & Hrun).
  apply bind_ok_inv in Hturn as (y1 & w0 & [Hy1 ->]%query_ok_inv & Hturn).
  apply bind_ok_inv in Hturn as (rs & w0 & [Hrs ->]%query_ok_inv & Hturn).
  apply bind_ok_inv in Hturn as ([] & w1a & Hset & Hturn).
  apply bind_ok_inv in Hturn as ([] & w2' & Hev & Hturn).
  injection Hturn as <- <- <-.
  destruct (for_each_set_parent (Some p) rs w1)
    as (w1b & Hset' & Hlen & Hms & Hds & Hin & Hout).
  rewrite Hset in Hset'. injection Hset' as <-.
  assert (copies_closed kn km kd w1a) as C1a.
  { destruct C1 as (Cn & Cm & Cd & Cs & Ck).
    repeat split; rewrite ?Hlen, ?Hms, ?Hds; done. }
  destruct (keeps_embed_events kn km kd self fuel (Some p) remap (events y1)
              w1a C1a _ _ Hev) as [F2 C2].
  destruct (keeps_traverse_states kn km kd self (traverse fuel self) fuel
              _ _ _ _ _ after _ w2'
              ltac:(intros; by apply keeps_traverse) (Habove _ Hafter) C2
              _ _ Hrun) as [F3 C3].
  destruct F1 as (N1 & _ & M1 & S1). destruct F2 as (N2 & _).
  destruct F3 as (N3 & _).
  (* the registry of the instance is the one it had before the call *)
  assert (states y1 = states y) as Hst.
  { unfold get_machine in Hy1.
    destruct (machines w1 !! m) as [y1'|] eqn:Hm1; [|done].
    injection Hy1 as <-.
    destruct (decide (m = self)) as [->|Hne].
    - destruct (S1 _ Hy) as (x' & Hx' & E & _). congruence.
    - rewrite M1 in Hm1; [congruence| |done].
      by eapply lookup_lt_Some. }
  apply root_states_filter in Hrs. rewrite Hst in Hrs.
  rewrite (filter_embeddable_frame w) in Hrs; last first.
  { eapply Forall_impl; [exact Hvalid|]. intros r Hr. by apply N1. }
  subst rs. intros r Hr. rewrite N3, N2 by done. case_decide as Hin'.
  - destruct (lookup_lt_is_Some_2 (nodes w) r Hr) as [s Hs].
    rewrite Hs. apply Hin; [done|]. by rewrite N1.
  - by rewrite Hout, N1.
Qed.

(** C9, as the code has it: a machine instance that [traverse] meets
    directly in [states], alone or anywhere in a list, has its states
    without parent (but for those whose name is a key of [remap]) given the
    parent of the call in place, without a copy: these objects of its
    registry, which had level 0 and their own name as qualified name, have
    afterwards the level of the parent plus one and the qualified name of
    the parent followed by their own, and no other object that existed has
    another parent.  A call whose [states] holds no machine instance
    directly, with what its dictionaries hold copied before use, leaves
    every object that existed before the call as it was, the caller's
    dictionaries and the machine instances and nodes they hold among them;
    only the buffer of the machine itself grows. *)
Theorem traverse_mutates_direct_machines_only fuel self oe ox ign remap w :
  (∀ a before m after y p l w',
     listify a = before ++ SMachine m :: after →
     Forall (λ s, ∀ m', s ≠ SMachine m') (before ++ after) →
     machines w !! m = Some y →
     Forall (λ r, r < length (nodes w)) (dict_values (states y)) →
     traverse (S fuel) self a oe ox ign (Some p) remap w = (Ok l, w') →
     let rs := filter (λ r, embeddable w remap r = true)
                 (dict_values (states y)) in
     (∀ r, r < length (nodes w) →
        nodes w' !! r = if decide (r ∈ rs)
                        then reparented (Some p) <$> nodes w !! r
                        else nodes w !! r) ∧
     (∀ r s, nodes w !! r = Some s → r ∈ dict_values (states y) →
        parent s = None → remap !! _name s = None → r ∈ rs) ∧
     (∀ r, r ∈ rs → ∃ s,
        nodes w !! r = Some s ∧
        nodes w' !! r = Some (reparented (Some p) s) ∧
        (∀ f, level (S f) w r = Ok 0 ∧ name (S f) w r = Ok (_name s)) ∧
        (∀ f, level (S f) w' r = (lp ← level f w' p; Ok (lp + 1)) ∧
              name (S f) w' r =
                (np ← name f w' p; Ok (np +:+ separator +:+ _name s))))) ∧
  (∀ a parent' r w',
     Forall (λ s, ∀ m, s ≠ SMachine m) (listify a) →
     traverse fuel self a oe ox ign parent' remap w = (r, w') →
     untouched self w w').
Proof.
  split.
  - intros a before m after y p l w' Ha Hno Hy Hvalid Hrun rs.
    pose proof (traverse_reparents _ _ _ _ _ _ _ _ _ _ _ _ _ _ _
                  Ha Hno Hy Hvalid Hrun) as Hnodes.
    fold rs in Hnodes. split; [exact Hnodes|]. split.
    + intros r s Hs Hr Hp Hremap. apply list_elem_of_filter. split; [|done].
      unfold embeddable. rewrite Hs.
      by rewrite !bool_decide_eq_true_2.
    + intros r Hr. pose proof Hr as Hr'.
      apply list_elem_of_filter in Hr' as [Hemb Hin].
      rewrite Forall_forall in Hvalid. specialize (Hvalid r Hin).
      unfold embeddable in Hemb.
      destruct (nodes w !! r) as [s|] eqn:Hs; [|done].
      apply andb_prop in Hemb as [Hp%bool_decide_eq_true _].
      specialize (Hnodes r Hvalid). rewrite decide_True in Hnodes by done.
      rewrite Hs in Hnodes. cbn [fmap option_fmap option_map] in Hnodes.
      exists s. split; [done|]. split; [done|]. split.
      * intros f. cbn [level name]. unfold get_node.
        rewrite Hs. cbn [mbind result_bind]. by rewrite Hp.
      * intros f. cbn [level name]. unfold get_node.
        rewrite Hnodes. by cbn.
  - intros a parent' r w' Ha Hrun.
    eapply (keeps_traverse _ _ _ self fuel); [| |exact Hrun].
    + unfold arg_above. eapply Forall_impl; [exact Ha|].
      intros [] Hs; try done. by destruct (Hs m).
    + repeat split; try done.
      * intros i x Hi Hx. apply lookup_lt_Some in Hx. lia.
      * intros i d b Hi Hx. apply lookup_lt_Some in Hx. lia.
Qed.

End MachineBranch.

(** ** HierarchicalMachine.add_transition *)

Section OrchestratorFacts.

Variable class_attr : string → bool.
Variable model_class_attr : string → bool.
Variable isdigit : string → bool.

Lemma table_append_list k t tb tb' k' :
  table_append k t tb = Ok tb' →
  table_list k' tb' = table_list k' tb ++ (if decide (k = k') then [t] else []).
Proof.
  unfold table_append, table_getitem, table_list.
  destruct (dict_get k (items tb)) as [ts|] eqn:Hk; cbn [mbind result_bind].
  - intros [= <-]. cbn [items]. case_decide as E.
    + subst k'. by rewrite dict_get_set, Hk.
    + by rewrite dict_get_set_ne, app_nil_r.
  - destruct (default_factory tb); [|done]. cbn [mbind result_bind].
    intros [= <-]. cbn [items]. case_decide as E.
    + subst k'. by rewrite dict_get_set, Hk.
    + by rewrite !dict_get_set_ne, app_nil_r.
Qed.

Lemma set_event_run w self x trigger_name e :
  machines w !! self = Some x →
  set_event self trigger_name e w = (Ok (), with_event w self trigger_name e).
Proof.
  intros Hm. unfold set_event, update_machine, set_machines, with_event.
  by rewrite Hm.
Qed.

Lemma with_event_lookup w self x trigger_name e :
  machines w !! self = Some x →
  machines (with_event w self trigger_name e) !! self =
    Some (mkMachine (states x) (dict_set trigger_name e (events x))
            (current_state x) (machine_ignore_invalid_triggers x)
            (_buffered_transitions x) (model x)).
Proof.
  intros Hm. unfold with_event. cbn. rewrite Hm.
  apply list_lookup_insert_eq. by eapply lookup_lt_Some.
Qed.

Lemma registered_with_event w self x trigger_name e k :
  machines w !! self = Some x →
  registered (with_event w self trigger_name e) self trigger_name k
    = table_list k (transitions e).
Proof.
  intros Hm. unfold registered. rewrite (with_event_lookup _ _ _ _ _ Hm).
  cbn. by rewrite dict_get_set.
Qed.

(** Modelled storage of the base engine: one transition to [dest'] is
    added to the list of every source name, in order. *)
Lemma base_add_transition_registers self trigger_name dest' c u b a srcs :
  ∀ w w', base_add_transition self trigger_name srcs dest' c u b a w
            = (Ok (), w') →
  ∀ k, registered w' self trigger_name k =
       registered w self trigger_name k
       ++ ((λ s, mkTransition s dest' c u b a) <$> filter (λ s, s = k) srcs).
Proof.
  unfold base_add_transition.
  induction srcs as [|s srcs IH]; intros w w' Hrun k.
  - injection Hrun as <-. by rewrite app_nil_r.
  - cbn [for_each] in Hrun.
    apply bind_ok_inv in Hrun as ([] & w1 & Hstep & Hrun).
    apply bind_ok_inv in Hstep as (x & w0 & [Hx ->]%query_ok_inv & Hstep).
    unfold get_machine in Hx. destruct (machines w !! self) as [x0|] eqn:Hm; [|done].
    injection Hx as <-.
    destruct (dict_get trigger_name (events x0)) as [e|] eqn:He; [|done].
    apply bind_ok_inv in Hstep as (tb & w0 & [Htb ->]%query_ok_inv & Hstep).
    rewrite (set_event_run _ _ _ _ _ Hm) in Hstep. injection Hstep as <-.
    rewrite (IH _ _ Hrun k), (registered_with_event _ _ _ _ _ _ Hm).
    cbn [transitions]. rewrite (table_append_list _ _ _ _ k Htb).
    unfold registered at 1. rewrite Hm, He, <- app_assoc. f_equal.
    rewrite filter_cons. by destruct (decide (s = k)).
Qed.

(** Binding an attribute on the model leaves the events alone. *)
Lemma set_model_registered self attr v w r w' trigger_name k :
  set_model self attr v w = (r, w') →
  registered w' self trigger_name k = registered w self trigger_name k ∧
  (∀ x, machines w !! self = Some x →
     ∃ x', machines w' !! self = Some x' ∧ events x' = events x ∧
           states x' = states x).
Proof.
  unfold set_model, update_machine, set_machines. intros [= <- <-].
  unfold registered. cbn [machines].
  destruct (machines w !! self) as [x|] eqn:Hm.
  - rewrite list_lookup_insert_eq by (by eapply lookup_lt_Some). cbn.
    split; [done|]. intros ? [= <-]. eauto.
  - rewrite Hm. split; [done|]. by intros.
Qed.

(** Modelled registration of the base engine: entering states into the
    registry leaves the events alone. *)
Lemma base_add_states_registered fuel self trigger_name k new_states :
  ∀ w r w', base_add_states fuel self new_states w = (r, w') →
  registered w' self trigger_name k = registered w self trigger_name k.
Proof.
  unfold base_add_states.
  induction new_states as [|s l IH]; intros w r w' Hrun.
  - by injection Hrun as <- <-.
  - cbn [for_each] in Hrun. unfold mbind at 1, M_bind at 1 in Hrun.
    unfold mbind at 1, M_bind at 1, query at 1 in Hrun.
    destruct (name fuel w s) as [n| |].
    + unfold update_machine, set_machines in Hrun.
      match type of Hrun with for_each _ _ ?w1 = _ =>
        assert (registered w1 self trigger_name k = registered w self trigger_name k)
          as <- end.
      { unfold registered. cbn [machines].
        destruct (machines w !! self) as [y|] eqn:Hy; [|by rewrite Hy].
        by rewrite list_lookup_insert_eq by (by eapply lookup_lt_Some). }
      by eapply IH.
    + by injection Hrun as <- <-.
    + by injection Hrun as <- <-.
Qed.

(** C7: [add_transition] with the source ["*"] registers, for the trigger,
    one transition for each state in the registry at the time of the call,
    under the qualified name the state has then, and nothing for another
    name; states entered into the registry afterwards change nothing in
    what is registered. *)
Theorem add_transition_wildcard fuel self trigger_name dest' c u b a w w' x :
  machines w !! self = Some x →
  add_transition class_attr model_class_attr isdigit fuel self trigger_name
    (SourceStr "*") dest' c u b a w = (Ok (), w') →
  ∃ srcs, names fuel w (dict_values (states x)) = Ok srcs ∧
    (∀ k, registered w' self trigger_name k =
          registered w self trigger_name k
          ++ ((λ s, mkTransition s dest' c u b a) <$> filter (λ s, s = k) srcs)) ∧
    (∀ fuel' new_states r w'' k,
       base_add_states fuel' self new_states w' = (r, w'') →
       registered w'' self trigger_name k = registered w' self trigger_name k).
Proof.
  intros Hm Hrun. unfold add_transition in Hrun.
  apply bind_ok_inv in Hrun as (x0 & w0 & [Hx ->]%query_ok_inv & Hrun).
  unfold get_machine in Hx. rewrite Hm in Hx. injection Hx as <-.
  rewrite bool_decide_eq_true_2 in Hrun by done.
  apply bind_ok_inv in Hrun as (srcs & w0 & [Hsrcs ->]%query_ok_inv & Hrun).
  apply bind_ok_inv in Hrun as ([] & w1 & Hblock & Hrun).
  exists srcs. split; [done|].
  assert (∀ k, registered w1 self trigger_name k = registered w self trigger_name k)
    as Hsame.
  { intros k. destruct (dict_in trigger_name (events x)) eqn:Hin; cbn [negb] in Hblock.
    { by injection Hblock as <-. }
    assert (registered (with_event w self trigger_name (new_NestedEvent trigger_name))
              self trigger_name k = registered w self trigger_name k) as Hnew.
    { rewrite (registered_with_event _ _ _ _ _ _ Hm). unfold registered.
      rewrite Hm. unfold dict_in in Hin. apply bool_decide_eq_false in Hin.
      apply eq_None_not_Some in Hin. by rewrite Hin. }
    apply bind_ok_inv in Hblock as ([] & w2 & Hset & Hblock).
    rewrite (set_event_run _ _ _ _ _ Hm) in Hset. injection Hset as <-.
    rewrite <- Hnew.
    destruct (startswith "to_" trigger_name).
    - apply bind_ok_inv in Hblock as (x2 & w3 & [Hx2 ->]%query_ok_inv & Hblock).
      destruct (_ || _).
      + destruct (model x2 !! _) as [[|t]|]; try done.
        apply bind_ok_inv in Hblock as (t' & w3 & [_ ->]%query_ok_inv & Hblock).
        by destruct (set_model_registered _ _ _ _ _ _ trigger_name k Hblock) as [-> _].
      + apply bind_ok_inv in Hblock as (t' & w3 & [_ ->]%query_ok_inv & Hblock).
        by destruct (set_model_registered _ _ _ _ _ _ trigger_name k Hblock) as [-> _].
    - by destruct (set_model_registered _ _ _ _ _ _ trigger_name k Hblock) as [-> _]. }
  split.
  - intros k. rewrite <- Hsame. by eapply base_add_transition_registers.
  - intros fuel' new_states r w'' k. apply base_add_states_registered.
Qed.

End OrchestratorFacts.

(** ** The claims at the scenarios of the specification *)

Ltac chain_of := repeat (eapply chain_step; [reflexivity|reflexivity|]);
                 eapply chain_root; reflexivity.

Section Scenarios.

(** Scenario of the specification: exit order [D, B], enter order [C], the
    active state ending on [A.C]. *)
Lemma scenario_go :
  _change_state 20 0 (go_to "A.B.D" "A.C") scenario_world =
    (Ok (), add_effects (with_current scenario_world 0 4)
              [Exited 2; Exited 1; Entered 4]).
Proof.
  apply (change_state_hooks scenario_world 0 scenario_machine _ 4
           [2; 1] [4] [0]); try reflexivity; try (simpl; lia); try done;
    try chain_of.
  intros [|[|i]] [|j] Hi Hj Hij; simpl in *; try lia; done.
Qed.

Lemma enter_nested_stop_level_witness :
  enter_nested 10 2 (Some 3%Z) scenario_world
    = (Raise AttributeError, scenario_world).
Proof.
  apply (proj2 (enter_nested_stop_level scenario_world 2 [2; 1; 0]
                  (Some 3%Z) ltac:(chain_of)) 3%Z eq_refl);
    simpl; lia.
Defined.

Lemma exit_nested_diverges_witness :
  align 100 deep_world 1 4 4 = OutOfFuel ∧
  exit_nested 100 1 (Some 4) deep_world = (OutOfFuel, deep_world).
Proof.
  apply (exit_nested_diverges deep_world 1 4 [1; 0] [4; 3; 2; 0]);
    [chain_of|chain_of|simpl; lia|simpl; lia].
Defined.

Lemma change_state_diverges_witness :
  _change_state 100 0 (go_to "A.B" "A.C.D.E") deep_world
    = (OutOfFuel, deep_world).
Proof.
  apply (change_state_diverges deep_world 0 deep_machine _ 4
           [1; 0] [4; 3; 2; 0]);
    [reflexivity|reflexivity|chain_of|chain_of|simpl; lia|simpl; lia].
Defined.

Lemma trigger_unregistered_again_witness :
  trigger no_guard 10 0 "stop" lenient_world = (Ok false, lenient_world_after) ∧
  trigger no_guard 10 0 "stop" lenient_world_after
    = (Ok false, lenient_world_after).
Proof.
  assert (∀ i, i < length [2; 1; 0] →
            table_in (chain_name lenient_world (drop i [2; 1; 0]))
              (mkTable [] true) = false) as Hnone
    by (intros; reflexivity).
  assert (∀ i, i < length [2; 1; 0] - 1 →
            chain_name lenient_world (drop i [2; 1; 0])
            ≠ chain_name lenient_world [0]) as Hdiff
    by (intros [|[|i]] Hi; simpl in Hi; try lia; vm_compute; discriminate).
  pose proof (trigger_unregistered_again no_guard lenient_world 0 lenient_machine
                (mkNestedEvent "stop" (mkTable [] true)) "stop" [2; 1; 0] 0
                (lenient_state "D" (Some 1)) 10
                eq_refl eq_refl ltac:(chain_of) eq_refl eq_refl eq_refl
                Hnone Hdiff ltac:(simpl; lia)) as H.
  cbn [default_factory transitions] in H.
  destruct H as (H1 & _ & H2).
  split; [exact H1|exact H2].
Defined.

Lemma trigger_nearest_witness :
  bubble 10 lenient_world 2
    (mkTable [("A", [go_to "A" "A.B.D"]); ("A.B", [go_to "A.B" "A"])] true)
    = Ok 1 ∧
  name 10 lenient_world 1 = Ok "A.B" ∧
  trigger no_guard 10 0 "go" lenient_world =
    (Ok true,
     add_effects (with_current lenient_world 0 0)
       [Exited 2; Exited 1; Exited 0; Entered 0]).
Proof.
  destruct (trigger_nearest no_guard lenient_world 0 lenient_machine
              (mkNestedEvent "go"
                 (mkTable [("A", [go_to "A" "A.B.D"]);
                           ("A.B", [go_to "A.B" "A"])] true))
              "go" [2; 1; 0] [2] 1 [0] [go_to "A.B" "A"] 10
              eq_refl eq_refl ltac:(chain_of) eq_refl
              ltac:(intros [|i] Hi; [reflexivity|simpl in Hi; lia])
              eq_refl ltac:(simpl; lia)) as (Hb & Hn & Hrun & _).
  split; [exact Hb|]. split; [exact Hn|].
  destruct (Hrun [] (go_to "A.B" "A") [] eq_refl (Forall_nil_2 _) eq_refl)
    as [_ Hgo].
  apply Hgo. by vm_compute.
Defined.

Lemma embed_events_records_witness :
  embed_events 5 0 (Some 3) remap_R (events donor_machine) embedding_world =
    (Ok (), with_buffered embedding_world 0
              [mkBuffered "go" "N.P" "N.Q" [] [] [];
               mkBuffered "stop" "N.Q" "Z" [] [] [];
               mkBuffered "back" "N.R" "N.P" [] [] []]).
Proof.
  apply (embed_events_records 5 0 3 "N" remap_R (events donor_machine)
           embedding_world host_machine); reflexivity.
Defined.

(** The claim C5 fails on the transition [back], whose source [R] has an
    entry in [remap]: the record buffered has the source [N.R], where the
    words of the specification give [Z]. *)
Lemma remap_source_counterexample :
  _buffered_transitions <$> machines direct_embedding.2 !! 0 =
    Some [mkBuffered "go" "N.P" "N.Q" [] [] [];
          mkBuffered "stop" "N.Q" "Z" [] [] [];
          mkBuffered "back" "N.R" "N.P" [] [] []] ∧
  spec_embedded_records "N" remap_R (events donor_machine) =
    [mkBuffered "go" "N.P" "N.Q" [] [] [];
     mkBuffered "stop" "N.Q" "Z" [] [] [];
     mkBuffered "back" "Z" "N.P" [] [] []] ∧
  _buffered_transitions <$> machines direct_embedding.2 !! 0 ≠
    Some (spec_embedded_records "N" remap_R (events donor_machine)).
Proof. split; [|split]; vm_compute; [reflexivity|reflexivity|discriminate]. Qed.

(** The claim C9 fails on the embedding by a dictionary: the nodes listed
    are [N], [N.P] and [N.Q], and the machine [X] with its states [P], [Q]
    and [R] is as it was. *)
Lemma dict_embedding_counterexample :
  dict_embedding.1 = Ok [8; 4; 5; 4; 5] ∧
  names 5 dict_embedding.2 [8; 4; 5] = Ok ["N"; "N.P"; "N.Q"] ∧
  machines dict_embedding.2 !! 1 = Some donor_machine ∧
  names 5 dict_embedding.2 (dict_values (states donor_machine))
    = Ok ["P"; "Q"; "R"] ∧
  take 4 (nodes dict_embedding.2) = nodes embedding_world ∧
  take 2 (dicts dict_embedding.2) = dicts embedding_world.
Proof. repeat split; vm_compute; reflexivity. Qed.

Lemma traverse_mutates_direct_machines_only_witness :
  ((∀ r, r < 4 →
      nodes remapped_list_embedding.2 !! r =
        if decide (r ∈ [0; 1])
        then reparented (Some 3) <$> nodes embedding_world !! r
        else nodes embedding_world !! r) ∧
   (∀ r s, nodes embedding_world !! r = Some s → r ∈ [0; 1; 2] →
      parent s = None → remap_R !! _name s = None → r ∈ [0; 1]) ∧
   (∀ r, r ∈ [0; 1] → ∃ s,
      nodes embedding_world !! r = Some s ∧
      nodes remapped_list_embedding.2 !! r = Some (reparented (Some 3) s) ∧
      (∀ f, level (S f) embedding_world r = Ok 0 ∧
            name (S f) embedding_world r = Ok (_name s)) ∧
      (∀ f, level (S f) remapped_list_embedding.2 r =
              (lp ← level f remapped_list_embedding.2 3; Ok (lp + 1)) ∧
            name (S f) remapped_list_embedding.2 r =
              (np ← name f remapped_list_embedding.2 3;
               Ok (np +:+ separator +:+ _name s))))) ∧
  untouched 0 embedding_world dict_embedding.2.
Proof.
  split.
  - apply (proj1 (traverse_mutates_direct_machines_only 4 0 [] [] None remap_R
                    embedding_world)
             (Many [SStr "A"; SMachine 1]) [SStr "A"] 1 [] donor_machine 3
             [0; 1; 0; 1] remapped_list_embedding.2).
    + reflexivity.
    + repeat constructor. discriminate.
    + reflexivity.
    + repeat constructor.
    + vm_compute. reflexivity.
  - apply (proj2 (traverse_mutates_direct_machines_only 5 0 [] [] None ∅
                    embedding_world) (One (SDict 0)) None dict_embedding.1).
    + repeat constructor. discriminate.
    + vm_compute. reflexivity.
Defined.

Lemma traverse_forgets_earlier_states_witness :
  mixed_embedding.1 = Ok [0; 1; 2; 0; 1; 2] ∧
  (∃ s, nodes mixed_embedding.2 !! 4 = Some s ∧ _name s = "A") ∧
  (4 ∉ [0; 1; 2; 0; 1; 2]) ∧
  (∃ rs, [0; 1; 2; 0; 1; 2] = rs ++ rs).
Proof.
  split; [vm_compute; reflexivity|].
  apply (traverse_forgets_earlier_states 4 0 "A" 1 [] [] None (Some 3) ∅
           embedding_world [0; 1; 2; 0; 1; 2] mixed_embedding.2).
  - reflexivity.
  - intros x [= <-]. repeat constructor.
  - vm_compute. reflexivity.
Defined.

(** The same list inside a dictionary: the node made for [A] is missing
    from the list returned, and [N.P], [N.Q] and [N.R] are there twice. *)
Lemma mixed_dict_embedding :
  (traverse 5 0 (One (SDict 1)) [] [] None None ∅ embedding_world).1
    = Ok [8; 4; 5; 6; 4; 5; 6] ∧
  names 5 (traverse 5 0 (One (SDict 1)) [] [] None None ∅ embedding_world).2
      [8; 9; 4; 5; 6]
    = Ok ["N"; "N.A"; "N.P"; "N.Q"; "N.R"].
Proof. split; vm_compute; reflexivity. Qed.

Lemma add_transition_wildcard_witness :
  wildcard_run.1 = Ok () ∧
  registered wildcard_run.2 0 "reset" "A.B.D"
    = [mkTransition "A.B.D" "A" [] [] [] []] ∧
  registered wildcard_run.2 0 "reset" "A.B.D.F" = [].
Proof.
  split; [vm_compute; reflexivity|].
  destruct (add_transition_wildcard no_class_attr no_class_attr
              FunctionWrapper.sample_isdigit 10 0 "reset"
              "A" [] [] [] [] scenario_world wildcard_run.2 scenario_machine)
    as (srcs & Hs & Hreg & _).
  - reflexivity.
  - vm_compute. reflexivity.
  - vm_compute in Hs. injection Hs as <-.
    split; rewrite Hreg; reflexivity.
Defined.

End Scenarios.

(** ** FunctionWrapper: construction, calls and failures *)

Module FunctionWrapperLaws.
Import FunctionWrapper.

Section Laws.

Variable class_attr : string → bool.
Variable isdigit : string → bool.
Variable func : callable.

Lemma mangled_cons_inv n0 rest stored :
  mangled isdigit (n0 :: rest) = Ok stored →
  ∃ n l, mangle isdigit n0 = Ok n ∧ mangled isdigit rest = Ok l ∧ stored = n :: l.
Proof.
  simpl. destruct (mangle isdigit n0) as [n| |]; simpl; [|done..].
  destruct (mangled isdigit rest) as [l| |]; simpl; [|done..].
  intros [= <-]. eauto.
Qed.

Lemma hasattr_fresh n : hasattr class_attr fresh n = class_attr n.
Proof. unfold hasattr. simpl. rewrite lookup_empty. by rewrite bool_decide_eq_false_2 by (by intros [? ?]). Qed.

(** On an instance without attributes every segment makes a new wrapper. *)
Lemma add_fresh path : ∀ stored,
  mangled isdigit path = Ok stored →
  Forall (λ n, class_attr n = false) stored →
  ∃ x, add class_attr isdigit func path fresh = Ok x.
Proof.
  induction path as [|n0 rest IH]; intros stored Hs Hc; [by eexists|].
  apply mangled_cons_inv in Hs as (n & l & Hn & Hl & ->).
  apply Forall_cons in Hc as [Hcn Hcl].
  cbn [add]. rewrite Hn. cbn [mbind result_bind].
  rewrite hasattr_fresh, Hcn.
  destruct rest as [|r rest']; [by eexists|].
  destruct (IH _ Hl Hcl) as [x0 ->]. by eexists.
Qed.

Lemma add_walkable path : ∀ self stored,
  mangled isdigit path = Ok stored → walkable class_attr self stored →
  ∃ self', add class_attr isdigit func path self = Ok self'.
Proof.
  induction path as [|n0 rest IH]; intros self stored Hs Hw; [by eexists|].
  apply mangled_cons_inv in Hs as (n & l & Hn & Hl & ->).
  cbn [add]. rewrite Hn. cbn [mbind result_bind]. unfold hasattr.
  cbn [walkable] in Hw.
  destruct (attrs self !! n) as [[| |w]|] eqn:Ha; try done.
  - rewrite bool_decide_eq_true_2 by eauto. cbn [orb].
    destruct (IH _ _ Hl Hw) as [w' ->]. by eexists.
  - rewrite bool_decide_eq_false_2 by (by intros [? ?]).
    apply Forall_cons in Hw as [-> Hcl]. cbn [orb].
    destruct rest as [|r rest']; [by eexists|].
    destruct (add_fresh _ _ Hl Hcl) as [x0 ->]. by eexists.
Qed.

Lemma fresh_walkable q :
  walkable class_attr fresh q ↔ Forall (λ n, class_attr n = false) q.
Proof. destruct q; [by split|]. simpl. by rewrite lookup_empty. Qed.

Lemma walkable_add path : ∀ self self' stored,
  add class_attr isdigit func path self = Ok self' →
  mangled isdigit path = Ok stored → walkable class_attr self stored.
Proof.
  induction path as [|n0 rest IH]; intros self self' stored H Hs.
  - by injection Hs as <-.
  - apply mangled_cons_inv in Hs as (n & l & Hn & Hl & ->).
    cbn [add] in H. rewrite Hn in H. cbn [mbind result_bind] in H.
    unfold hasattr in H. cbn [walkable].
    destruct (attrs self !! n) as [[| |w]|] eqn:Ha; simpl in H; try done.
    + destruct (add class_attr isdigit func rest w) as [w'| |] eqn:Hw; [|done..].
      eauto.
    + destruct (class_attr n) eqn:Hcn; [done|].
      apply Forall_cons. split; [done|].
      destruct rest as [|r rest']; [by injection Hl as <-|].
      destruct (add class_attr isdigit func (r :: rest') fresh) as [x0| |] eqn:Hx;
        [|done..].
      by eapply fresh_walkable, IH.
Qed.

(** X1: [add] returns exactly when every segment is non-empty and the walk
    along the stored names is not stopped: it raises on an empty segment, on
    an attribute of the path that holds no wrapper, and on a new name that
    the class already defines. *)
Theorem add_returns_iff path self :
  (∃ self', add class_attr isdigit func path self = Ok self') ↔
  (∃ stored, mangled isdigit path = Ok stored ∧ walkable class_attr self stored).
Proof.
  split.
  - intros [self' H].
    destruct (FunctionWrapperFacts.add_mangled _ _ _ _ _ _ H) as [stored Hs].
    exists stored. eauto using walkable_add.
  - intros (stored & Hs & Hw). eauto using add_walkable.
Qed.

Lemma mangled_empty path : "" ∈ path → ∀ stored, mangled isdigit path ≠ Ok stored.
Proof.
  induction path as [|n0 rest IH]; intros Hin stored Hs; [by apply elem_of_nil in Hin|].
  apply mangled_cons_inv in Hs as (n & l & Hn & Hl & ->).
  apply elem_of_cons in Hin as [<-|Hin]; [done|]. by eapply IH.
Qed.

Lemma add_not_out_of_fuel path : ∀ self,
  add class_attr isdigit func path self ≠ OutOfFuel.
Proof.
  assert (∀ n, mangle isdigit n ≠ OutOfFuel) as Hm.
  { intros [|c n]; unfold mangle; simpl; done. }
  induction path as [|n0 rest IH]; intros self; [done|].
  cbn [add]. destruct (mangle isdigit n0) as [n| |] eqn:Hn; cbn [mbind result_bind];
    [|done|by destruct (Hm n0)].
  destruct (hasattr class_attr self n).
  - destruct (attrs self !! n) as [[| |w]|]; try done.
    specialize (IH w). by destruct (add class_attr isdigit func rest w).
  - destruct rest as [|r rest']; [done|].
    specialize (IH fresh). by destruct (add class_attr isdigit func (r :: rest') fresh).
Qed.

(** X2: a path with an empty segment (the trigger [to_A..B], or [to_A.]) is
    never added: [add] raises, and the receiver, not being returned, is as
    it was. *)
Theorem add_empty_segment path self :
  "" ∈ path → ∃ e, add class_attr isdigit func path self = Raise e.
Proof.
  intros Hin. destruct (add class_attr isdigit func path self) as [self'|e|] eqn:H.
  - destruct (FunctionWrapperFacts.add_mangled _ _ _ _ _ _ H) as [stored Hs].
    by destruct (mangled_empty _ Hin stored).
  - by exists e.
  - by destruct (add_not_out_of_fuel path self).
Qed.

Lemma init_stores path x stored :
  init class_attr isdigit func path = Ok x →
  mangled isdigit path = Ok stored → "_func" ∉ stored →
  ∃ w, find x stored = Some (VObj w) ∧ attrs w !! "_func" = Some (VFunc func).
Proof.
  intros Hx Hs Hnot.
  apply FunctionWrapperFacts.init_inv in Hx as [[-> ->]|(x0 & Hne & Hx0 & ->)].
  - injection Hs as <-. eexists. split; [done|].
    by rewrite FunctionWrapperFacts.attrs_setattr, lookup_insert_eq.
  - destruct (FunctionWrapperFacts.add_stores _ _ _ _ _ _ _ Hx0 Hs Hnot)
      as (w & Hw & Hfunc).
    exists w. split; [|done].
    destruct path as [|n0 rest]; [done|].
    apply mangled_cons_inv in Hs as (n & l & Hn & Hl & ->).
    apply not_elem_of_cons in Hnot as [Hnn _].
    by rewrite FunctionWrapperFacts.find_setattr_ne.
Qed.


End Laws.

Section Order.

Variable class_attr : string → bool.
Variable isdigit : string → bool.

Lemma setattr_comm w k1 v1 k2 v2 :
  k1 ≠ k2 →
  setattr (setattr w k1 v1) k2 v2 = setattr (setattr w k2 v2) k1 v1.
Proof. intros Hne. unfold setattr. cbn. by rewrite insert_insert_ne. Qed.

Lemma setattr_twice w k v1 v2 :
  setattr (setattr w k v1) k v2 = setattr w k v2.
Proof. unfold setattr. cbn. by rewrite insert_insert_eq. Qed.

(** [add] along a path that starts with the stored name [n] reads the
    receiver at [n] only, and writes there only. *)
Lemma add_local g n0 q self s :
  add class_attr isdigit g (n0 :: q) self = Ok s →
  ∃ n y, mangle isdigit n0 = Ok n ∧ s = setattr self n (VObj y) ∧
    ∀ self', attrs self' !! n = attrs self !! n →
      add class_attr isdigit g (n0 :: q) self' = Ok (setattr self' n (VObj y)).
Proof.
  cbn [add]. destruct (mangle isdigit n0) as [n| |] eqn:Hn; cbn [mbind result_bind];
    [|done..].
  intros H. exists n. unfold hasattr in *.
  destruct (attrs self !! n) as [[| |w]|] eqn:Ha.
  - rewrite bool_decide_eq_true_2 in H by eauto. done.
  - rewrite bool_decide_eq_true_2 in H by eauto. done.
  - rewrite bool_decide_eq_true_2 in H by eauto. cbn [orb] in H.
    destruct (add class_attr isdigit g q w) as [w'| |] eqn:Hw;
      cbn [mbind result_bind] in H; [|done..].
    injection H as <-. exists w'. split; [done|]. split; [done|].
    intros self' ->. rewrite bool_decide_eq_true_2 by eauto. cbn [orb].
    by rewrite Hw.
  - rewrite bool_decide_eq_false_2 in H by (by intros [? ?]). cbn [orb] in H.
    destruct (class_attr n); [done|].
    destruct (match q with [] => _ | _ :: _ => _ end) as [x| |] eqn:Hx;
      cbn [mbind result_bind] in H; [|done..].
    injection H as <-. exists x. split; [done|]. split; [done|].
    intros self' ->. by rewrite bool_decide_eq_false_2 by (by intros [? ?]).
Qed.

Lemma add_set_func g n0 q self v n s :
  mangle isdigit n0 = Ok n → n ≠ "_func" →
  add class_attr isdigit g (n0 :: q) self = Ok s →
  add class_attr isdigit g (n0 :: q) (setattr self "_func" v)
    = Ok (setattr s "_func" v).
Proof.
  intros Hn Hne H0.
  destruct (add_local _ _ _ _ _ H0) as (n' & y & Hn' & -> & Hloc).
  rewrite Hn in Hn'. injection Hn' as <-.
  rewrite (Hloc (setattr self "_func" v)).
  - by rewrite setattr_comm.
  - unfold setattr. cbn. by rewrite lookup_insert_ne.
Qed.

Lemma add_set_func_inv g n0 q self v n s' :
  mangle isdigit n0 = Ok n → n ≠ "_func" →
  add class_attr isdigit g (n0 :: q) (setattr self "_func" v) = Ok s' →
  ∃ s, add class_attr isdigit g (n0 :: q) self = Ok s ∧ s' = setattr s "_func" v.
Proof.
  intros Hn Hne H1.
  destruct (add_local _ _ _ _ _ H1) as (n' & y & Hn' & -> & Hloc).
  rewrite Hn in Hn'. injection Hn' as <-.
  exists (setattr self n (VObj y)). split.
  - apply Hloc. unfold setattr. cbn. by rewrite lookup_insert_ne.
  - by rewrite setattr_comm.
Qed.

(** X4: two paths stored under different names can be added in either order:
    when adding [p] and then [q] returns, so does adding [q] and then [p],
    and the wrapper is the same. *)
Theorem add_order_independent f g p : ∀ q sp sq self s1 s12,
  mangled isdigit p = Ok sp → mangled isdigit q = Ok sq → sp ≠ sq →
  "_func" ∉ sp → "_func" ∉ sq →
  add class_attr isdigit f p self = Ok s1 →
  add class_attr isdigit g q s1 = Ok s12 →
  ∃ s2, add class_attr isdigit g q self = Ok s2 ∧ add class_attr isdigit f p s2 = Ok s12.
Proof.
  induction p as [|n0 p IH]; intros q sp sq self s1 s12 Hsp Hsq Hne Hfp Hfq H1 H12.
  - injection Hsp as <-. injection H1 as <-.
    destruct q as [|m0 q]; [by injection Hsq as <-|].
    apply mangled_cons_inv in Hsq as (m & lq & Hm & Hlq & ->).
    apply not_elem_of_cons in Hfq as [Hmf _].
    apply (add_set_func_inv _ _ _ _ _ _ _ Hm) in H12 as (s2 & H2 & ->);
      [|done].
    exists s2. by split.
  - apply mangled_cons_inv in Hsp as (n & lp & Hn & Hlp & ->).
    apply not_elem_of_cons in Hfp as [Hnf Hfp].
    destruct q as [|m0 q].
    { injection H12 as <-. eexists. split; [reflexivity|].
      by eapply add_set_func. }
    apply mangled_cons_inv in Hsq as (m & lq & Hm & Hlq & ->).
    apply not_elem_of_cons in Hfq as [Hmf Hfq].
    destruct (decide (n = m)) as [<-|Hnm].
    + assert (lp ≠ lq) as Hl by congruence.
      pose proof H1 as H1'.
      apply FunctionWrapperFacts.add_cons_inv in H1
        as (n' & Hn' & [(w & w1 & Hw & Hadd1 & ->)|(x & Hnone & Hx & ->)]);
        rewrite Hn in Hn'; injection Hn' as <-.
      * apply FunctionWrapperFacts.add_cons_inv in H12
          as (n' & Hn' & [(w' & w12 & Hw' & Hadd12 & ->)|(? & Hnone & _)]);
          rewrite Hm in Hn'; injection Hn' as <-;
          rewrite FunctionWrapperFacts.attrs_setattr, lookup_insert_eq in *;
          [|done].
        injection Hw' as <-.
        destruct (IH _ _ _ _ _ _ Hlp Hlq Hl Hfp Hfq Hadd1 Hadd12)
          as (w2 & Hw2 & Hw21).
        exists (setattr self n (VObj w2)). split.
        -- cbn [add]. rewrite Hm. cbn [mbind result_bind]. unfold hasattr.
           rewrite Hw, bool_decide_eq_true_2 by eauto. cbn [orb].
           by rewrite Hw2.
        -- cbn [add]. rewrite Hn. cbn [mbind result_bind]. unfold hasattr.
           rewrite FunctionWrapperFacts.attrs_setattr, lookup_insert_eq.
           rewrite bool_decide_eq_true_2 by eauto. cbn [orb].
           rewrite Hw21. cbn [mbind result_bind].
           by rewrite !setattr_twice.
      * apply FunctionWrapperFacts.add_cons_inv in H12
          as (n' & Hn' & [(w' & x12 & Hw' & Hadd12 & ->)|(? & Hnone' & _)]);
          rewrite Hm in Hn'; injection Hn' as <-;
          rewrite FunctionWrapperFacts.attrs_setattr, lookup_insert_eq in *;
          [|done].
        injection Hw' as <-.
        assert (class_attr n = false) as Hcls.
        { destruct (class_attr n) eqn:E; [|done].
          exfalso. revert H1'. cbn [add]. rewrite Hn.
          cbn [mbind result_bind]. unfold hasattr. rewrite Hnone, E.
          by rewrite orb_true_r. }
        assert (∃ y, init class_attr isdigit g q = Ok y ∧
                     add class_attr isdigit f p y = Ok x12) as (y & Hy & Hy21).
        { apply FunctionWrapperFacts.init_inv in Hx
            as [[-> ->]|(x0 & Hp & Hx0 & ->)].
          - injection Hlp as <-.
            destruct q as [|m1 q]; [by injection Hlq as <-|].
            apply mangled_cons_inv in Hlq as (m' & lq' & Hm' & Hlq' & ->).
            apply not_elem_of_cons in Hfq as [Hmf' _].
            apply (add_set_func_inv _ _ _ _ _ _ _ Hm') in Hadd12
              as (z & Hz & ->); [|done].
            exists (setattr z "_func" VNone). split.
            + unfold init. by rewrite Hz.
            + cbn [add]. by rewrite setattr_twice.
          - destruct p as [|n1 p]; [done|].
            apply mangled_cons_inv in Hlp as Hlp'.
            destruct Hlp' as (n1' & lp' & Hn1 & Hlp' & ->).
            apply not_elem_of_cons in Hfp as Hfp'. destruct Hfp' as [Hn1f _].
            destruct q as [|m1 q].
            + injection Hadd12 as <-. rewrite setattr_twice.
              exists (setattr fresh "_func" (VFunc g)). split; [done|].
              by eapply add_set_func.
            + apply mangled_cons_inv in Hlq as Hlq'.
              destruct Hlq' as (m1' & lq' & Hm1 & Hlq' & ->).
              apply not_elem_of_cons in Hfq as Hfq'. destruct Hfq' as [Hm1f _].
              apply (add_set_func_inv _ _ _ _ _ _ _ Hm1) in Hadd12
                as (z & Hz & ->); [|done].
              destruct (IH _ _ _ _ _ _ Hlp Hlq Hl Hfp Hfq Hx0 Hz)
                as (y0 & Hy0 & Hy01).
              exists (setattr y0 "_func" VNone). split.
              * unfold init. by rewrite Hy0.
              * by eapply add_set_func. }
        exists (setattr self n (VObj y)). split.
        -- cbn [add]. rewrite Hm. cbn [mbind result_bind]. unfold hasattr.
           rewrite Hnone, Hcls.
           rewrite bool_decide_eq_false_2 by (by intros [? ?]). cbn [orb].
           unfold init in Hy. destruct q; by rewrite Hy.
        -- cbn [add]. rewrite Hn. cbn [mbind result_bind]. unfold hasattr.
           rewrite FunctionWrapperFacts.attrs_setattr, lookup_insert_eq.
           rewrite bool_decide_eq_true_2 by eauto. cbn [orb].
           rewrite Hy21. cbn [mbind result_bind].
           by rewrite !setattr_twice.
    + destruct (add_local _ _ _ _ _ H1) as (n' & x & Hn' & -> & Hlocf).
      rewrite Hn in Hn'. injection Hn' as <-.
      destruct (add_local _ _ _ _ _ H12) as (m' & y & Hm' & -> & Hlocg).
      rewrite Hm in Hm'. injection Hm' as <-.
      exists (setattr self m (VObj y)). split.
      * apply Hlocg. by rewrite FunctionWrapperFacts.attrs_setattr,
                           lookup_insert_ne.
      * rewrite (Hlocf (setattr self m (VObj y))).
        -- by rewrite setattr_comm.
        -- by rewrite FunctionWrapperFacts.attrs_setattr, lookup_insert_ne.
Qed.

End Order.


Lemma add_order_independent_witness :
  ∃ s2, add (λ _, false) sample_isdigit "to_A.1.x" ["1"; "x"]
          (setattr fresh "_func" (VFunc "to_A")) = Ok s2 ∧
        add (λ _, false) sample_isdigit "to_A.B" ["B"] s2 = Ok wrapper_AB1x.
Proof.
  apply (add_order_independent (λ _, false) sample_isdigit "to_A.B" "to_A.1.x" ["B"]
           ["1"; "x"] ["B"] ["_1"; "x"] (setattr fresh "_func" (VFunc "to_A"))
           wrapper_AB wrapper_AB1x).
  - reflexivity.
  - reflexivity.
  - discriminate.
  - intros H. repeat (apply elem_of_cons in H as [H|H]; [discriminate H|]).
    by apply elem_of_nil in H.
  - intros H. repeat (apply elem_of_cons in H as [H|H]; [discriminate H|]).
    by apply elem_of_nil in H.
  - by vm_compute.
  - by vm_compute.
Defined.

Lemma add_empty_segment_witness :
  ∃ e, add (λ _, false) sample_isdigit "to_A..B" [""; "B"] wrapper_AB = Raise e.
Proof.
  apply (add_empty_segment (λ _, false) sample_isdigit "to_A..B" [""; "B"] wrapper_AB).
  apply elem_of_cons. by left.
Defined.

End FunctionWrapperLaws.

(** ** NestedState and NestedTransition: names, hooks and the state change *)

Section NestedStateLaws.

Implicit Types (w : World) (r p : ref) (l : list ref).

Lemma string_app_assoc (a b c : string) : (a +:+ b) +:+ c = a +:+ b +:+ c.
Proof.
  induction a as [|x a IH]; [done|].
  change (String x ((a +:+ b) +:+ c) = String x (a +:+ b +:+ c)).
  by rewrite IH.
Qed.

Lemma join_snoc sep (l : list string) x :
  l ≠ [] → join sep (l ++ [x]) = join sep l +:+ sep +:+ x.
Proof.
  unfold join. induction l as [|a [|b l] IH]; intros Hl; [done|done|].
  specialize (IH ltac:(done)).
  change ((a :: b :: l) ++ [x]) with (a :: (b :: l) ++ [x]).
  change (String.concat sep (a :: (b :: l) ++ [x]))
    with (a +:+ sep +:+ String.concat sep ((b :: l) ++ [x])).
  rewrite IH.
  change (String.concat sep (a :: b :: l))
    with (a +:+ sep +:+ String.concat sep (b :: l)).
  by rewrite !string_app_assoc.
Qed.

Lemma chain_name_segments w l :
  chain_name w l = join separator (reverse (segments w l)).
Proof.
  induction l as [|r [|r' l] IH]; [done|done|].
  change (chain_name w (r :: r' :: l))
    with (chain_name w (r' :: l) +:+ separator
          +:+ from_option _name "" (nodes w !! r)).
  rewrite IH. unfold segments. rewrite (fmap_cons _ r), reverse_cons.
  rewrite join_snoc; [done|].
  rewrite fmap_cons, reverse_cons. intros E. by apply app_nil in E as [_ ?].
Qed.

(** X5: [level] and [name] of a node with a finite parent chain: the level is
    the number of ancestors, the name is made of the segments of the chain,
    the root's first, joined by the separator; both take one nested call for
    each node of the chain. *)
Theorem name_joins_segments w r l fuel :
  chain w r l →
  if decide (length l ≤ fuel)
  then level fuel w r = Ok (length l - 1) ∧
       name fuel w r = Ok (join "." (reverse (segments w l)))
  else level fuel w r = OutOfFuel ∧ name fuel w r = OutOfFuel.
Proof.
  intros Hc. rewrite (level_chain _ _ _ Hc), (name_chain _ _ _ Hc).
  case_decide; [|done]. rewrite chain_name_segments. split; [|done].
  f_equal. lia.
Qed.

(** X6: on a node whose parent links run in a circle, [level] and [name] do
    not return, however deep the nesting of calls may go. *)
Theorem level_name_cyclic w l :
  cycle w l →
  ∀ fuel r, r ∈ l →
    level fuel w r = OutOfFuel ∧ name fuel w r = OutOfFuel.
Proof.
  intros Hcyc fuel.
  induction fuel as [|fuel IH]; intros r Hr; [done|].
  apply list_elem_of_lookup in Hr as [i Hi].
  destruct (Hcyc i r Hi) as (s & p & Hs & Hp & Hnext).
  assert (p ∈ l) as Hpl by (by eapply list_elem_of_lookup_2).
  destruct (IH p Hpl) as [Hlev Hname].
  cbn [level name]. unfold get_node. rewrite Hs. cbn [mbind result_bind].
  by rewrite Hp, Hlev, Hname.
Qed.

Lemma chain_parents w w' r l :
  (∀ i, parent <$> nodes w' !! i = parent <$> nodes w !! i) →
  chain w r l → chain w' r l.
Proof.
  intros E. induction 1 as [r s Hs Hp|r s p l Hs Hp Hc IH].
  - specialize (E r). rewrite Hs in E.
    destruct (nodes w' !! r) as [s'|] eqn:Hs'; [|done].
    simpl in E. injection E as E. eapply chain_root; [done|by rewrite E].
  - specialize (E r). rewrite Hs in E.
    destruct (nodes w' !! r) as [s'|] eqn:Hs'; [|done].
    simpl in E. injection E as E. eapply chain_step; [done|by rewrite E|done].
Qed.

(** X7: assigning [name] on a node replaces the node's own segment and nothing
    else: parent chains and levels stay, and the qualified name of every
    node, computed anew at each use, has the new segment wherever its chain
    passes through the renamed node. *)
Theorem set_name_renames w s value x q l fuel :
  nodes w !! s = Some x → chain w q l → length l ≤ fuel →
  ∃ w', set_name value s w = (Ok (), w') ∧
    chain w' q l ∧
    level fuel w' q = level fuel w q ∧
    name fuel w' q =
      Ok (join "." (reverse ((λ r, if decide (r = s) then value
                                   else from_option _name "" (nodes w !! r))
                             <$> l))).
Proof.
  intros Hs Hc Hf. eexists. split; [reflexivity|].
  set (w' := (set_name value s w).2).
  assert (∀ i, nodes w' !! i =
    if decide (i = s)
    then Some (mkNestedState value (parent x) (on_enter x) (on_exit x)
                 (ignore_invalid_triggers x) (children x))
    else nodes w !! i) as Hn.
  { intros i. unfold w', set_name, update_node, set_nodes. cbn. rewrite Hs.
    case_decide as Hi.
    - subst i. apply list_lookup_insert_eq. by eapply lookup_lt_Some.
    - by apply list_lookup_insert_ne. }
  assert (chain w' q l) as Hc'.
  { eapply chain_parents; [|exact Hc]. intros i. rewrite Hn.
    case_decide; [|done]. subst i. by rewrite Hs. }
  split; [exact Hc'|]. split.
  - by rewrite (level_enough _ _ _ _ Hc'), (level_enough _ _ _ _ Hc).
  - rewrite (name_enough _ _ _ _ Hc') by done. rewrite chain_name_segments.
    do 3 f_equal. unfold segments. apply list_fmap_ext. intros i r _.
    rewrite Hn. by case_decide.
Qed.

(** *** enter_nested *)

(** X8: the enter hooks of [enter_nested]: without a stop level the hook of the
    node alone; with a stop level [k] up to the node's level the hooks of
    the nodes of the chain from level [k] down to the node, the ancestor's
    first; with any other stop level no hook at all before the failure. *)
Theorem enter_nested_hooks w r l lv fuel :
  chain w r l → length l < fuel →
  enter_nested fuel r lv w =
    match lv with
    | None => (Ok (), add_effects w [Entered r])
    | Some z =>
        if decide (0 ≤ z ≤ Z.of_nat (length l - 1))%Z
        then (Ok (), add_effects w
                (Entered <$> reverse (take (length l - Z.to_nat z) l)))
        else (Raise AttributeError, w)
    end.
Proof.
  intros Hc Hf. destruct lv as [z|].
  - case_decide as Hz.
    + rewrite <- (Z2Nat.id z) at 1 by lia.
      apply (enter_nested_upto _ _ _ Hc); lia.
    + rewrite (enter_nested_above _ _ _ Hc) by lia. by case_decide.
  - destruct fuel as [|fuel]; [lia|]. done.
Qed.

(** *** exit_nested *)

Lemma exit_nested_None w s ls : chain w s ls → ∀ fuel, length ls ≤ fuel →
  exit_nested fuel s None w = (Ok 0, add_effects w (Exited <$> ls)).
Proof.
  intros Hc. revert w Hc. revert s.
  induction ls as [|a ls IH]; intros s w Hc fuel Hf;
    [apply chain_length in Hc; simpl in Hc; lia|].
  destruct (chain_nonempty _ _ _ Hc) as [? [= -> _]].
  destruct fuel as [|fuel]; [simpl in Hf; lia|].
  cbn [exit_nested]. unfold mbind, M_bind, query, mret, M_ret.
  rewrite exit_run.
  set (w1 := add_effects w [Exited s]).
  assert (chain w1 s (s :: ls)) as Hc1 by (by apply chain_add_effects).
  rewrite (chain_get_parent _ _ _ Hc1). cbn [tail head].
  destruct ls as [|p ls].
  - done.
  - cbn [head]. rewrite (IH p w1); [|eapply chain_parent, Hc1|simpl in *; lia].
    unfold w1. by rewrite add_effects_app.
Qed.

(** The branch of [exit_nested] that is taken towards a target without
    parent and from a node without parent. *)
Lemma exit_nested_root_level w s t ls lt fuel :
  chain w s ls → chain w t lt →
  length ls < fuel → length lt < fuel →
  length lt = 1 ∨ length ls = 1 →
  exit_nested fuel s (Some t) w = (Ok 0, add_effects w (Exited <$> ls)).
Proof.
  intros Hc Hct Hf Hft Hlev.
  pose proof (exit_nested_None _ _ _ Hc fuel ltac:(lia)) as Hnone.
  destruct fuel as [|fuel]; [lia|].
  cbn [exit_nested] in Hnone |- *.
  unfold mbind at 1, M_bind at 1, query at 1.
  rewrite (level_enough _ _ _ _ Hct) by lia.
  pose proof (chain_length _ _ _ Hct).
  destruct (0 <? pred (length lt)) eqn:Hlt.
  - apply Nat.ltb_lt in Hlt. destruct Hlev as [?|Hls]; [lia|].
    unfold mbind at 1, M_bind at 1, query at 1.
    rewrite (level_enough _ _ _ _ Hc) by lia. rewrite Hls.
    cbn [pred Nat.ltb Nat.leb andb]. exact Hnone.
  - unfold mbind at 1, M_bind at 1, mret at 1, M_ret at 1. cbn [andb].
    exact Hnone.
Qed.

(** X9: [exit_nested] without a target, towards a target without parent, or
    from a node without parent: the exit hooks of the node and of all its
    ancestors fire, the node's first, and the level returned is 0. *)
Theorem exit_nested_to_root w s ls target fuel :
  chain w s ls → length ls < fuel →
  match target with
  | None => True
  | Some t => ∃ lt, chain w t lt ∧ length lt < fuel ∧
                    (length lt = 1 ∨ length ls = 1)
  end →
  exit_nested fuel s target w = (Ok 0, add_effects w (Exited <$> ls)).
Proof.
  intros Hc Hf Ht. destruct target as [t|].
  - destruct Ht as (lt & Hct & Hft & Hlev). by eapply exit_nested_root_level.
  - apply (exit_nested_None _ _ _ Hc). lia.
Qed.

(** [exit_nested] from [s] towards [t], both below the root, with chains
    [ps ++ common] and [pt ++ common] and a target at most one level deeper
    than [s]; the walk goes on while the parents it compares are named
    differently, so only the nodes above the starting pair of the second
    loop need different names. *)
Lemma exit_nested_joins common : ∀ ps pt s t x fuel w,
  chain w s (ps ++ common) → chain w t (pt ++ common) →
  last ps = Some x → pt ≠ [] →
  1 < length (ps ++ common) → 1 < length (pt ++ common) →
  length pt ≤ length ps + 1 →
  (∀ i j, length ps - length pt < i < length ps → j < length pt →
     length ps - i = length pt - j →
     chain_name w (drop i ps ++ common) ≠ chain_name w (drop j pt ++ common)) →
  length (ps ++ common) + 3 < fuel →
  exit_nested fuel s (Some t) w =
    (Ok (length common), add_effects w (Exited <$> ps)).
Proof.
  intros ps.
  induction ps as [|a ps IH];
    intros pt s t x fuel w Hs Ht Hx Hpt Hls Hlt Hlen Hnames Hf; [done|].
  destruct (chain_nonempty _ _ _ Hs) as [? [= -> _]].
  destruct fuel as [|fuel]; [lia|].
  cbn [exit_nested]. unfold mbind, M_bind, query, mret, M_ret.
  assert (0 < length pt) by (destruct pt; [done|simpl; lia]).
  rewrite (level_enough _ _ _ _ Ht) by solve_len.
  replace (0 <? pred (length (pt ++ common))) with true
    by (symmetry; apply Nat.ltb_lt; solve_len).
  rewrite (level_enough _ _ _ _ Hs) by solve_len.
  replace (0 <? pred (length ((s :: ps) ++ common))) with true
    by (symmetry; apply Nat.ltb_lt; solve_len).
  cbn [andb].
  destruct (decide (length pt < length (s :: ps))) as [Hdeep|Hshallow].
  - replace (pred (length (pt ++ common)) <? pred (length ((s :: ps) ++ common)))
      with true by (symmetry; apply Nat.ltb_lt; solve_len).
    rewrite exit_run.
    destruct ps as [|a1 ps]; [solve_len|].
    set (w1 := add_effects w [Exited s]).
    assert (chain w1 s (s :: a1 :: ps ++ common)) as Hs'
      by (by apply chain_add_effects).
    rewrite (chain_parent_object _ _ _ _ Hs').
    rewrite (IH pt a1 t x fuel w1).
    + unfold w1. by rewrite add_effects_app.
    + eapply chain_parent, Hs'.
    + by apply chain_add_effects.
    + done.
    + done.
    + solve_len.
    + done.
    + solve_len.
    + intros i j Hi Hj Hij. unfold w1. rewrite !chain_name_add_effects.
      apply (Hnames (S i) j); solve_len.
    + solve_len.
  - replace (pred (length (pt ++ common)) <? pred (length ((s :: ps) ++ common)))
      with false by (symmetry; apply Nat.ltb_ge; solve_len).
    assert (∃ pb tmp, align fuel w s t t = Ok tmp ∧
              chain w tmp (pb ++ common) ∧ length (s :: ps) = length pb ∧
              ∀ j, 0 < j < length (s :: ps) →
                chain_name w (drop j (s :: ps) ++ common)
                ≠ chain_name w (drop j pb ++ common))
      as (pb & tmp & -> & Htmp & Hlenb & Hnb).
    { destruct (decide (length pt = length (s :: ps))) as [Heq|Hneq].
      - exists pt, t. split; [|split; [done|split; [done|]]].
        + eapply (align_stop _ _ _ _ ((s :: ps) ++ common) (pt ++ common));
            [exact Hs|exact Ht|solve_len..].
        + intros j Hj. apply Hnames; solve_len.
      - destruct (chain_nonempty _ _ _ Ht) as [lt' Hlt'].
        destruct pt as [|t0 [|p pt]]; [done|solve_len|].
        injection Hlt' as -> _.
        exists (p :: pt), p. split; [|split; [|split]].
        + eapply (align_one _ _ _ _ ((s :: ps) ++ common) (pt ++ common));
            [exact Hs|exact Ht|solve_len..].
        + eapply chain_parent, Ht.
        + solve_len.
        + intros j Hj. apply (Hnames j (S j)); solve_len. }
    rewrite (climb_meet _ _ _ _ _ x _ _ Hs Htmp); try done; [|solve_len].
    rewrite exit_run, add_effects_app, level_add_effects.
    change [Exited x] with (Exited <$> [x]).
    rewrite <- fmap_app, (last_removelast _ _ Hx).
    assert (chain w x (x :: common)) as Hxc.
    { apply last_Some in Hx as [l' Hl']. rewrite Hl' in Hs.
      rewrite <- app_assoc in Hs.
      eapply (chain_suffix _ _ _ Hs (length l')). by rewrite drop_app_length. }
    rewrite (level_enough _ _ _ _ Hxc) by solve_len. done.
Qed.

(** X10: [exit_nested] between two nodes below the root, the target at most one
    level deeper: with the chains written [ps ++ common] and
    [pt ++ common], where the nodes of [ps] and [pt] that the second loop
    compares by the names of their parents are named differently, the exit
    hooks of [ps] fire, from the node upwards, the nodes of [common] are
    left alone, and the level returned is that of the last node exited. *)
Theorem exit_nested_up_to_common w s t ps pt common fuel :
  chain w s (ps ++ common) → chain w t (pt ++ common) →
  ps ≠ [] → pt ≠ [] →
  1 < length (ps ++ common) → 1 < length (pt ++ common) →
  length pt ≤ length ps + 1 →
  (∀ i j, length ps - length pt < i < length ps → j < length pt →
     length ps - i = length pt - j →
     chain_name w (drop i ps ++ common) ≠ chain_name w (drop j pt ++ common)) →
  length (ps ++ common) + 3 < fuel →
  exit_nested fuel s (Some t) w =
    (Ok (length common), add_effects w (Exited <$> ps)) ∧
  ∃ x, last ps = Some x ∧ level fuel w x = Ok (length common).
Proof.
  intros Hs Ht Hps Hpt H1 H2 Hlen Hnames Hf.
  apply last_is_Some in Hps as [x Hx]. split.
  - by eapply exit_nested_joins.
  - exists x. split; [done|].
    assert (chain w x (x :: common)) as Hxc.
    { apply last_Some in Hx as [l' Hl']. rewrite Hl' in Hs.
      rewrite <- app_assoc in Hs.
      eapply (chain_suffix _ _ _ Hs (length l')). by rewrite drop_app_length. }
    rewrite (level_enough _ _ _ _ Hxc) by solve_len. done.
Qed.

(** *** NestedTransition._change_state *)

Lemma change_state_run w m x T t lvl es fuel lt :
  machines w !! m = Some x → dict_get (dest T) (states x) = Some t →
  exit_nested fuel (current_state x) (Some t) w = (Ok lvl, add_effects w es) →
  chain w t lt → lvl ≤ length lt - 1 → length lt < fuel →
  _change_state fuel m T w =
    (Ok (), add_effects (with_current w m t)
              (es ++ (Entered <$> reverse (take (length lt - lvl) lt)))).
Proof.
  intros Hm Ht Hexit Hc Hlvl Hf.
  unfold _change_state, mbind, M_bind, query, get_state, get_machine.
  rewrite Hm. cbn [mbind result_bind]. rewrite Ht, Hexit.
  unfold set_state, mbind, M_bind, query, get_state, get_machine.
  cbn [machines add_effects]. rewrite Hm. cbn [mbind result_bind]. rewrite Ht.
  unfold update_machine, set_machines.
  match goal with |- enter_nested _ _ _ ?w1 = _ =>
    change w1 with (with_current (add_effects w es) m t) end.
  set (w1 := with_current (add_effects w es) m t).
  assert (chain w1 t lt) as Hc'
    by (eapply chain_nodes; [|exact Hc]; reflexivity).
  rewrite (enter_nested_upto _ _ _ Hc') by lia.
  unfold w1, add_effects, with_current. cbn. by rewrite app_assoc.
Qed.


(** X12: a transition to the active state itself or to one of its ancestors
    exits every state from the active one up to and including the
    destination and then enters the destination again, and nothing else:
    the states above the destination are left alone. *)
Theorem change_state_to_ancestor w m x T t pre rest fuel :
  machines w !! m = Some x → dict_get (dest T) (states x) = Some t →
  chain w (current_state x) (pre ++ t :: rest) →
  2 * length (pre ++ t :: rest) + 3 < fuel →
  _change_state fuel m T w =
    (Ok (), add_effects (with_current w m t)
              ((Exited <$> pre ++ [t]) ++ [Entered t])).
Proof.
  intros Hm Ht Hs Hf.
  assert (chain w t (t :: rest)) as Hc.
  { eapply (chain_suffix _ _ _ Hs (length pre)). by rewrite drop_app_length. }
  destruct rest as [|c rest].
  - rewrite (change_state_run w m x T t 0 (Exited <$> pre ++ [t]) fuel [t]);
      try done; try solve_len.
    apply (exit_nested_root_level _ _ _ _ [t]); [done|done|solve_len..|by left].
  - rewrite (change_state_run w m x T t (length (c :: rest))
               (Exited <$> pre ++ [t]) fuel (t :: c :: rest));
      try done; try solve_len.
    + replace (length (t :: c :: rest) - length (c :: rest)) with 1
        by (simpl; lia). done.
    + apply (exit_nested_joins (c :: rest) (pre ++ [t]) [t] _ _ t).
      * by rewrite <- app_assoc.
      * done.
      * by rewrite last_snoc.
      * done.
      * solve_len.
      * solve_len.
      * solve_len.
      * intros i j Hi Hj. rewrite length_app in Hi. simpl in *. lia.
      * solve_len.
Qed.

(** X13: a transition from a state without parent, or to a state without
    parent, exits the active state and all its ancestors and enters the
    destination's ancestors and the destination, however deep either one
    lies. *)
Theorem change_state_through_root w m x T t ls lt fuel :
  machines w !! m = Some x → dict_get (dest T) (states x) = Some t →
  chain w (current_state x) ls → chain w t lt →
  length ls = 1 ∨ length lt = 1 →
  length ls + length lt < fuel →
  _change_state fuel m T w =
    (Ok (), add_effects (with_current w m t)
              ((Exited <$> ls) ++ (Entered <$> reverse lt))).
Proof.
  intros Hm Ht Hs Hc Hlev Hf.
  pose proof (chain_length _ _ _ Hc).
  rewrite (change_state_run w m x T t 0 (Exited <$> ls) fuel lt);
    try done; try lia.
  - by rewrite Nat.sub_0_r, firstn_all.
  - apply (exit_nested_root_level _ _ _ _ lt); [done|done|lia|lia|tauto].
Qed.

End NestedStateLaws.

Section NestedStateScenarios.

Lemma name_joins_segments_witness :
  level 5 scenario_world 2 = Ok 2 ∧ name 5 scenario_world 2 = Ok "A.B.D".
Proof.
  apply (name_joins_segments scenario_world 2 [2; 1; 0] 5). chain_of.
Defined.

Lemma level_name_cyclic_witness :
  level 100 looping_world 0 = OutOfFuel ∧ name 100 looping_world 0 = OutOfFuel.
Proof.
  apply (level_name_cyclic looping_world [0; 1]).
  - intros [|[|i]] r Hi; simpl in Hi; [| |done]; injection Hi as <-;
      by eexists _, _.
  - apply elem_of_cons. by left.
Defined.

Lemma set_name_renames_witness :
  ∃ w', set_name "X" 1 scenario_world = (Ok (), w') ∧
    chain w' 2 [2; 1; 0] ∧
    level 5 w' 2 = level 5 scenario_world 2 ∧
    name 5 w' 2 = Ok "A.X.D".
Proof.
  apply (set_name_renames scenario_world 1 "X" (state "B" (Some 0)) 2
           [2; 1; 0] 5); [reflexivity|chain_of|simpl; lia].
Defined.

Lemma enter_nested_hooks_witness :
  enter_nested 10 2 (Some 1%Z) scenario_world
    = (Ok (), add_effects scenario_world [Entered 1; Entered 2]).
Proof.
  apply (enter_nested_hooks scenario_world 2 [2; 1; 0] (Some 1%Z) 10);
    [chain_of|simpl; lia].
Defined.

Lemma exit_nested_to_root_witness :
  exit_nested 10 2 (Some 0) scenario_world
    = (Ok 0, add_effects scenario_world [Exited 2; Exited 1; Exited 0]).
Proof.
  apply (exit_nested_to_root scenario_world 2 [2; 1; 0] (Some 0) 10);
    [chain_of|simpl; lia|].
  exists [0]. split; [chain_of|]. split; [simpl; lia|by left].
Defined.

Lemma exit_nested_up_to_common_witness :
  exit_nested 20 2 (Some 4) scenario_world =
    (Ok 1, add_effects scenario_world [Exited 2; Exited 1]) ∧
  ∃ x, last [2; 1] = Some x ∧ level 20 scenario_world x = Ok 1.
Proof.
  apply (exit_nested_up_to_common scenario_world 2 4 [2; 1] [4] [0] 20);
    try chain_of; try done; try (simpl; lia).
Defined.


Lemma change_state_to_ancestor_witness :
  _change_state 20 0 (go_to "A.B.D" "A.B") scenario_world =
    (Ok (), add_effects (with_current scenario_world 0 1)
              [Exited 2; Exited 1; Entered 1]).
Proof.
  apply (change_state_to_ancestor scenario_world 0 scenario_machine _ 1
           [2] [0] 20); [reflexivity|reflexivity|chain_of|simpl; lia].
Defined.

Lemma change_state_through_root_witness :
  _change_state 20 0 (go_to "A.B.D" "A") scenario_world =
    (Ok (), add_effects (with_current scenario_world 0 0)
              [Exited 2; Exited 1; Exited 0; Entered 0]).
Proof.
  apply (change_state_through_root scenario_world 0 scenario_machine _ 0
           [2; 1; 0] [0] 20);
    [reflexivity|reflexivity|chain_of|chain_of|by right|simpl; lia].
Defined.

End NestedStateScenarios.

(** ** NestedEvent.trigger: invalid triggers and the order of transitions *)

Section NestedEventLaws.

Variable holds : World → string → bool.

(** X14: a trigger that no name on the chain of the active state is registered
    for, the active state not ignoring invalid triggers: [MachineError] with
    the name of the event and the qualified name of the active state; nothing
    is logged, and the table of the event, the active state and the nodes
    are as before. *)
Theorem trigger_invalid_raises w m x e trigger_name l cur fuel :
  machines w !! m = Some x →
  dict_get trigger_name (events x) = Some e →
  chain w (current_state x) l →
  nodes w !! current_state x = Some cur →
  ignore_invalid_triggers cur ≠ Some true →
  (∀ i, i < length l →
     table_in (chain_name w (drop i l)) (transitions e) = false) →
  length l < fuel →
  trigger holds fuel m trigger_name w =
    (Raise (MachineError ("Can't trigger event " +:+ event_name e
                          +:+ " from state " +:+ chain_name w l +:+ "!")), w).
Proof.
  intros Hm He Hc Hcur Hign Hnone Hf.
  destruct (last l) as [root|] eqn:Hroot;
    [|apply last_None in Hroot; subst l; apply chain_length in Hc;
      simpl in Hc; lia].
  apply last_Some in Hroot as [pre Hl].
  assert (chain w root [root]) as Hcr.
  { eapply (chain_suffix _ _ _ Hc (length pre)). subst l. by rewrite drop_app_length. }
  assert (table_in (chain_name w [root]) (transitions e) = false) as Hin.
  { specialize (Hnone (length pre)). subst l. rewrite drop_app_length in Hnone.
    apply Hnone. solve_len. }
  unfold trigger, mbind at 1, M_bind at 1, query at 1, get_machine.
  rewrite Hm, He.
  unfold mbind at 1, M_bind at 1, query at 1.
  rewrite (bubble_stops _ _ pre _ _ root [] _ Hc Hl);
    [|intros i Hi; apply Hnone; subst l; solve_len|by left|done].
  unfold mbind at 1, M_bind at 1, query at 1.
  rewrite (name_enough _ _ _ _ Hcr) by (subst l; solve_len).
  rewrite Hin. cbn [negb].
  unfold mbind, M_bind, mret, M_ret, query, get_node, emit, raise.
  rewrite (name_enough _ _ _ _ Hc) by lia. rewrite Hcur.
  by destruct (ignore_invalid_triggers cur) as [[|]|].
Qed.


End NestedEventLaws.

Section NestedEventScenarios.

Lemma trigger_invalid_raises_witness :
  trigger no_guard 10 0 "go" (with_current scenario_world 0 4) =
    (Raise (MachineError "Can't trigger event go from state A.C!"),
     with_current scenario_world 0 4).
Proof.
  apply (trigger_invalid_raises no_guard (with_current scenario_world 0 4) 0
           (mkMachine (states scenario_machine) (events scenario_machine) 4
              false [] ∅)
           (event_on "go" "A.B.D" "A.C") "go" [4; 0] (state "C" (Some 0)) 10);
    [reflexivity|reflexivity|chain_of|reflexivity|discriminate| |simpl; lia].
  intros [|[|i]] Hi; simpl in Hi; try lia; reflexivity.
Defined.


End NestedEventScenarios.

(** ** HierarchicalMachine.traverse: names, nodes and dictionaries *)

Section TraverseLaws.

(** The default of [ignore_invalid_triggers] that [traverse] works with. *)
Lemma traverse_unfold fuel self a oe ox ign parent' remap w x :
  machines w !! self = Some x →
  traverse (S fuel) self a oe ox ign parent' remap w =
    traverse_states (traverse fuel self) fuel self oe ox
      (Some (default (machine_ignore_invalid_triggers x) ign))
      parent' remap (listify a) [] w.
Proof.
  intros Hm. cbn [traverse]. unfold mbind, M_bind, query, get_machine.
  rewrite Hm. by destruct ign.
Qed.

Lemma traverse_states_names rec fuel self oe ox ign parent' remap ss :
  ∀ acc w,
  traverse_states rec fuel self oe ox ign parent' remap (SStr <$> ss) acc w =
    let kept := filter (λ s, remap !! s = None) ss in
    (Ok (acc ++ seq (length (nodes w)) (length kept)),
     mkWorld (nodes w ++ ((λ s, mkNestedState s parent' oe ox ign None) <$> kept))
       (machines w) (dicts w) (effects w)).
Proof.
  induction ss as [|s ss IH]; intros acc w.
  - cbn. rewrite !app_nil_r. by destruct w.
  - rewrite fmap_cons. cbn [traverse_states traverse_state].
    destruct (remap !! s) as [ext|] eqn:Hs.
    + rewrite bool_decide_eq_true_2 by eauto.
      unfold mbind at 1, M_bind at 1, mret at 1, M_ret at 1.
      rewrite IH, app_nil_r. cbn zeta.
      by rewrite filter_cons_False by (by rewrite Hs).
    + rewrite bool_decide_eq_false_2 by (by intros [? ?]).
      unfold mbind at 1, M_bind at 1. unfold mbind at 1, M_bind at 1.
      unfold new_NestedState at 1. unfold mret at 1, M_ret at 1.
      rewrite IH. cbn zeta. rewrite filter_cons_True by done.
      cbn [nodes machines dicts effects length fmap list_fmap seq].
      rewrite length_app, <- !app_assoc. cbn [length app].
      by rewrite Nat.add_1_r.
Qed.

(** X16: [traverse] on names: one new node for every name that is no key of
    [remap], in the order of the names, with the given parent and callbacks
    and the flag of the call or, without one, of the machine; the names that
    are keys of [remap] make no node; nothing else in the store changes. *)
Theorem traverse_names fuel self a ss oe ox ign parent' remap w x :
  machines w !! self = Some x →
  listify a = SStr <$> ss →
  let kept := filter (λ s, remap !! s = None) ss in
  let flag := Some (default (machine_ignore_invalid_triggers x) ign) in
  traverse (S fuel) self a oe ox ign parent' remap w =
    (Ok (seq (length (nodes w)) (length kept)),
     mkWorld
       (nodes w ++ ((λ s, mkNestedState s parent' oe ox flag None) <$> kept))
       (machines w) (dicts w) (effects w)).
Proof.
  intros Hm Ha kept flag.
  rewrite (traverse_unfold _ _ _ _ _ _ _ _ _ _ Hm), Ha.
  by rewrite traverse_states_names.
Qed.

Lemma traverse_states_nodes rec fuel self oe ox ign parent' remap ns :
  ∀ acc w,
  traverse_states rec fuel self oe ox ign parent' remap (SNode <$> ns) acc w =
    (Ok (acc ++ ns), w).
Proof.
  induction ns as [|n ns IH]; intros acc w.
  - cbn. by rewrite app_nil_r.
  - rewrite fmap_cons. cbn [traverse_states traverse_state].
    unfold mbind at 1, M_bind at 1, mret at 1, M_ret at 1.
    by rewrite IH, <- app_assoc.
Qed.

(** X17: [traverse] on node objects: they are returned as they are, in their
    order; no node is made or copied, and the parent link of a node given is
    not set to the parent of the call, nor is a node left out whose name is
    a key of [remap]. *)
Theorem traverse_nodes fuel self a ns oe ox ign parent' remap w x :
  machines w !! self = Some x →
  listify a = SNode <$> ns →
  traverse (S fuel) self a oe ox ign parent' remap w = (Ok ns, w).
Proof.
  intros Hm Ha.
  rewrite (traverse_unfold _ _ _ _ _ _ _ _ _ _ Hm), Ha.
  by rewrite traverse_states_nodes.
Qed.

Lemma bind_run {A B} (m : M A) (k : A → M B) w a w1 :
  m w = (Ok a, w1) → (x ← m; k x) w = k a w1.
Proof. intros H. unfold mbind, M_bind. by rewrite H. Qed.

Lemma bind_raise {A B} (m : M A) (k : A → M B) w e w1 :
  m w = (Raise e, w1) → (x ← m; k x) w = (Raise e, w1).
Proof. intros H. unfold mbind, M_bind. by rewrite H. Qed.

(** A call whose [states] holds no machine instance directly leaves the
    objects that existed before as they were. *)
Lemma traverse_untouched fuel self a oe ox ign parent' remap w r w' :
  Forall (λ s, ∀ m, s ≠ SMachine m) (listify a) →
  traverse fuel self a oe ox ign parent' remap w = (r, w') →
  untouched self w w'.
Proof.
  intros Ha Hrun.
  eapply (keeps_traverse _ _ _ self fuel); [| |exact Hrun].
  - unfold arg_above. eapply Forall_impl; [exact Ha|].
    intros [] Hs; try done. by destruct (Hs m).
  - repeat split; try done.
    + intros i x Hi Hx. apply lookup_lt_Some in Hx. lia.
    + intros i d b Hi Hx. apply lookup_lt_Some in Hx. lia.
Qed.

(** The dictionary that the turn for a dictionary works on: the copy, with
    the flag defaulted and the parent entered. *)
Lemma traverse_state_dict_copy rec fuel self oe ox ign parent' remap d acc w sd :
  dicts w !! d = Some sd →
  let kn := length (nodes w) in
  let km := length (machines w) in
  let kd := length (dicts w) in
  let sd' := mkStateDict (d_name sd) (d_on_enter sd) (d_on_exit sd)
               (Some (default ign (d_ignore_invalid_triggers sd)))
               (copy_arg kn km kd <$> d_children sd) (d_remap sd)
               (Some parent') in
  let w1 := mkWorld (nodes w ++ (copy_node kn <$> nodes w))
              (machines w ++ (copy_machine kn <$> machines w))
              (<[d + kd := sd']> (dicts w ++ (copy_dict kn km kd <$> dicts w)))
              (effects w) in
  traverse_state rec fuel self oe ox ign parent' remap (SDict d) acc w =
    match d_children sd' with
    | Some kids =>
        match d_name sd' with
        | None => raise KeyError
        | Some nm =>
            p ← new_NestedState (mkNestedState nm parent' oe ox ign None);
            kids' ← rec kids oe ox ign (Some p) (default ∅ (d_remap sd'));
            set_children kids' p;;
            mret (acc, p :: kids')
        end
    | None =>
        match d_name sd', d_remap sd' with
        | Some nm, None =>
            r ← new_NestedState
                   (mkNestedState nm parent' (default [] (d_on_enter sd'))
                      (default [] (d_on_exit sd'))
                      (default ign (d_ignore_invalid_triggers sd')) None);
            mret (acc, [r])
        | _, _ => raise TypeError
        end
    end w1.
Proof.
  intros Hd kn km kd sd' w1. cbn [traverse_state].
  unfold mbind at 1, M_bind at 1, deepcopy at 1.
  unfold mbind at 1, M_bind at 1, query at 1.
  unfold get_dict. cbn [dicts].
  rewrite lookup_app_r by lia.
  replace (d + length (dicts w) - length (dicts w)) with d by lia.
  rewrite list_lookup_fmap, Hd. cbn [fmap option_fmap option_map].
  unfold mbind at 1, M_bind at 1, set_dicts at 1.
  cbn [nodes machines dicts effects copy_dict d_name d_on_enter d_on_exit
       d_ignore_invalid_triggers d_children d_remap d_parent].
  reflexivity.
Qed.

(** X18: [traverse] on a dictionary without children: one new node, made from
    the dictionary's own entries (its name, its callbacks, its flag when it
    has one and else the flag of the call or of the machine) with the parent
    of the call; the callbacks of the call are not used; the caller's
    dictionary and every other object that existed are as they were. *)
Theorem traverse_dict_leaf fuel self d sd nm oe ox ign parent' remap w x :
  machines w !! self = Some x →
  dicts w !! d = Some sd →
  d_name sd = Some nm → d_children sd = None → d_remap sd = None →
  let flag := Some (default (machine_ignore_invalid_triggers x) ign) in
  ∃ r w',
    traverse (S fuel) self (One (SDict d)) oe ox ign parent' remap w
      = (Ok [r], w') ∧
    length (nodes w) ≤ r ∧
    nodes w' !! r =
      Some (mkNestedState nm parent' (default [] (d_on_enter sd))
              (default [] (d_on_exit sd))
              (default flag (d_ignore_invalid_triggers sd)) None) ∧
    untouched self w w'.
Proof.
  intros Hm Hd Hnm Hkids Hremap flag.
  assert (∃ r w', traverse (S fuel) self (One (SDict d)) oe ox ign parent'
                    remap w = (Ok [r], w') ∧
            length (nodes w) ≤ r ∧
            nodes w' !! r =
              Some (mkNestedState nm parent' (default [] (d_on_enter sd))
                      (default [] (d_on_exit sd))
                      (default flag (d_ignore_invalid_triggers sd)) None))
    as (r & w' & Hrun & Hr & Hnode).
  { rewrite (traverse_unfold _ _ _ _ _ _ _ _ _ _ Hm).
    cbn [listify traverse_states].
    eexists _, _. split; [|split].
    - erewrite bind_run; last first.
      { rewrite (traverse_state_dict_copy _ _ _ _ _ _ _ _ _ _ _ _ Hd).
        cbn [d_children d_name d_remap d_on_enter d_on_exit
             d_ignore_invalid_triggers].
        rewrite Hkids, Hnm, Hremap. cbn [fmap option_fmap option_map].
        unfold mbind, M_bind, new_NestedState, mret, M_ret.
        cbn [nodes machines dicts effects app]. reflexivity. }
      reflexivity.
    - solve_len.
    - cbn [nodes default]. rewrite lookup_app_r by done.
      by rewrite Nat.sub_diag. }
  exists r, w'. split; [done|]. split; [done|]. split; [done|].
  eapply traverse_untouched; [|exact Hrun]. by repeat constructor.
Qed.

(** X19: [traverse] on a dictionary that cannot be made a node: without a name
    it raises [KeyError] when it has children, the name being looked up
    first, and [TypeError] when it has none, the constructor missing its
    argument; with a [remap] entry and no children it raises [TypeError],
    the constructor knowing no such argument.  The objects that existed are
    as they were. *)
Theorem traverse_dict_errors fuel self d sd oe ox ign parent' remap w x :
  machines w !! self = Some x →
  dicts w !! d = Some sd →
  d_name sd = None ∨ (d_children sd = None ∧ d_remap sd ≠ None) →
  ∃ w',
    traverse (S fuel) self (One (SDict d)) oe ox ign parent' remap w
      = (Raise (match d_children sd with Some _ => KeyError | None => TypeError end), w') ∧
    untouched self w w'.
Proof.
  intros Hm Hd Hbad.
  assert (∃ w', traverse (S fuel) self (One (SDict d)) oe ox ign parent'
                  remap w
                = (Raise (match d_children sd with Some _ => KeyError | None => TypeError end), w'))
    as (w' & Hrun).
  { rewrite (traverse_unfold _ _ _ _ _ _ _ _ _ _ Hm).
    cbn [listify traverse_states].
    destruct (d_children sd) as [kids|] eqn:Hkids;
      destruct (d_name sd) as [nm|] eqn:Hnm;
      destruct (d_remap sd) as [rm|] eqn:Hremap;
      try (by destruct Hbad as [?|[? ?]]);
      eexists; (erewrite bind_raise; [reflexivity|]);
      rewrite (traverse_state_dict_copy _ _ _ _ _ _ _ _ _ _ _ _ Hd);
      cbn [d_children d_name d_remap d_on_enter d_on_exit
           d_ignore_invalid_triggers];
      rewrite Hkids, Hnm, ?Hremap; reflexivity. }
  exists w'. split; [done|].
  eapply traverse_untouched; [|exact Hrun]. by repeat constructor.
Qed.

Lemma listify_copy_arg kn km kd a :
  listify (copy_arg kn km kd a) = copy_spec kn km kd <$> listify a.
Proof. by destruct a. Qed.

(** X20: [traverse] on a dictionary with children that are names: a node for
    the dictionary, made with the callbacks and the flag of the call (the
    dictionary's own callbacks and flag are not used), and after it one node
    for every child name that is no key of the dictionary's [remap], in
    their order, each with the dictionary's node as parent; the dictionary's
    node lists them as its children.  The [remap] of the call plays no part
    below the dictionary, and the objects that existed are as they were. *)
Theorem traverse_dict_children fuel self d sd nm a ss oe ox ign parent' remap
    w x :
  machines w !! self = Some x →
  dicts w !! d = Some sd →
  d_name sd = Some nm → d_children sd = Some a → listify a = SStr <$> ss →
  let flag := Some (default (machine_ignore_invalid_triggers x) ign) in
  let kept := filter (λ s, default ∅ (d_remap sd) !! s = None) ss in
  ∃ p w',
    traverse (S (S fuel)) self (One (SDict d)) oe ox ign parent' remap w
      = (Ok (p :: seq (S p) (length kept)), w') ∧
    length (nodes w) ≤ p ∧
    nodes w' !! p =
      Some (mkNestedState nm parent' oe ox flag
              (Some (seq (S p) (length kept)))) ∧
    (∀ i s, kept !! i = Some s →
       nodes w' !! (S p + i) = Some (mkNestedState s (Some p) oe ox flag None)) ∧
    untouched self w w'.
Proof.
  intros Hm Hd Hnm Hkids Ha flag kept.
  set (kn := length (nodes w)).
  set (p := kn + kn).
  assert (∃ w', traverse (S (S fuel)) self (One (SDict d)) oe ox ign parent'
                  remap w = (Ok (p :: seq (S p) (length kept)), w') ∧
            nodes w' =
              <[p := mkNestedState nm parent' oe ox flag
                       (Some (seq (S p) (length kept)))]>
                (((nodes w ++ (copy_node kn <$> nodes w))
                  ++ [mkNestedState nm parent' oe ox flag None])
                 ++ ((λ s, mkNestedState s (Some p) oe ox flag None) <$> kept)))
    as (w' & Hrun & Hnodes).
  { rewrite (traverse_unfold _ _ _ _ _ _ _ _ _ _ Hm).
    cbn [listify traverse_states].
    eexists. split.
    - erewrite bind_run; last first.
      { rewrite (traverse_state_dict_copy _ _ _ _ _ _ _ _ _ _ _ _ Hd).
        cbn [d_children d_name d_remap d_on_enter d_on_exit
             d_ignore_invalid_triggers].
        rewrite Hkids, Hnm. cbn [fmap option_fmap option_map].
        erewrite bind_run; [|reflexivity].
        erewrite bind_run; last first.
        { cbn [nodes machines dicts effects].
          erewrite (traverse_unfold _ _ _ _ _ _ _ _ _ x); last first.
          { cbn [machines]. rewrite lookup_app_l by (by eapply lookup_lt_Some).
            done. }
          rewrite listify_copy_arg, Ha, <- list_fmap_compose.
          erewrite (list_fmap_ext _ SStr ss) by done.
          rewrite traverse_states_names. reflexivity. }
        cbn [nodes machines dicts effects default].
        unfold mbind, M_bind, set_children, update_node, set_nodes, mret, M_ret.
        cbn [nodes machines dicts effects].
        rewrite length_app, length_fmap. fold kn. fold p.
        rewrite (lookup_app_l _ _ p); last first.
        { rewrite !length_app, length_fmap. fold kn. unfold p. simpl. lia. }
        rewrite lookup_app_r; last first.
        { rewrite !length_app, length_fmap. fold kn. unfold p. lia. }
        rewrite !length_app, length_fmap. fold kn. fold p.
        rewrite Nat.sub_diag. cbn [lookup list_lookup].
        reflexivity. }
      cbn [app length]. rewrite Nat.add_1_r. reflexivity.
    - reflexivity. }
  assert (length ((nodes w ++ (copy_node kn <$> nodes w))
                  ++ [mkNestedState nm parent' oe ox flag None]) = S p) as Hlen
    by (rewrite !length_app, length_fmap; simpl; unfold p, kn; lia).
  exists p, w'. split; [done|]. split; [unfold p; lia|]. split; [|split].
  - rewrite Hnodes. apply list_lookup_insert_eq.
    rewrite length_app, Hlen. lia.
  - intros i s Hi. rewrite Hnodes.
    rewrite list_lookup_insert_ne by lia.
    rewrite lookup_app_r by lia. rewrite Hlen.
    replace (S p + i - S p) with i by lia.
    by rewrite list_lookup_fmap, Hi.
  - eapply traverse_untouched; [|exact Hrun]. by repeat constructor.
Qed.

(** *** The triggers of an embedded machine *)

Lemma string_app_nil_r (s : string) : s +:+ "" = s.
Proof.
  induction s as [|c s IH]; [done|].
  change (String c (s +:+ "") = String c s). by rewrite IH.
Qed.

Lemma rev_string_app acc : ∀ s, rev_string acc s = rev_string acc "" +:+ s.
Proof.
  induction acc as [|c acc IH]; intros s; [done|].
  cbn [rev_string]. rewrite (IH (String c s)), (IH (String c "")).
  by rewrite string_app_assoc.
Qed.

Lemma split_aux_nonempty sep s : ∀ cur, split_aux sep cur s ≠ [].
Proof.
  induction s as [|c s IH]; intros cur; [done|].
  cbn [split_aux]. by destruct (Ascii.eqb c sep).
Qed.

Lemma join_cons sep a (l : list string) :
  l ≠ [] → join sep (a :: l) = a +:+ sep +:+ join sep l.
Proof. by destruct l. Qed.

(** Joining the segments of a string gives the string back. *)
Lemma join_split_aux sep s : ∀ cur,
  join (String sep "") (split_aux sep cur s) = rev_string cur "" +:+ s.
Proof.
  induction s as [|c s IH]; intros cur.
  - cbn [split_aux]. by rewrite string_app_nil_r.
  - cbn [split_aux]. destruct (Ascii.eqb c sep) eqn:Hc.
    + apply Ascii.eqb_eq in Hc as ->.
      rewrite join_cons by apply split_aux_nonempty. by rewrite IH.
    + rewrite IH. cbn [rev_string].
      rewrite (rev_string_app cur (String c "")).
      by rewrite string_app_assoc.
Qed.

Lemma join_split sep s : join (String sep "") (split sep s) = s.
Proof. unfold split. by rewrite join_split_aux. Qed.

Lemma join_app sep (l1 l2 : list string) :
  l1 ≠ [] → l2 ≠ [] →
  join sep (l1 ++ l2) = join sep l1 +:+ sep +:+ join sep l2.
Proof.
  intros H1 H2. induction l1 as [|a [|b l1] IH]; [done| |].
  - cbn [app]. by rewrite join_cons.
  - specialize (IH ltac:(done)).
    change ((a :: b :: l1) ++ l2) with (a :: (b :: l1) ++ l2).
    rewrite join_cons by done. rewrite IH.
    rewrite (join_cons sep a (b :: l1)) by done.
    by rewrite !string_app_assoc.
Qed.

Lemma join_prefix_head sep a h (t : list string) :
  join sep ((a +:+ h) :: t) = a +:+ join sep (h :: t).
Proof.
  destruct t as [|b t]; [done|].
  rewrite !join_cons by done. by rewrite string_app_assoc.
Qed.

Lemma startswith_drop p s :
  startswith p s = true → s = p +:+ str_drop (String.length p) s.
Proof.
  unfold startswith. revert s. induction p as [|c p IH]; intros s H; [done|].
  destruct s as [|c' s]; [done|]. cbn [String.prefix] in H.
  destruct (ascii_dec c c') as [->|]; [|done].
  cbn [String.length str_drop].
  change (String c' s = String c' (p +:+ str_drop (String.length p) s)).
  f_equal. by apply IH.
Qed.

(** X21: the trigger under which a transition of an embedded machine is
    buffered: a trigger that starts with [to_] gets the qualified name of
    the parent put between [to_] and the rest, with a separator; every other
    trigger is kept. *)
Theorem embedded_trigger_prefixed fuel w p pn trigger_name :
  name fuel w p = Ok pn →
  embedded_trigger fuel w (Some p) trigger_name =
    Ok (if startswith "to_" trigger_name
        then "to_" +:+ pn +:+ "." +:+ str_drop 3 trigger_name
        else trigger_name).
Proof.
  intros Hp. unfold embedded_trigger, parent_name. rewrite Hp.
  destruct (startswith "to_" trigger_name); [|done].
  cbn [mbind result_bind]. f_equal.
  pose proof (join_split "." pn) as Hpn. unfold split in *.
  pose proof (split_aux_nonempty "." pn []) as Hne.
  destruct (split_aux "." [] pn) as [|h t]; [done|]. cbn [hd tl].
  rewrite join_prefix_head, app_comm_cons.
  rewrite join_app by (done || apply split_aux_nonempty).
  change (join "." (h :: t)) with (join (String "." "") (h :: t)).
  rewrite Hpn.
  change (join "." (split_aux "." [] (str_drop 3 trigger_name)))
    with (join (String "." "") (split "." (str_drop 3 trigger_name))).
  by rewrite join_split.
Qed.

End TraverseLaws.

Section TraverseScenarios.

Lemma traverse_names_witness :
  traverse 1 0 (Many [SStr "a"; SStr "b"]) ["ring"] [] None (Some 0)
    {["b" := "Z"]} spec_world =
  (Ok [1],
   mkWorld [state "N" None;
            mkNestedState "a" (Some 0) ["ring"] [] (Some false) None]
     (machines spec_world) (dicts spec_world) []).
Proof.
  pose proof (traverse_names 0 0 (Many [SStr "a"; SStr "b"]) ["a"; "b"]
                ["ring"] [] None (Some 0) {["b" := "Z"]} spec_world
                host_machine eq_refl eq_refl) as H.
  vm_compute in H. vm_compute. exact H.
Defined.

Lemma traverse_nodes_witness :
  traverse 1 0 (Many [SNode 2; SNode 4]) [] [] None (Some 0) ∅ scenario_world
    = (Ok [2; 4], scenario_world).
Proof.
  apply (traverse_nodes 0 0 _ [2; 4] [] [] None (Some 0) ∅ scenario_world
           scenario_machine); reflexivity.
Defined.

Lemma traverse_dict_leaf_witness :
  ∃ r w',
    traverse 1 0 (One (SDict 0)) ["other"] [] None (Some 0) ∅ spec_world
      = (Ok [r], w') ∧
    length (nodes spec_world) ≤ r ∧
    nodes w' !! r
      = Some (mkNestedState "L" (Some 0) ["ring"] [] (Some false) None) ∧
    untouched 0 spec_world w'.
Proof.
  apply (traverse_dict_leaf 0 0 0 leaf_dict "L" ["other"] [] None (Some 0) ∅
           spec_world host_machine); reflexivity.
Defined.

Lemma traverse_dict_errors_witness :
  ∃ w',
    traverse 1 0 (One (SDict 2)) [] [] None None ∅ spec_world
      = (Raise KeyError, w') ∧
    untouched 0 spec_world w'.
Proof.
  apply (traverse_dict_errors 0 0 2 nameless_dict [] [] None None ∅ spec_world
           host_machine); [reflexivity|reflexivity|by left].
Defined.

Lemma traverse_dict_children_witness :
  ∃ p w',
    traverse 2 0 (One (SDict 1)) [] [] (Some true) None ∅ spec_world
      = (Ok [p; S p], w') ∧
    length (nodes spec_world) ≤ p ∧
    nodes w' !! p
      = Some (mkNestedState "F" None [] [] (Some true) (Some [S p])) ∧
    (∀ i s, ["a"] !! i = Some s →
       nodes w' !! (S p + i)
       = Some (mkNestedState s (Some p) [] [] (Some true) None)) ∧
    untouched 0 spec_world w'.
Proof.
  apply (traverse_dict_children 0 0 1 family_dict "F"
           (Many [SStr "a"; SStr "b"]) ["a"; "b"] [] [] (Some true) None
           ∅ spec_world host_machine); reflexivity.
Defined.

Lemma embedded_trigger_prefixed_witness :
  embedded_trigger 5 scenario_world (Some 1) "to_P.Q" = Ok "to_A.B.P.Q".
Proof.
  apply (embedded_trigger_prefixed 5 scenario_world 1 "A.B" "to_P.Q").
  reflexivity.
Defined.

End TraverseScenarios.

(** ** HierarchicalMachine.traverse: machine instances *)

Section MachineLaws.

(** X22: [traverse] on a machine instance under a parent node: the states taken
    are the states of the instance's registry that have no parent and whose
    name is no key of [remap]; exactly these nodes get the parent of the
    call, in place, and every other node of the store (the instance's states
    below its roots, the states left out by [remap], the nodes of the
    embedding machine) is as it was; the list returned holds the states
    taken twice over. *)
Theorem traverse_machine_selects fuel self m y oe ox ign p remap w l w' :
  machines w !! m = Some y →
  traverse (S fuel) self (One (SMachine m)) oe ox ign (Some p) remap w
    = (Ok l, w') →
  let rs := filter (λ r, embeddable w remap r = true) (dict_values (states y)) in
  l = rs ++ rs ∧
  ∀ r, nodes w' !! r =
       if decide (r ∈ rs) then reparented (Some p) <$> nodes w !! r
       else nodes w !! r.
Proof.
  intros Hy Hrun rs. cbn [traverse listify traverse_states] in Hrun.
  apply bind_ok_inv in Hrun as (x & w1 & [Hx ->]%query_ok_inv & Hrun).
  apply bind_ok_inv in Hrun as ([ns tmp] & w1 & H1 & Hrun).
  injection Hrun as <- <-.
  apply traverse_state_machine in H1 as (y' & Hy' & Hrs & -> & Hlen & Hin & Hout).
  rewrite Hy in Hy'. injection Hy' as <-.
  apply root_states_filter in Hrs. fold rs in Hrs. subst ns.
  split; [done|]. intros r. case_decide as Hr.
  - destruct (Hin r Hr) as (s & Hs & _ & Hs'). by rewrite Hs', Hs.
  - by apply Hout.
Qed.

Lemma set_parent_root w r s :
  nodes w !! r = Some s → parent s = None → set_parent None r w = (Ok (), w).
Proof.
  intros Hs Hp. unfold set_parent, update_node, set_nodes. rewrite Hs.
  f_equal. destruct s as [n q oe ox ig ch]. cbn in Hp. subst q. cbn.
  rewrite list_insert_id by done. by destruct w.
Qed.

Lemma for_each_set_parent_roots w rs :
  (∀ r, r ∈ rs → ∃ s, nodes w !! r = Some s ∧ parent s = None) →
  for_each rs (set_parent None) w = (Ok (), w).
Proof.
  induction rs as [|r rs IH]; intros Hall; [done|].
  cbn [for_each]. destruct (Hall r ltac:(left)) as (s & Hs & Hp).
  erewrite bind_run by (by eapply set_parent_root).
  apply IH. intros r' Hr'. apply Hall. by right.
Qed.

Lemma embed_transitions_no_parent fuel self remap trigger' vals w :
  for_each vals (λ ts : list Transition,
    for_each ts (λ t,
      b ← query (λ w, embedded_transition fuel w None remap trigger' t);
      buffer self b)) w =
  if forallb (λ ts : list Transition, bool_decide (ts = [])) vals
  then (Ok (), w) else (Raise AttributeError, w).
Proof.
  induction vals as [|ts vals IH]; [done|].
  cbn [for_each forallb]. destruct ts as [|t ts].
  - rewrite bool_decide_eq_true_2 by done. cbn [andb].
    by erewrite bind_run by reflexivity.
  - rewrite bool_decide_eq_false_2 by done. cbn [andb].
    erewrite bind_raise; [done|]. cbn [for_each].
    erewrite bind_raise; [done|].
    erewrite bind_raise; [done|].
    unfold query, embedded_transition, parent_name.
    by destruct (remap !! dest t).
Qed.

Lemma embed_events_no_parent fuel self remap evs w :
  embed_events fuel self None remap evs w =
    if forallb (λ ev, negb (uses_parent_name ev)) evs
    then (Ok (), w) else (Raise AttributeError, w).
Proof.
  unfold embed_events. induction evs as [|[tn e] evs IH]; [done|].
  cbn [for_each forallb]. unfold uses_parent_name at 1. cbn [fst snd].
  destruct (startswith "to_" tn) eqn:Hto.
  - cbn [orb negb andb]. erewrite bind_raise; [done|].
    erewrite bind_raise; [done|].
    unfold query, embedded_trigger. by rewrite Hto.
  - cbn [orb]. rewrite negb_involutive.
    destruct (forallb _ (dict_values (items (transitions e)))) eqn:Hall.
    + cbn [andb]. erewrite bind_run; [exact IH|].
      erewrite bind_run; last first.
      { unfold query, embedded_trigger. by rewrite Hto. }
      by rewrite embed_transitions_no_parent, Hall.
    + cbn [andb]. erewrite bind_raise; [done|].
      erewrite bind_run; last first.
      { unfold query, embedded_trigger. by rewrite Hto. }
      by rewrite embed_transitions_no_parent, Hall.
Qed.

(** X23: a machine instance given to [traverse] without a parent, as
    [add_states] on a machine instance does: when the instance has an event
    whose trigger starts with [to_], or any transition, the call ends with
    the attribute access on the missing parent, [AttributeError]; nothing
    has been buffered and no node has changed.  Without such an event the
    states taken are returned, twice over, as they are. *)
Theorem traverse_machine_without_parent fuel self m x y oe ox ign remap w rs :
  machines w !! self = Some x →
  machines w !! m = Some y →
  root_states fuel w remap (dict_values (states y)) = Ok rs →
  traverse (S fuel) self (One (SMachine m)) oe ox ign None remap w =
    if forallb (λ ev, negb (uses_parent_name ev)) (events y)
    then (Ok (rs ++ rs), w) else (Raise AttributeError, w).
Proof.
  intros Hx Hy Hrs.
  rewrite (traverse_unfold _ _ _ _ _ _ _ _ _ _ Hx).
  cbn [listify traverse_states traverse_state].
  assert (for_each rs (set_parent None) w = (Ok (), w)) as Hset.
  { apply for_each_set_parent_roots. by eapply root_states_roots. }
  pose proof (embed_events_no_parent fuel self remap (events y) w) as Hev.
  destruct (forallb _ (events y)).
  - erewrite bind_run; last first.
    { erewrite bind_run by (unfold query, get_machine; by rewrite Hy).
      erewrite bind_run by (unfold query; by rewrite Hrs).
      erewrite bind_run by exact Hset.
      by erewrite bind_run by exact Hev. }
    reflexivity.
  - erewrite bind_raise; [reflexivity|].
    erewrite bind_run by (unfold query, get_machine; by rewrite Hy).
    erewrite bind_run by (unfold query; by rewrite Hrs).
    erewrite bind_run by exact Hset.
    by erewrite bind_raise by exact Hev.
Qed.

End MachineLaws.

Section MachineScenarios.

Lemma traverse_machine_selects_witness :
  direct_embedding.1 = Ok [0; 1; 0; 1] ∧
  ∀ r, nodes direct_embedding.2 !! r =
       if decide (r ∈ [0; 1])
       then reparented (Some 3) <$> nodes embedding_world !! r
       else nodes embedding_world !! r.
Proof.
  destruct (traverse_machine_selects 4 0 1 donor_machine [] [] None 3 remap_R
              embedding_world [0; 1; 0; 1] direct_embedding.2 eq_refl
              ltac:(by vm_compute)) as [_ H].
  split; [by vm_compute|exact H].
Defined.

Lemma traverse_machine_without_parent_witness :
  traverse 5 0 (One (SMachine 1)) [] [] None None ∅ embedding_world
    = (Raise AttributeError, embedding_world).
Proof.
  apply (traverse_machine_without_parent 4 0 1 host_machine donor_machine
           [] [] None ∅ embedding_world [0; 1; 2] eq_refl eq_refl
           ltac:(by vm_compute)).
Defined.

End MachineScenarios.

(** ** HierarchicalMachine.add_transition and add_states: bindings and the buffer *)

Section OrchestratorLaws.

Variable class_attr : string → bool.
Variable model_class_attr : string → bool.
Variable isdigit : string → bool.

Lemma update_machine_run w self x f :
  machines w !! self = Some x →
  update_machine self f w = (Ok (), with_machine w self (f x)).
Proof. intros Hm. unfold update_machine, set_machines, with_machine. by rewrite Hm. Qed.

Lemma with_machine_lookup w self x x' :
  machines w !! self = Some x →
  machines (with_machine w self x') !! self = Some x'.
Proof. intros Hm. apply list_lookup_insert_eq. by eapply lookup_lt_Some. Qed.

Lemma with_machine_twice w self a b :
  with_machine (with_machine w self a) self b = with_machine w self b.
Proof. unfold with_machine. cbn. by rewrite list_insert_insert_eq. Qed.

Lemma with_machine_same w self x :
  machines w !! self = Some x → with_machine w self x = w.
Proof.
  intros Hm. unfold with_machine. rewrite list_insert_id by done. by destruct w.
Qed.

Lemma registered_with_machine w self x x' tr k :
  machines w !! self = Some x →
  registered (with_machine w self x') self tr k =
    match dict_get tr (events x') with
    | Some e => table_list k (transitions e)
    | None => []
    end.
Proof.
  intros Hm. unfold registered. by rewrite (with_machine_lookup _ _ _ _ Hm).
Qed.

(** What the modelled storage of the base engine does to the machine. *)
Lemma base_add_transition_shape self trigger_name dest' c u b a srcs :
  ∀ w x w',
  machines w !! self = Some x →
  base_add_transition self trigger_name srcs dest' c u b a w = (Ok (), w') →
  ∃ x', w' = with_machine w self x' ∧
    states x' = states x ∧ current_state x' = current_state x ∧
    machine_ignore_invalid_triggers x' = machine_ignore_invalid_triggers x ∧
    _buffered_transitions x' = _buffered_transitions x ∧
    model x' = model x ∧
    (∀ tr, tr ≠ trigger_name →
       dict_get tr (events x') = dict_get tr (events x)).
Proof.
  unfold base_add_transition.
  induction srcs as [|s srcs IH]; intros w x w' Hm Hrun.
  - injection Hrun as <-. exists x. by rewrite with_machine_same.
  - cbn [for_each] in Hrun.
    apply bind_ok_inv in Hrun as ([] & w1 & Hstep & Hrun).
    apply bind_ok_inv in Hstep as (x0 & w0 & [Hx ->]%query_ok_inv & Hstep).
    unfold get_machine in Hx. rewrite Hm in Hx. injection Hx as <-.
    destruct (dict_get trigger_name (events x)) as [e|] eqn:He; [|done].
    apply bind_ok_inv in Hstep as (tb & w0 & [Htb ->]%query_ok_inv & Hstep).
    unfold set_event in Hstep.
    rewrite (update_machine_run _ _ _ _ Hm) in Hstep. injection Hstep as <-.
    destruct (IH _ _ _ (with_machine_lookup _ _ _ _ Hm) Hrun)
      as (x' & -> & Hst & Hcur & Hig & Hbuf & Hmod & Hev).
    exists x'. rewrite with_machine_twice. repeat split; try done.
    intros tr Htr. rewrite (Hev tr Htr). cbn [events].
    by rewrite dict_get_set_ne.
Qed.

Lemma registered_other_trigger w self x x' tr k :
  machines w !! self = Some x →
  dict_get tr (events x') = dict_get tr (events x) →
  registered (with_machine w self x') self tr k = registered w self tr k.
Proof.
  intros Hm He. rewrite (registered_with_machine _ _ _ _ _ _ Hm).
  unfold registered. by rewrite Hm, He.
Qed.

(** The whole effect of a call of [add_transition] that returns. *)
Lemma add_transition_inv fuel self trigger_name source' dest' c u b a w w' x :
  machines w !! self = Some x →
  add_transition class_attr model_class_attr isdigit fuel self trigger_name
    source' dest' c u b a w = (Ok (), w') →
  ∃ srcs x',
    sources_of fuel w x source' = Ok srcs ∧
    w' = with_machine w self x' ∧
    states x' = states x ∧ current_state x' = current_state x ∧
    machine_ignore_invalid_triggers x' = machine_ignore_invalid_triggers x ∧
    _buffered_transitions x' = _buffered_transitions x ∧
    (∀ tr k, registered w' self tr k =
       registered w self tr k ++
       if decide (tr = trigger_name)
       then (λ s, mkTransition s dest' c u b a) <$> filter (λ s, s = k) srcs
       else []) ∧
    (if dict_in trigger_name (events x) then model x' = model x
     else if startswith "to_" trigger_name then
       let path := split "." (str_drop 3 trigger_name) in
       let attr := "to_" +:+ hd "" path in
       ∃ t, model x' = <[attr := MWrapper t]> (model x) ∧
         ((∃ t0, model x !! attr = Some (MWrapper t0) ∧
                 FunctionWrapper.add class_attr isdigit trigger_name (tl path) t0 = Ok t) ∨
          (model x !! attr = None ∧ model_class_attr attr = false ∧
           FunctionWrapper.init class_attr isdigit trigger_name (tl path) = Ok t))
     else model x' = <[trigger_name := MTrigger trigger_name]> (model x)).
Proof.
  intros Hm Hrun. unfold add_transition in Hrun.
  apply bind_ok_inv in Hrun as (x0 & w0 & [Hx ->]%query_ok_inv & Hrun).
  unfold get_machine in Hx. rewrite Hm in Hx. injection Hx as <-.
  apply bind_ok_inv in Hrun as (srcs & w0 & Hsrcs & Hrun).
  assert (sources_of fuel w x source' = Ok srcs ∧ w0 = w) as [Hsources ->].
  { unfold sources_of. destruct source' as [s|l].
    - case_bool_decide.
      + by apply query_ok_inv in Hsrcs.
      + by injection Hsrcs as <- <-.
    - by injection Hsrcs as <- <-. }
  clear Hsrcs.
  apply bind_ok_inv in Hrun as ([] & w1 & Hblock & Hrun).
  exists srcs.
  (* the block that registers a new event and binds it on the model *)
  assert (∃ x1, w1 = with_machine w self x1 ∧
            states x1 = states x ∧ current_state x1 = current_state x ∧
            machine_ignore_invalid_triggers x1 = machine_ignore_invalid_triggers x ∧
            _buffered_transitions x1 = _buffered_transitions x ∧
            (∀ tr k, registered w1 self tr k = registered w self tr k) ∧
            (if dict_in trigger_name (events x) then model x1 = model x
             else if startswith "to_" trigger_name then
               let path := split "." (str_drop 3 trigger_name) in
               let attr := "to_" +:+ hd "" path in
               ∃ t, model x1 = <[attr := MWrapper t]> (model x) ∧
                 ((∃ t0, model x !! attr = Some (MWrapper t0) ∧
                         FunctionWrapper.add class_attr isdigit trigger_name (tl path) t0
                         = Ok t) ∨
                  (model x !! attr = None ∧ model_class_attr attr = false ∧
                   FunctionWrapper.init class_attr isdigit trigger_name (tl path) = Ok t))
             else model x1 = <[trigger_name := MTrigger trigger_name]> (model x)))
    as (x1 & -> & Hst1 & Hcur1 & Hig1 & Hbuf1 & Hreg1 & Hmod1).
  { destruct (dict_in trigger_name (events x)) eqn:Hin; cbn [negb] in Hblock.
    { injection Hblock as <-. exists x. by rewrite with_machine_same. }
    apply bind_ok_inv in Hblock as ([] & w2 & Hset & Hblock).
    unfold set_event in Hset.
    rewrite (update_machine_run _ _ _ _ Hm) in Hset. injection Hset as <-.
    set (x2 := mkMachine (states x)
                 (dict_set trigger_name (new_NestedEvent trigger_name) (events x))
                 (current_state x) (machine_ignore_invalid_triggers x)
                 (_buffered_transitions x) (model x)) in *.
    pose proof (with_machine_lookup _ _ _ x2 Hm) as Hm2.
    assert (∀ x3, events x3 = events x2 → ∀ tr k,
              registered (with_machine w self x3) self tr k
              = registered w self tr k) as Hreg.
    { intros x3 He3 tr k. rewrite (registered_with_machine _ _ _ _ _ _ Hm).
      unfold registered. rewrite Hm, He3. cbn [events x2].
      unfold dict_in in Hin. apply bool_decide_eq_false in Hin.
      apply eq_None_not_Some in Hin.
      destruct (decide (tr = trigger_name)) as [->|Hne].
      - by rewrite dict_get_set, Hin.
      - by rewrite dict_get_set_ne. }
    destruct (startswith "to_" trigger_name).
    - apply bind_ok_inv in Hblock as (x2' & w3 & [Hx2 ->]%query_ok_inv & Hblock).
      unfold get_machine in Hx2. rewrite Hm2 in Hx2. injection Hx2 as <-.
      cbn [model x2] in Hblock.
      destruct (model x !! _) as [[|t0]|] eqn:Hattr;
        cbn [bool_decide orb] in Hblock.
      + rewrite bool_decide_eq_true_2 in Hblock by eauto. done.
      + rewrite bool_decide_eq_true_2 in Hblock by eauto. cbn [orb] in Hblock.
        apply bind_ok_inv in Hblock as (t' & w3 & [Ht' ->]%query_ok_inv & Hblock).
        unfold set_model in Hblock.
        rewrite (update_machine_run _ _ _ _ Hm2) in Hblock.
        injection Hblock as <-. rewrite with_machine_twice.
        eexists. split; [reflexivity|]. repeat split; try done.
        * by apply Hreg.
        * exists t'. split; [done|]. left. eauto.
      + rewrite bool_decide_eq_false_2 in Hblock by (by intros [? ?]).
        cbn [orb] in Hblock.
        destruct (model_class_attr _) eqn:Hcls; [done|].
        apply bind_ok_inv in Hblock as (t' & w3 & [Ht' ->]%query_ok_inv & Hblock).
        unfold set_model in Hblock.
        rewrite (update_machine_run _ _ _ _ Hm2) in Hblock.
        injection Hblock as <-. rewrite with_machine_twice.
        eexists. split; [reflexivity|]. repeat split; try done.
        * by apply Hreg.
        * exists t'. split; [done|]. right. eauto.
    - unfold set_model in Hblock.
      rewrite (update_machine_run _ _ _ _ Hm2) in Hblock.
      injection Hblock as <-. rewrite with_machine_twice.
      eexists. split; [reflexivity|]. repeat split; try done.
      by apply Hreg. }
  pose proof (with_machine_lookup _ _ _ x1 Hm) as Hm1.
  destruct (base_add_transition_shape _ _ _ _ _ _ _ _ _ _ _ Hm1 Hrun)
    as (x' & -> & Hst & Hcur & Hig & Hbuf & Hmod & Hev).
  exists x'. rewrite with_machine_twice.
  split; [done|]. split; [done|].
  split; [congruence|]. split; [congruence|]. split; [congruence|].
  split; [congruence|]. split.
  - intros tr k. rewrite <- (Hreg1 tr k).
    rewrite <- (with_machine_twice w self x1 x') at 1.
    case_decide as Htr.
    + subst tr. by eapply base_add_transition_registers.
    + rewrite app_nil_r.
      apply (registered_other_trigger _ _ x1); [done|]. by apply Hev.
  - rewrite Hmod. exact Hmod1.
Qed.

(** X24: [add_transition] with a trigger that does not start with [to_]: the
    first call for the trigger binds the trigger on the model under its own
    name, in place of whatever the model held under that name; a call for a
    trigger that has an event already leaves the model as it is.  The
    registry of states, the active state and the buffer are not touched. *)
Theorem add_transition_binds_trigger fuel self trigger_name source' dest'
    c u b a w w' x :
  machines w !! self = Some x →
  startswith "to_" trigger_name = false →
  add_transition class_attr model_class_attr isdigit fuel self trigger_name
    source' dest' c u b a w = (Ok (), w') →
  ∃ x', machines w' !! self = Some x' ∧
    model x' = (if dict_in trigger_name (events x) then model x
                else <[trigger_name := MTrigger trigger_name]> (model x)) ∧
    states x' = states x ∧ current_state x' = current_state x ∧
    _buffered_transitions x' = _buffered_transitions x ∧
    nodes w' = nodes w.
Proof.
  intros Hm Hto Hrun.
  destruct (add_transition_inv _ _ _ _ _ _ _ _ _ _ _ _ Hm Hrun)
    as (srcs & x' & _ & -> & Hst & Hcur & _ & Hbuf & _ & Hmod).
  exists x'. rewrite (with_machine_lookup _ _ _ _ Hm).
  rewrite Hto in Hmod. repeat split; try done.
  by destruct (dict_in trigger_name (events x)).
Qed.

(** X25: [add_transition] with a new trigger [to_] followed by a dotted path:
    the model holds, under [to_] and the first segment, a wrapper in which
    the stored names of the remaining segments lead, when none of them is
    [_func], to a wrapper whose call runs the trigger; the other attributes
    of the model are as they were. *)
Theorem add_transition_binds_path fuel self trigger_name source' dest'
    c u b a w w' x :
  machines w !! self = Some x →
  dict_in trigger_name (events x) = false →
  startswith "to_" trigger_name = true →
  add_transition class_attr model_class_attr isdigit fuel self trigger_name
    source' dest' c u b a w = (Ok (), w') →
  ∃ first rest stored x' t,
    split "." (str_drop 3 trigger_name) = first :: rest ∧
    FunctionWrapper.mangled isdigit rest = Ok stored ∧
    machines w' !! self = Some x' ∧
    model x' = <["to_" +:+ first := MWrapper t]> (model x) ∧
    ("_func" ∉ stored →
       ∃ wr, FunctionWrapper.find t stored = Some (FunctionWrapper.VObj wr) ∧
             ∀ fuel', FunctionWrapper.call (S fuel') wr = Ok trigger_name).
Proof.
  intros Hm Hnew Hto Hrun.
  destruct (add_transition_inv _ _ _ _ _ _ _ _ _ _ _ _ Hm Hrun)
    as (srcs & x' & _ & -> & _ & _ & _ & _ & _ & Hmod).
  rewrite Hnew, Hto in Hmod. cbn zeta in Hmod.
  pose proof (split_aux_nonempty "." (str_drop 3 trigger_name) []) as Hne.
  unfold split in *.
  destruct (split_aux "." [] (str_drop 3 trigger_name)) as [|first rest];
    [done|]. cbn [hd tl] in Hmod.
  destruct Hmod as (t & Hmod & Ht).
  assert (∃ stored, FunctionWrapper.mangled isdigit rest = Ok stored ∧
            ("_func" ∉ stored →
             ∃ wr, FunctionWrapper.find t stored
                   = Some (FunctionWrapper.VObj wr) ∧
                   FunctionWrapper.attrs wr !! "_func"
                   = Some (FunctionWrapper.VFunc trigger_name)))
    as (stored & Hstored & Hfind).
  { destruct Ht as [(t0 & _ & Hadd)|(_ & _ & Hinit)].
    - destruct (FunctionWrapperFacts.add_mangled _ _ _ _ _ _ Hadd) as [stored Hs].
      exists stored. split; [done|]. intros Hnot.
      by eapply FunctionWrapperFacts.add_stores.
    - assert (∃ stored, FunctionWrapper.mangled isdigit rest = Ok stored) as [stored Hs].
      { apply FunctionWrapperFacts.init_inv in Hinit
          as [[-> _]|(x0 & _ & Hx0 & _)]; [by exists []|].
        by eapply FunctionWrapperFacts.add_mangled. }
      exists stored. split; [done|]. intros Hnot.
      by eapply FunctionWrapperLaws.init_stores. }
  exists first, rest, stored, x', t.
  rewrite (with_machine_lookup _ _ _ _ Hm). repeat split; try done.
  intros Hnot. destruct (Hfind Hnot) as (wr & Hwr & Hfunc).
  exists wr. split; [done|]. intros fuel'. simpl. by rewrite Hfunc.
Qed.

(** X26: [add_transition] with a source other than the string ["*"]: a name is
    registered as it is given, whether or not a state has it, and the names
    of a list are registered one by one, a ["*"] among them as the name it
    is; the transition is added after those the source name had for the
    trigger, and what is registered for other triggers is not touched. *)
Theorem add_transition_named_sources fuel self trigger_name source' dest'
    c u b a w w' x :
  machines w !! self = Some x →
  source' ≠ SourceStr "*" →
  add_transition class_attr model_class_attr isdigit fuel self trigger_name
    source' dest' c u b a w = (Ok (), w') →
  ∀ tr k, registered w' self tr k =
    registered w self tr k ++
    if decide (tr = trigger_name)
    then (λ s, mkTransition s dest' c u b a)
           <$> filter (λ s, s = k)
                 match source' with SourceStr s => [s] | SourceList l => l end
    else [].
Proof.
  intros Hm Hsrc Hrun.
  destruct (add_transition_inv _ _ _ _ _ _ _ _ _ _ _ _ Hm Hrun)
    as (srcs & x' & Hsrcs & _ & _ & _ & _ & _ & Hreg & _).
  intros tr k. rewrite Hreg.
  enough (srcs = match source' with SourceStr s => [s] | SourceList l => l end)
    as -> by done.
  unfold sources_of in Hsrcs. destruct source' as [s|l].
  - rewrite bool_decide_eq_false_2 in Hsrcs by congruence. by injection Hsrcs.
  - by injection Hsrcs.
Qed.

(** *** add_states: the buffer *)

Lemma flush_empties fuel self : ∀ w w',
  flush class_attr model_class_attr isdigit fuel self w = (Ok (), w') →
  ∃ x', machines w' !! self = Some x' ∧ _buffered_transitions x' = [].
Proof.
  induction fuel as [|fuel IH]; intros w w' Hrun; [done|].
  cbn [flush] in Hrun.
  apply bind_ok_inv in Hrun as (x & w0 & [Hx ->]%query_ok_inv & Hrun).
  unfold get_machine in Hx.
  destruct (machines w !! self) as [x0|] eqn:Hm; [|done]. injection Hx as <-.
  destruct (reverse (_buffered_transitions x0)) as [|args rest] eqn:Hbuf.
  - injection Hrun as <-. exists x0. split; [done|].
    apply (f_equal reverse) in Hbuf. by rewrite reverse_involutive in Hbuf.
  - apply bind_ok_inv in Hrun as ([] & w1 & _ & Hrun).
    apply bind_ok_inv in Hrun as ([] & w2 & _ & Hrun). eauto.
Qed.

(** The loop takes the records from the end of the buffer and registers
    the transition of each. *)
Lemma flush_registered fuel self : ∀ w w' x,
  machines w !! self = Some x →
  Forall (λ b, b_source b ≠ "*") (_buffered_transitions x) →
  flush class_attr model_class_attr isdigit fuel self w = (Ok (), w') →
  ∀ tr k, registered w' self tr k =
    registered w self tr k ++
    (record_transition
       <$> filter (λ b, b_trigger b = tr ∧ b_source b = k)
             (reverse (_buffered_transitions x))).
Proof.
  induction fuel as [|fuel IH]; intros w w' x Hm Hall Hrun tr k; [done|].
  cbn [flush] in Hrun.
  apply bind_ok_inv in Hrun as (x0 & w0 & [Hx ->]%query_ok_inv & Hrun).
  unfold get_machine in Hx. rewrite Hm in Hx. injection Hx as <-.
  destruct (reverse (_buffered_transitions x)) as [|args rest] eqn:Hbuf.
  - injection Hrun as <-. by rewrite app_nil_r.
  - apply bind_ok_inv in Hrun as ([] & w1 & Hpop & Hrun).
    rewrite (update_machine_run _ _ _ _ Hm) in Hpop. injection Hpop as <-.
    set (x1 := mkMachine (states x) (events x) (current_state x)
                 (machine_ignore_invalid_triggers x) (reverse rest) (model x))
      in *.
    pose proof (with_machine_lookup _ _ _ x1 Hm) as Hm1.
    apply bind_ok_inv in Hrun as ([] & w2 & Hadd & Hrun).
    destruct (add_transition_inv _ _ _ _ _ _ _ _ _ _ _ _ Hm1 Hadd)
      as (srcs & x2 & Hsrcs & -> & _ & _ & _ & Hbuf2 & Hreg & _).
    pose proof (with_machine_lookup _ _ _ x2 Hm1) as Hm2.
    apply (f_equal reverse) in Hbuf. rewrite reverse_involutive in Hbuf.
    rewrite Hbuf, reverse_cons in Hall.
    apply Forall_app in Hall as [Hrest Hargs].
    rewrite Forall_singleton in Hargs.
    rewrite (IH _ _ _ Hm2 ltac:(by rewrite Hbuf2) Hrun tr k).
    rewrite Hbuf2. cbn [x1 _buffered_transitions]. rewrite reverse_involutive.
    rewrite Hreg.
    rewrite (registered_other_trigger _ _ x x1) by done.
    rewrite <- app_assoc. f_equal.
    unfold sources_of in Hsrcs.
    rewrite bool_decide_eq_false_2 in Hsrcs by done. injection Hsrcs as <-.
    rewrite (filter_cons _ args).
    destruct (decide (tr = b_trigger args)) as [->|Htr].
    + rewrite filter_cons, filter_nil.
      destruct (decide (b_source args = k)) as [Hk|Hk].
      * rewrite decide_True by done. by subst k.
      * by rewrite decide_False by tauto.
    + by rewrite decide_False by (intros [? ?]; congruence).
Qed.

Lemma flush_machine fuel self w w' :
  flush class_attr model_class_attr isdigit fuel self w = (Ok (), w') →
  is_Some (machines w !! self).
Proof.
  destruct fuel as [|fuel]; [done|]. cbn [flush]. intros Hrun.
  apply bind_ok_inv in Hrun as (x & w0 & [Hx ->]%query_ok_inv & _).
  unfold get_machine in Hx. by destruct (machines w !! self).
Qed.

(** Modelled registration of the base engine: entering states into the
    registry leaves the buffer alone. *)
Lemma base_add_states_buffer fuel self new_states :
  ∀ w r w', base_add_states fuel self new_states w = (r, w') →
  ∀ x', machines w' !! self = Some x' →
  ∃ x, machines w !! self = Some x ∧
       _buffered_transitions x' = _buffered_transitions x.
Proof.
  unfold base_add_states.
  induction new_states as [|s l IH]; intros w r w' Hrun x' Hx'.
  - injection Hrun as <- <-. eauto.
  - cbn [for_each] in Hrun. unfold mbind at 1, M_bind at 1 in Hrun.
    unfold mbind at 1, M_bind at 1, query at 1 in Hrun.
    destruct (name fuel w s) as [n| |].
    + unfold update_machine, set_machines in Hrun.
      destruct (IH _ _ _ Hrun x' Hx') as (x1 & Hx1 & ->).
      cbn [machines] in Hx1.
      destruct (machines w !! self) as [y|] eqn:Hy; [|congruence].
      rewrite list_lookup_insert_eq in Hx1 by (by eapply lookup_lt_Some).
      injection Hx1 as <-. eauto.
    + injection Hrun as <- <-. eauto.
    + injection Hrun as <- <-. eauto.
Qed.

(** X27: a call of [add_states] that returns has handed every record of the
    buffer to [add_transition]: the buffer that [traverse] left is empty
    afterwards and, no record having the source ["*"], the transition of
    each record is registered for the trigger and under the source name of
    the record, after what was registered there, last record first. *)
Theorem add_states_empties_buffer fuel self states' oe ox ign w w' :
  add_states class_attr model_class_attr isdigit fuel self states' oe ox ign w
    = (Ok (), w') →
  ∃ new_states w1 x1 x',
    traverse fuel self states' oe ox ign None ∅ w = (Ok new_states, w1) ∧
    machines w1 !! self = Some x1 ∧
    machines w' !! self = Some x' ∧ _buffered_transitions x' = [] ∧
    (Forall (λ b, b_source b ≠ "*") (_buffered_transitions x1) →
     ∀ tr k, registered w' self tr k =
       registered w1 self tr k ++
       (record_transition
          <$> filter (λ b, b_trigger b = tr ∧ b_source b = k)
                (reverse (_buffered_transitions x1)))).
Proof.
  intros Hrun. unfold add_states in Hrun.
  apply bind_ok_inv in Hrun as (new_states & w1 & Htr & Hrun).
  apply bind_ok_inv in Hrun as ([] & w2 & Hbase & Hrun).
  destruct (flush_empties _ _ _ _ Hrun) as (x' & Hx' & Hempty).
  destruct (flush_machine _ _ _ _ Hrun) as [x2 Hx2].
  destruct (base_add_states_buffer _ _ _ _ _ _ Hbase _ Hx2) as (x1 & Hx1 & Hb).
  exists new_states, w1, x1, x'. repeat split; try done.
  intros Hall tr k.
  rewrite (flush_registered _ _ _ _ _ Hx2 ltac:(by rewrite Hb) Hrun tr k).
  rewrite Hb. f_equal. by eapply base_add_states_registered.
Qed.

(** X28: the loop of [add_states] takes the records from the end of the buffer:
    the transitions of the buffered records are registered last record
    first, each after the transitions that its source name had for its
    trigger, so that for one trigger and one source name the transitions of
    an embedded machine end up in the reverse of the order in which they
    were buffered. *)
Theorem flush_registers_last_first fuel self : ∀ w w' x,
  machines w !! self = Some x →
  Forall (λ b, b_source b ≠ "*") (_buffered_transitions x) →
  flush class_attr model_class_attr isdigit fuel self w = (Ok (), w') →
  ∀ tr k, registered w' self tr k =
    registered w self tr k ++
    (record_transition
       <$> filter (λ b, b_trigger b = tr ∧ b_source b = k)
             (reverse (_buffered_transitions x))).
Proof. exact (flush_registered fuel self). Qed.

End OrchestratorLaws.

Section OrchestratorScenarios.

Lemma add_transition_binds_trigger_witness :
  ∃ x', machines wildcard_run.2 !! 0 = Some x' ∧
    model x' = <["reset" := MTrigger "reset"]> ∅ ∧
    states x' = states scenario_machine ∧ current_state x' = 2 ∧
    _buffered_transitions x' = [] ∧
    nodes wildcard_run.2 = nodes scenario_world.
Proof.
  apply (add_transition_binds_trigger no_class_attr no_class_attr
           FunctionWrapper.sample_isdigit 10 0 "reset"
           (SourceStr "*") "A" [] [] [] [] scenario_world wildcard_run.2
           scenario_machine eq_refl eq_refl).
  by vm_compute.
Defined.

Lemma add_transition_binds_path_witness :
  ∃ first rest stored x' t,
    split "." "A.B" = first :: rest ∧
    FunctionWrapper.mangled FunctionWrapper.sample_isdigit rest = Ok stored ∧
    machines path_run.2 !! 0 = Some x' ∧
    model x' = <["to_" +:+ first := MWrapper t]> ∅ ∧
    ("_func" ∉ stored →
       ∃ wr, FunctionWrapper.find t stored = Some (FunctionWrapper.VObj wr) ∧
             ∀ fuel', FunctionWrapper.call (S fuel') wr = Ok "to_A.B").
Proof.
  apply (add_transition_binds_path no_class_attr no_class_attr
           FunctionWrapper.sample_isdigit 10 0 "to_A.B"
           (SourceStr "A") "A.B" [] [] [] [] scenario_world path_run.2
           scenario_machine eq_refl eq_refl eq_refl).
  by vm_compute.
Defined.

Lemma add_transition_named_sources_witness :
  registered list_run.2 0 "leave" "*" = [mkTransition "*" "A.C" [] [] [] []].
Proof.
  apply (add_transition_named_sources no_class_attr no_class_attr
           FunctionWrapper.sample_isdigit 10 0 "leave"
           (SourceList ["A"; "*"]) "A.C" [] [] [] [] scenario_world list_run.2
           scenario_machine eq_refl ltac:(discriminate) ltac:(by vm_compute)
           "leave" "*").
Defined.

Lemma add_states_empties_buffer_witness :
  ∃ new_states w1 x1 x',
    traverse 10 0 (One (SDict 0)) [] [] None None ∅ embedding_world
      = (Ok new_states, w1) ∧
    machines w1 !! 0 = Some x1 ∧
    machines embedding_run.2 !! 0 = Some x' ∧ _buffered_transitions x' = [] ∧
    (Forall (λ b, b_source b ≠ "*") (_buffered_transitions x1) →
     ∀ tr k, registered embedding_run.2 0 tr k =
       registered w1 0 tr k ++
       (record_transition
          <$> filter (λ b, b_trigger b = tr ∧ b_source b = k)
                (reverse (_buffered_transitions x1)))).
Proof.
  apply (add_states_empties_buffer no_class_attr no_class_attr
           FunctionWrapper.sample_isdigit 10 0
           (One (SDict 0)) [] [] None embedding_world embedding_run.2).
  by vm_compute.
Defined.

Lemma flush_registers_last_first_witness :
  registered flush_run.2 0 "go" "N.P" =
    [record_transition second_record; record_transition first_record].
Proof.
  apply (flush_registers_last_first no_class_attr no_class_attr
           FunctionWrapper.sample_isdigit 10 0
           buffered_world flush_run.2 buffered_machine eq_refl
           ltac:(repeat constructor; discriminate) ltac:(by vm_compute)
           "go" "N.P").
Defined.

End OrchestratorScenarios.
